(** * CASE prompt recipes: the pool sampler and the workflow patcher

    A shallow embedding of [workflows/recipes/generate_case_prompt.py] and
    [workflows/recipes/apply_case_prompt.py].

    - Python dictionaries keep insertion order and the code iterates over
      them, so a dictionary is an association list with in-place update
      ([od_set]); a well-formed dictionary has no repeated key.
    - Strings are sequences of ASCII characters, and the keys of a mapping
      are strings, as in a parsed JSON document; [dict] of a sequence of
      pairs whose key is a number, a truth value or [null] is outside the
      model and reported as an error.
    - Exceptions and [SystemExit] are values of [error]; a function that can
      raise returns a [result].
    - The interpreter's random generator is an interface ([RandomSource]);
      the module-level generator state is threaded through the sampler.
    - The file system is a small state: the working and the home directory,
      the files and directories there are, and the log of the changes made.
      There are no symbolic links, and a call fails as the operating system
      makes it fail for a missing file or directory and for a directory
      where a file is expected, or the other way round. *)

From Stdlib Require Import ZArith Ascii String DecimalString DecimalPos DecimalZ.
From stdpp Require Import base option list strings sorting gmap.

Set Warnings "-clear-no-such-hyp,-register-all".

#[local] Open Scope string_scope.
#[local] Open Scope Z_scope.
#[local] Open Scope list_scope.

(** ** Errors and results *)

Inductive error : Type :=
  | PoolFileNotFound                       (* SystemExit("Pool file not found: ...") *)
  | PoolModeNotFound (mode : string)       (* SystemExit("Pool mode '...' not found ...") *)
  | KeyError (key : string)                (* KeyError raised by a subscript *)
  | UnknownPresetError (name : string)     (* KeyError("Unknown style preset '...'.") *)
  | UnknownGroupError (name : string)      (* KeyError("Unknown negative group '...'") *)
  | WorkflowNotFound                       (* SystemExit("Workflow not found: ...") *)
  | RoleMismatchError (node_id : string)   (* SystemExit("Node ... is not a CLIPTextEncode block.") *)
  | NodeNotFoundError (class_type : string)(* SystemExit("... node not found; cannot ...") *)
  | DependencyMissingError                 (* SystemExit("LoRA loader node not found; cannot add IPAdapter.") *)
  | MissingArgumentError (feature : string)(* SystemExit("--add-... requires ...") *)
  | FileNotFoundError (path : list string) (* SystemExit("... image not found: ...") *)
  | ValueError (text : string)             (* int() on a text that is no integer literal; dict() on an element that is no pair *)
  | TypeError                              (* dict() on a value that is no mapping and no sequence of pairs *)
  | NoSuchFileError (path : list string)   (* the FileNotFoundError of the operating system *)
  | FileExistsError (path : list string)   (* mkdir on a file *)
  | IsADirectoryError (path : list string) (* a directory read or written as a file *)
  | NotADirectoryError (path : list string)(* a file used as a directory *)
  | SameFileError (path : list string).    (* shutil.SameFileError *)

Inductive result (A : Type) : Type :=
  | Ok (a : A)
  | Err (e : error).
Arguments Ok {A} a.
Arguments Err {A} e.


(** A computation that reads and updates a state of type [S] and may raise.
    What was done to the state before an exception stays done. *)
Definition M (S A : Type) : Type := S -> result A * S.

Definition ret {S A} (a : A) : M S A := fun s => (Ok a, s).
Definition raise {S A} (e : error) : M S A := fun s => (Err e, s).
Definition bind {S A B} (m : M S A) (k : A -> M S B) : M S B :=
  fun s => match m s with
           | (Ok a, s') => k a s'
           | (Err e, s') => (Err e, s')
           end.
Definition lift {S A} (r : result A) : M S A := fun s => (r, s).

Declare Scope run_scope.
Delimit Scope run_scope with run.
Notation "'let*' x ':=' m 'in' k" := (bind m (fun x => k))
  (at level 10, x pattern, m at level 100, k at level 200) : run_scope.
#[local] Open Scope run_scope.

(** ** Ordered dictionaries *)

Module OrderedDict.

Abbreviation odict V := (list (string * V)) (only parsing).

Section Ops.
Context {V : Type}.

Definition keys (d : odict V) : list string := d.*1.

    (** [d.get(k)] *)
Fixpoint od_get (k : string) (d : odict V) : option V :=
      match d with
      | [] => None
      | (k', v) :: d' => if String.eqb k' k then Some v else od_get k d'
      end.

    (** [d[k] = v]: the entry keeps its place when [k] is already a key and
        goes to the end otherwise. *)
Fixpoint od_set (k : string) (v : V) (d : odict V) : odict V :=
      match d with
      | [] => [(k, v)]
      | (k', v') :: d' =>
          if String.eqb k' k then (k', v) :: d' else (k', v') :: od_set k v d'
      end.

    (** [d.update(u)] *)
Fixpoint od_update (d : odict V) (u : odict V) : odict V :=
      match u with
      | [] => d
      | (k, v) :: u' => od_update (od_set k v d) u'
      end.

    (** [k in d] *)
Definition od_mem (k : string) (d : odict V) : bool :=
      match od_get k d with Some _ => true | None => false end.

End Ops.

End OrderedDict.
Export OrderedDict.

(** ** The pool sampler ([generate_case_prompt.py]) *)

Abbreviation token := string (only parsing).

(** The random generator of the interpreter.  [randbelow n g] is the
    generator's draw of an index below [n]; it is only ever asked for a
    positive [n]. *)
Class RandomSource : Type := {
  rng_state : Type;
  rng_seed : Z -> rng_state;
  randbelow : nat -> rng_state -> nat * rng_state;
  randbelow_lt : forall n g, (0 < n)%nat -> (fst (randbelow n g) < n)%nat
}.

(** [target.append(item)] for every addition not yet in [target]: the body of
    [merge_section]'s inner loop and of [extend_unique]. *)
Fixpoint extend_unique (target additions : list token) : list token :=
  match additions with
  | [] => target
  | item :: rest =>
      extend_unique (if decide (item ∈ target) then target else target ++ [item]) rest
  end.

(** The pool definitions resource, [case_prompt_pools.json]. *)
Record pool_document : Type := {
  doc_sets : odict (odict (odict (list token)));   (* "sets": mode -> section -> subcategory -> tokens *)
  doc_sections : odict (odict (list token));       (* the other top-level mappings, read when there is no "sets" *)
  doc_negative_base : list token;
  doc_negative_optional : odict (list token);
  doc_style_presets : odict (odict (list token))   (* absent is the empty mapping *)
}.

(** What [_load_pools] returns: [combined], with its section entries and its
    four bookkeeping entries kept apart. *)
Record pools : Type := {
  sections : odict (odict (list token));
  negative_base : list token;
  negative_optional : odict (list token);
  style_presets : odict (odict (list token));
  _sources : odict (odict (odict (list token)))    (* section -> subcategory -> mode -> tokens *)
}.

Definition get_or {V} (k : string) (dflt : V) (d : odict V) : V :=
  default dflt (od_get k d).

(** The state of [_load_pools]'s loop: the dictionaries [combined] and
    [sources] that [merge_section] updates. *)
Definition merge_state : Type :=
  (odict (odict (list token)) * odict (odict (odict (list token))))%type.

(** One turn of [for key, values in additions.items()] on the two section
    dictionaries. *)
Definition merge_key (mode_name : string)
    (st : odict (list token) * odict (odict (list token)))
    (entry : string * list token) : odict (list token) * odict (odict (list token)) :=
  let '(dest_section, source_section) := st in
  let '(key, values) := entry in
  let dest_list := get_or key [] dest_section in
  let source_modes := get_or key [] source_section in
  let mode_list := get_or mode_name [] source_modes in
  (od_set key (extend_unique dest_list values) dest_section,
   od_set key (od_set mode_name (extend_unique mode_list values) source_modes) source_section).

Definition merge_section (section_name : string) (additions : odict (list token))
    (mode_name : string) (st : merge_state) : merge_state :=
  let '(combined, sources) := st in
  let dest_section := get_or section_name [] combined in
  let source_section := get_or section_name [] sources in
  let '(dest_section', source_section') :=
    fold_left (merge_key mode_name) additions (dest_section, source_section) in
  (od_set section_name dest_section' combined,
   od_set section_name source_section' sources).

(** [for section_name, section_values in additions.items(): merge_section(...)] *)
Definition merge_mode (mode : string) (additions : odict (odict (list token)))
    (st : merge_state) : merge_state :=
  fold_left (fun st '(section_name, section_values) =>
               merge_section section_name section_values mode st) additions st.

(** [for mode in modes], with the [KeyError] of [sets[mode]] turned into
    [SystemExit]. *)
Fixpoint merge_modes (sets : odict (odict (odict (list token)))) (modes : list string)
    (st : merge_state) : result merge_state :=
  match modes with
  | [] => Ok st
  | mode :: rest =>
      match od_get mode sets with
      | None => Err (PoolModeNotFound mode)
      | Some additions => merge_modes sets rest (merge_mode mode additions st)
      end
  end.

(** [_load_pools(modes)]; [file] is the pool document on disk, if any. *)
Definition _load_pools (file : option pool_document) (modes : list string) : result pools :=
  match file with
  | None => Err PoolFileNotFound
  | Some data =>
      match doc_sets data with
      | [] => Ok {| sections := doc_sections data;
                    negative_base := doc_negative_base data;
                    negative_optional := doc_negative_optional data;
                    style_presets := doc_style_presets data;
                    _sources := [] |}
      | sets =>
          let modes := match modes with [] => ["general"] | _ => modes end in
          match merge_modes sets modes ([], []) with
          | Err e => Err e
          | Ok (combined, sources) =>
              Ok {| sections := combined;
                    negative_base := doc_negative_base data;
                    negative_optional := doc_negative_optional data;
                    style_presets := doc_style_presets data;
                    _sources := sources |}
          end
      end
  end.

(** [d[k]] *)
Definition subscript {V} (k : string) (d : odict V) : result V :=
  match od_get k d with
  | Some v => Ok v
  | None => Err (KeyError k)
  end.

(** [delimiter.join(items)] *)
Fixpoint join (delimiter : string) (items : list string) : string :=
  match items with
  | [] => ""
  | x :: rest =>
      match rest with
      | [] => x
      | _ => x +:+ delimiter +:+ join delimiter rest
      end
  end.

Definition _format_line (name : string) (items : list token) (flat : bool)
    (delimiter : string) : string :=
  let joined := join delimiter items in
  if negb flat then name +:+ ": " +:+ joined else joined.

Record CasePrompt : Type := {
  composition : list token;
  action : list token;
  subject : list token;
  environment : list token;
  negatives : list token
}.

Definition as_lines (self : CasePrompt) (flat : bool) (delimiter : string) : list string :=
  let lines :=
    [ _format_line "Composition" (composition self) flat delimiter;
      _format_line "Action" (action self) flat delimiter;
      _format_line "Subject" (subject self) flat delimiter;
      _format_line "Environment" (environment self) flat delimiter ] in
  let neg_label := if flat then "" else "Negative Prompt" in
  lines ++ [ _format_line neg_label (negatives self) flat delimiter ].

Section Sampler.
Context `{RandomSource}.

  (** [random.sample(population, k)], the library's selection without
      replacement over a working copy of the population: each turn draws a
      position [j] below the number of items left, takes the item there and
      moves the last item left into position [j].  Callers never ask for more
      items than the population holds ([sample_call_sites]). *)
Fixpoint sample {A} (pool : list A) (k : nat) (g : rng_state) : list A * rng_state :=
    match k with
    | O => ([], g)
    | S k' =>
        let n := length pool in
        let '(j, g1) := randbelow n g in
        match pool !! j, last pool with
        | Some x, Some y =>
            let '(rest, g2) := sample (take (n - 1) (<[j := y]> pool)) k' g1 in
            (x :: rest, g2)
        | _, _ => ([], g1)
        end
    end.

Definition _pick_items (options : list token) (count : Z) (preferred : list token)
      (g : rng_state) : list token * rng_state :=
    if count <=? 0 then ([], g) else
    let available_preferred := filter (fun item => item ∈ options) preferred in
    let '(chosen, count, g) :=
      match available_preferred with
      | [] => ([], count, g)
      | _ =>
          let take := Z.min count (Z.of_nat (length available_preferred)) in
          let '(picked, g') := sample available_preferred (Z.to_nat take) g in
          (picked, count - take, g')
      end in
    if count <=? 0 then (chosen, g) else
    let remaining_pool := filter (fun item => item ∉ chosen) options in
    match remaining_pool with
    | [] => (chosen, g)
    | _ =>
        if Z.of_nat (length remaining_pool) <=? count
        then (chosen ++ remaining_pool, g)
        else let '(picked, g') := sample remaining_pool (Z.to_nat count) g in
             (chosen ++ picked, g')
    end.

  (** The draw of one subcategory inside [_sample_section]'s loop. *)
Definition draw_subcategory (overrides : odict Z) (default : Z)
      (preferred : odict (list token)) (key : string) (options : list token)
      (g : rng_state) : list token * rng_state :=
    let count := get_or key default overrides in
    if count <=? 0 then ([], g) else
    let pref_values :=
      match preferred with
      | [] => []
      | _ => get_or key [] preferred
      end in
    _pick_items options count pref_values g.

Fixpoint _sample_section (section : odict (list token)) (overrides : odict Z)
      (default : Z) (preferred : odict (list token)) (g : rng_state)
      : list token * rng_state :=
    match section with
    | [] => ([], g)
    | (key, options) :: rest =>
        let '(drawn, g1) := draw_subcategory overrides default preferred key options g in
        let '(selections, g2) := _sample_section rest overrides default preferred g1 in
        (drawn ++ selections, g2)
    end.

  (** [build_preferred(section_name)] inside [generate_prompt]. *)
Definition build_preferred (sources : odict (odict (odict (list token))))
      (preferred_modes : list string) (section_name : string) : odict (list token) :=
    match preferred_modes with
    | [] => []
    | _ =>
        let section_sources := get_or section_name [] sources in
        fold_left
          (fun preferred_map '(key, mode_map) =>
             let selections :=
               flat_map (fun mode => get_or mode [] mode_map) preferred_modes in
             match selections with
             | [] => preferred_map
             | _ => od_set key selections preferred_map
             end)
          section_sources []
    end.

  (** [negatives.extend(optional_pool[group])] for every requested group. *)
Fixpoint extend_groups (optional_pool : odict (list token)) (negative_groups : list string)
      (negatives : list token) : result (list token) :=
    match negative_groups with
    | [] => Ok negatives
    | group :: rest =>
        match od_get group optional_pool with
        | None => Err (UnknownGroupError group)
        | Some extra => extend_groups optional_pool rest (negatives ++ extra)
        end
    end.

Definition sample_named (p : pools) (name : string) (overrides : odict Z)
      (default_count : Z) (preferred : odict (list token)) : M rng_state (list token) :=
    let* section := lift (subscript name (sections p)) in
    fun g => let '(drawn, g') := _sample_section section overrides default_count preferred g in
             (Ok drawn, g').

  (** [generate_prompt(...)]; [file] is the pool document [_load_pools] would
      read, and the state is the module-level generator. *)
Definition generate_prompt (file : option pool_document) (pools_arg : option pools)
      (modes : list string) (seed : option Z)
      (composition_overrides action_overrides subject_overrides
         environment_overrides : odict Z)
      (negative_groups : list string) (style_preset : option string)
      (default_count : Z) : M rng_state CasePrompt :=
    let* p := lift (match pools_arg with
                    | Some p => Ok p
                    | None => _load_pools file modes
                    end) in
    let sources := _sources p in
    let preferred_modes := filter (fun mode => mode ≠ "general") modes in
    let composition_pref := build_preferred sources preferred_modes "composition" in
    let action_pref := build_preferred sources preferred_modes "action" in
    let subject_pref := build_preferred sources preferred_modes "subject" in
    let environment_pref := build_preferred sources preferred_modes "environment" in
    let* _ := (fun g => match seed with
                        | Some s => (Ok tt, rng_seed s)
                        | None => (Ok tt, g)
                        end) in
    let* composition := sample_named p "composition" composition_overrides
                          default_count composition_pref in
    let* action := sample_named p "action" action_overrides default_count action_pref in
    let* subject := sample_named p "subject" subject_overrides default_count subject_pref in
    let* environment := sample_named p "environment" environment_overrides
                          default_count environment_pref in
    let* (preset_data, composition, action, subject, environment) :=
      lift (match style_preset with
            | None | Some "" => Ok (None, composition, action, subject, environment)
            | Some name =>
                match od_get name (style_presets p) with
                | None => Err (UnknownPresetError name)
                | Some preset_data =>
                    Ok (Some preset_data,
                        extend_unique composition (get_or "composition" [] preset_data),
                        extend_unique action (get_or "action" [] preset_data),
                        extend_unique subject (get_or "subject" [] preset_data),
                        extend_unique environment (get_or "environment" [] preset_data))
                end
            end) in
    let* negatives := lift (extend_groups (negative_optional p) negative_groups
                              (negative_base p)) in
    let negatives :=
      match preset_data with
      | None | Some [] => negatives
      | Some preset_data => negatives ++ get_or "negative" [] preset_data
      end in
    ret {| composition := composition; action := action; subject := subject;
           environment := environment; negatives := negatives |}.

End Sampler.


(** ** The workflow patcher ([apply_case_prompt.py]) *)

(** JSON values, as [json.loads] builds them.  A float is kept as its decimal
    literal, mantissa and exponent: the patcher only stores numbers. *)
Inductive number : Type :=
  | NInt (z : Z)
  | NFloat (mantissa exponent : Z).

Inductive json : Type :=
  | JNull
  | JBool (b : bool)
  | JNum (n : number)
  | JStr (s : string)
  | JList (items : list json)
  | JDict (entries : list (string * json)).

(** The workflow document: node id -> node record. *)
Abbreviation graph := (list (string * json)) (only parsing).

(** [[node_id, slot]], a reference to an output of another node. *)
Definition ref (node_id : string) (slot : Z) : json :=
  JList [JStr node_id; JNum (NInt slot)].

(** Paths, as the tuple of their parts ([pathlib]'s [parts]). *)
Abbreviation path := (list string) (only parsing).

(** [s.split("/")] *)
Fixpoint segments (s : string) : list string :=
  match s with
  | EmptyString => [""]
  | String c rest =>
      if Ascii.eqb c "/"%char then "" :: segments rest
      else match segments rest with
           | seg :: more => String c seg :: more
           | [] => [String c ""]
           end
  end.

(** [Path(s)]: the root, if any, then the parts that are neither empty nor
    a dot.  Two leading slashes, and no more, make the root [//]. *)
Definition Path (s : string) : path :=
  let parts := filter (fun part => part ≠ "" ∧ part ≠ ".") (segments s) in
  match s with
  | String "/"%char (String "/"%char (String "/"%char _)) => "/" :: parts
  | String "/"%char (String "/"%char _) => "//" :: parts
  | String "/"%char _ => "/" :: parts
  | _ => parts
  end.

(** [p.parent] *)
Definition parent (p : path) : path :=
  match p with
  | ["/"] => ["/"]
  | ["//"] => ["//"]
  | _ => removelast p
  end.

(** [p.name] *)
Definition name (p : path) : string :=
  match p with
  | ["/"] | ["//"] => ""
  | _ => List.last p ""
  end.

(** The file system.  [existing] and [directories] hold absolute paths
    without [..]: the root [/] and then the names.  The root and the
    working directory are directories without being listed.  [events] is
    the log of the changes a run made, with the paths as the run gave
    them. *)
Inductive fs_event : Type :=
  | Mkdir (p : path)
  | Copy (source dest : path)
  | WriteText (p : path) (document : graph).

Record world : Type := {
  cwd : path;
  home : path;
  existing : list path;
  directories : list path;
  events : list fs_event
}.

Definition is_dir (w : world) (q : path) : bool :=
  bool_decide (q = ["/"] ∨ q = cwd w ∨ q ∈ directories w).

Definition is_there (w : world) (q : path) : bool :=
  bool_decide (q = ["/"] ∨ q = cwd w ∨ q ∈ existing w ∨ q ∈ directories w).

(** Where a path starts, and the names to follow from there. *)
Definition anchor (w : world) (p : path) : path * list string :=
  match p with
  | "/" :: parts | "//" :: parts => (["/"], parts)
  | _ => (cwd w, p)
  end.

(** One name followed from [q], for a name that is not [..] or for [..]. *)
Definition enter (q : path) (part : string) : path :=
  if String.eqb part ".." then parent q else q ++ [part].

(** [p.resolve()]: the absolute path, with every [..] taken out together
    with the name before it. *)
Definition resolve (w : world) (p : path) : path :=
  let '(start, parts) := anchor w p in fold_left enter parts start.

(** The place the operating system finds for the path [p]: as [resolve],
    but a [..] can only be followed out of a directory. *)
Fixpoint walk (w : world) (p : path) (q : path) (parts : list string) : result path :=
  match parts with
  | [] => Ok q
  | part :: rest =>
      if String.eqb part ".." then
        if is_dir w q then walk w p (parent q) rest
        else if is_there w q then Err (NotADirectoryError p)
        else Err (NoSuchFileError p)
      else walk w p (q ++ [part]) rest
  end.

Definition locate (w : world) (p : path) : result path :=
  let '(start, parts) := anchor w p in walk w p start parts.

(** [p.expanduser()], for the user's own home directory ([~]); the home of
    another user ([~name]) is not modelled. *)
Definition expand (home : path) (p : path) : path :=
  match p with
  | "~" :: rest => home ++ rest
  | _ => p
  end.

Definition expanduser (p : path) : M world path :=
  fun w => (Ok (expand (home w) p), w).

(** [p.resolve()] *)
Definition resolved (p : path) : M world path :=
  fun w => (Ok (resolve w p), w).

(** [p.exists()] *)
Definition found (w : world) (p : path) : bool :=
  match locate w p with
  | Ok q => is_there w q
  | Err _ => false
  end.

Definition path_exists (p : path) : M world bool :=
  fun w => (Ok (found w p), w).

(** [p.mkdir(exist_ok=True)] *)
Definition mkdir (p : path) : M world unit :=
  fun w =>
    match locate w p with
    | Err e => (Err e, w)
    | Ok q =>
        if is_dir w q then (Ok tt, w)
        else if is_there w q then (Err (FileExistsError p), w)
        else if is_dir w (parent q) then
          (Ok tt, {| cwd := cwd w; home := home w;
                     existing := existing w ++ [q];
                     directories := directories w ++ [q];
                     events := events w ++ [Mkdir p] |})
        else if is_there w (parent q) then (Err (NotADirectoryError p), w)
        else (Err (NoSuchFileError p), w)
    end.

(** [shutil.copy2(source, dest)]: into [dest] when that is a directory. *)
Definition copy2 (source dest : path) : M world unit :=
  fun w =>
    match locate w source, locate w dest with
    | Ok qs, Ok qd =>
        let target :=
          if is_dir w qd
          then (if String.eqb (name source) "" then qd else enter qd (name source))
          else qd in
        if negb (is_there w qs) then (Err (NoSuchFileError source), w)
        else if bool_decide (target = qs) then (Err (SameFileError source), w)
        else if is_dir w qs then (Err (IsADirectoryError source), w)
        else if is_dir w target then (Err (IsADirectoryError dest), w)
        else if is_dir w (parent target) then
          (Ok tt, {| cwd := cwd w; home := home w;
                     existing := existing w ++ [target];
                     directories := directories w;
                     events := events w ++ [Copy source dest] |})
        else if is_there w (parent target) then (Err (NotADirectoryError dest), w)
        else (Err (NoSuchFileError dest), w)
    | Err e, _ => (Err e, w)
    | _, Err e => (Err e, w)
    end.

(** [p.write_text(json.dumps(data, indent=2))] *)
Definition write_text (p : path) (data : graph) : M world unit :=
  fun w =>
    match locate w p with
    | Err e => (Err e, w)
    | Ok q =>
        if is_dir w q then (Err (IsADirectoryError p), w)
        else if is_dir w (parent q) then
          (Ok tt, {| cwd := cwd w; home := home w;
                     existing := existing w ++ [q];
                     directories := directories w;
                     events := events w ++ [WriteText p data] |})
        else if is_there w (parent q) then (Err (NotADirectoryError p), w)
        else (Err (NoSuchFileError p), w)
    end.

(** The parsed command line. *)
Record args : Type := {
  workflow : path;
  output : option path;
  seed : option Z;
  pos_node : string;
  neg_node : string;
  flat : bool;
  delimiter : string;
  neg_groups : list string;
  mode : list string;                      (* absent is the empty list *)
  mature : bool;
  style_preset : option string;
  add_ipadapter : bool;
  ipadapter_preset : string;
  ipadapter_image : option string;
  ipadapter_weight : number;
  ipadapter_weight_type : string;
  ipadapter_combine : string;
  ipadapter_start : number;
  ipadapter_end : number;
  ipadapter_embeds : string;
  ipadapter_community : bool;
  ipadapter_community_preset : string;
  lora_strength_model : option number;
  lora_strength_clip : option number;
  clip_layer : option Z;
  add_controlnet : bool;
  controlnet : option string;
  control_image : option string;
  control_strength : number;
  control_start : number;
  control_end : number;
  dry_run : bool
}.

(** [not s] for an optional string: absent or empty. *)
Definition not_str (s : option string) : bool :=
  match s with
  | None | Some "" => true
  | Some _ => false
  end.

(** [isinstance(node, dict) and node.get("class_type") == class_type] *)
Definition has_class (node : json) (class_type : string) : bool :=
  match node with
  | JDict fields =>
      match od_get "class_type" fields with
      | Some (JStr s) => String.eqb s class_type
      | _ => false
      end
  | _ => false
  end.

(** [find_node_id(class_type)], over the dictionary [data] of the moment. *)
Fixpoint find_node_id (data : graph) (class_type : string) : option string :=
  match data with
  | [] => None
  | (node_id, node) :: rest =>
      if has_class node class_type then Some node_id else find_node_id rest class_type
  end.

(** [dict(data[node_id])] *)
Definition node_fields (data : graph) (node_id : string) : result (list (string * json)) :=
  match od_get node_id data with
  | Some (JDict fields) => Ok fields
  | Some _ => Err TypeError
  | None => Err (KeyError node_id)
  end.

(** One element of a sequence given to [dict]: a list of two values, a
    string of two characters or a mapping with two keys.  A key that is no
    string is not modelled: it is reported as a type error, which is what
    Python answers for a key that is a list or a mapping. *)
Definition pair_of (item : json) : result (string * json) :=
  match item with
  | JList [JStr key; value] => Ok (key, value)
  | JList [_; _] => Err TypeError
  | JList _ => Err (ValueError "dict")
  | JStr (String c1 (String c2 EmptyString)) =>
      Ok (String c1 EmptyString, JStr (String c2 EmptyString))
  | JStr _ => Err (ValueError "dict")
  | JDict [(key1, _); (key2, _)] => Ok (key1, JStr key2)
  | JDict _ => Err (ValueError "dict")
  | _ => Err TypeError
  end.

Fixpoint dict_of_items (items : list json) (entries : list (string * json))
    : result (list (string * json)) :=
  match items with
  | [] => Ok entries
  | item :: rest =>
      match pair_of item with
      | Err e => Err e
      | Ok (key, value) => dict_of_items rest (od_set key value entries)
      end
  end.

(** [dict(x)]: a copy of a mapping, or the mapping made of a sequence of
    pairs. *)
Definition dict (x : json) : result (list (string * json)) :=
  match x with
  | JDict entries => Ok entries
  | JList items => dict_of_items items []
  | JStr EmptyString => Ok []
  | JStr _ => Err (ValueError "dict")
  | _ => Err TypeError
  end.

(** [dict(node.get("inputs", {}))] *)
Definition inputs_of (fields : list (string * json)) : result (list (string * json)) :=
  match od_get "inputs" fields with
  | None => Ok []
  | Some x => dict x
  end.

(** The update of a node in place, as the patcher writes it each time:
    [node = dict(data[node_id]); inputs = dict(node.get("inputs", {}));
     inputs.update(updates); node["inputs"] = inputs; data[node_id] = node]. *)
Definition update_inputs (data : graph) (node_id : string)
    (updates : list (string * json)) : result graph :=
  match node_fields data node_id with
  | Err e => Err e
  | Ok fields =>
      match inputs_of fields with
      | Err e => Err e
      | Ok inputs =>
          Ok (od_set node_id
                (JDict (od_set "inputs" (JDict (od_update inputs updates)) fields)) data)
      end
  end.

(** The IPAdapter variant, which assigns the inputs instead of updating them:
    [node = dict(data[node_id]); node["inputs"] = inputs; data[node_id] = node]. *)
Definition replace_inputs (data : graph) (node_id : string)
    (inputs : list (string * json)) : result graph :=
  match node_fields data node_id with
  | Err e => Err e
  | Ok fields => Ok (od_set node_id (JDict (od_set "inputs" (JDict inputs) fields)) data)
  end.

(** [{"class_type": class_type, "inputs": inputs}] *)
Definition new_node (class_type : string) (inputs : list (string * json)) : json :=
  JDict [("class_type", JStr class_type); ("inputs", JDict inputs)].

(** [str(n)] *)
Definition str (n : Z) : string := NilZero.string_of_int (Z.to_int n).

(** The blanks [int] passes over at both ends of its text. *)
Definition is_blank (c : ascii) : bool :=
  let n := nat_of_ascii c in
  (Nat.eqb n 32 || (Nat.leb 9 n && Nat.leb n 13))%bool.

Fixpoint lstrip_with (blank : ascii -> bool) (s : string) : string :=
  match s with
  | String c rest => if blank c then lstrip_with blank rest else s
  | EmptyString => s
  end.

Fixpoint rstrip_with (blank : ascii -> bool) (s : string) : string :=
  match s with
  | EmptyString => EmptyString
  | String c rest =>
      match rstrip_with blank rest with
      | EmptyString => if blank c then EmptyString else String c EmptyString
      | rest' => String c rest'
      end
  end.

Definition lstrip : string -> string := lstrip_with is_blank.
Definition rstrip : string -> string := rstrip_with is_blank.

Definition is_digit (c : ascii) : bool :=
  let n := nat_of_ascii c in (Nat.leb 48 n && Nat.leb n 57)%bool.

(** The digits of a literal, without the underscores that may stand singly
    between two of them. *)
Fixpoint plain_digits (s : string) (after_digit : bool) : option string :=
  match s with
  | EmptyString => if after_digit then Some EmptyString else None
  | String c rest =>
      if is_digit c then String c <$> plain_digits rest true
      else if Ascii.eqb c "_"%char then
        if after_digit then plain_digits rest false else None
      else None
  end.

(** [int(s)]: blanks, a sign, and decimal digits with underscores. *)
Definition int (s : string) : result Z :=
  let text := lstrip (rstrip s) in
  let '(negative, body) :=
    match text with
    | String "+"%char rest => (false, rest)
    | String "-"%char rest => (true, rest)
    | _ => (false, text)
    end in
  match plain_digits body false ≫= NilZero.uint_of_string with
  | Some d => Ok (if negative then - Z.of_uint d else Z.of_uint d)
  | None => Err (ValueError s)
  end.

(** [{int(k) for k in data.keys()}] *)
Fixpoint int_keys (ks : list string) : result (gset Z) :=
  match ks with
  | [] => Ok ∅
  | k :: rest =>
      match int k with
      | Err e => Err e
      | Ok n =>
          match int_keys rest with
          | Err e => Err e
          | Ok ids => Ok ({[n]} ∪ ids)
          end
      end
  end.

(** [max(existing_ids)], if there is any id. *)
Definition max_id (existing_ids : gset Z) : option Z :=
  foldr (fun n best => Some (match best with Some m => Z.max n m | None => n end))
        None (elements existing_ids).

(** [next_id()]: the closure over the set [existing_ids]. *)
Definition next_id (existing_ids : gset Z) : string * gset Z :=
  let new_id := match max_id existing_ids with
                | Some m => m + 1
                | None => 1
                end in
  (str new_id, {[new_id]} ∪ existing_ids).

(** The create-or-update block the ControlNet branch runs for each of its
    three nodes: [if not node_id: node_id = next_id(); data[node_id] = {...}]
    and otherwise the update in place. *)
Definition upsert (found : option string) (class_type : string)
    (inputs : list (string * json)) (existing_ids : gset Z) (data : graph)
    : result (string * gset Z * graph) :=
  if not_str found then
    let '(node_id, existing_ids') := next_id existing_ids in
    Ok (node_id, existing_ids', od_set node_id (new_node class_type inputs) data)
  else
    let node_id := default "" found in
    match update_inputs data node_id inputs with
    | Err e => Err e
    | Ok data' => Ok (node_id, existing_ids, data')
    end.

(** Lines 228-246: both encoder nodes are read and checked, then their
    [text] input is set. *)
Definition inject_text (a : args) (positive_text negative_text : string)
    (data : graph) : result graph :=
  let pos := od_get (pos_node a) data in
  let neg := od_get (neg_node a) data in
  match pos with
  | Some (JDict pos_fields) =>
      if negb (has_class (JDict pos_fields) "CLIPTextEncode")
      then Err (RoleMismatchError (pos_node a)) else
      match neg with
      | Some (JDict neg_fields) =>
          if negb (has_class (JDict neg_fields) "CLIPTextEncode")
          then Err (RoleMismatchError (neg_node a)) else
          match inputs_of pos_fields with
          | Err e => Err e
          | Ok pos_inputs =>
              match inputs_of neg_fields with
              | Err e => Err e
              | Ok neg_inputs =>
                  let pos_inputs := od_set "text" (JStr positive_text) pos_inputs in
                  let neg_inputs := od_set "text" (JStr negative_text) neg_inputs in
                  let pos_fields := od_set "inputs" (JDict pos_inputs) pos_fields in
                  let neg_fields := od_set "inputs" (JDict neg_inputs) neg_fields in
                  Ok (od_set (neg_node a) (JDict neg_fields)
                        (od_set (pos_node a) (JDict pos_fields) data))
              end
          end
      | _ => Err (RoleMismatchError (neg_node a))
      end
  | _ => Err (RoleMismatchError (pos_node a))
  end.

(** Lines 254-265: the LoRA strengths. *)
Definition override_lora (a : args) (data : graph) : result graph :=
  match lora_strength_model a, lora_strength_clip a with
  | None, None => Ok data
  | model, clip =>
      let lora_id := find_node_id data "LoraLoader" in
      if not_str lora_id then Err (NodeNotFoundError "LoraLoader") else
      update_inputs data (default "" lora_id)
        (match model with Some n => [("strength_model", JNum n)] | None => [] end ++
         match clip with Some n => [("strength_clip", JNum n)] | None => [] end)
  end.

(** Lines 267-275: the CLIP stop layer. *)
Definition override_clip_layer (a : args) (data : graph) : result graph :=
  match clip_layer a with
  | None => Ok data
  | Some layer =>
      let clip_id := find_node_id data "CLIPSetLastLayer" in
      if not_str clip_id then Err (NodeNotFoundError "CLIPSetLastLayer") else
      update_inputs data (default "" clip_id) [("stop_at_clip_layer", JNum (NInt layer))]
  end.

(** [workflow_path.parent.parent / "input"] *)
Definition input_root (a : args) : path := parent (parent (workflow a)) ++ ["input"].

(** [p / part] *)
Definition joinpath (p : path) (part : string) : path :=
  if String.eqb part "" then p else p ++ [part].

(** The copy of a reference image into the input directory (lines 307-315
    and 377-384); returns the source and the destination path. *)
Definition stage_image (a : args) (image : string) : M world (path * path) :=
  let* _ := mkdir (input_root a) in
  let* source_image := expanduser (Path image) in
  let* there := path_exists source_image in
  if negb there then raise (FileNotFoundError source_image) else
  let dest_path := joinpath (input_root a) (name source_image) in
  let* source_resolved := resolved source_image in
  let* dest_resolved := resolved dest_path in
  let* _ := (if bool_decide (source_resolved ≠ dest_resolved)
             then copy2 source_image dest_path else ret tt) in
  ret (source_image, dest_path).

(** Lines 277-369: the ControlNet branch. *)
Definition insert_controlnet (a : args) (data : graph) : M world graph :=
  if (not_str (controlnet a) || not_str (control_image a))%bool
  then raise (MissingArgumentError "--add-controlnet") else
  let control_net_name := default "" (controlnet a) in
  let control_id := find_node_id data "ControlNetLoader" in
  let image_id := find_node_id data "LoadImage" in
  let apply_id := find_node_id data "ControlNetApplyAdvanced" in
  let* existing_ids := lift (int_keys (keys data)) in
  let* (control_id, existing_ids, data) :=
    lift (upsert control_id "ControlNetLoader"
            [("control_net_name", JStr control_net_name)] existing_ids data) in
  let* (source_image, dest_path) := stage_image a (default "" (control_image a)) in
  let dest_name := name source_image in
  let* (image_id, existing_ids, data) :=
    lift (upsert image_id "LoadImage" [("image", JStr dest_name)] existing_ids data) in
  let* (apply_id, existing_ids, data) :=
    lift (upsert apply_id "ControlNetApplyAdvanced"
            [("positive", ref (pos_node a) 0);
             ("negative", ref (neg_node a) 0);
             ("control_net", ref control_id 0);
             ("image", ref image_id 0);
             ("strength", JNum (control_strength a));
             ("start_percent", JNum (control_start a));
             ("end_percent", JNum (control_end a))] existing_ids data) in
  let sampler_id := find_node_id data "KSampler" in
  if not_str sampler_id then raise (NodeNotFoundError "KSampler") else
  lift (update_inputs data (default "" sampler_id)
          [("positive", ref apply_id 0); ("negative", ref apply_id 1)]).

(** Lines 371-443: the IPAdapter branch. *)
Definition insert_ipadapter (a : args) (data : graph) : M world graph :=
  if not_str (ipadapter_image a)
  then raise (MissingArgumentError "--add-ipadapter") else
  let lora_id := find_node_id data "LoraLoader" in
  if not_str lora_id then raise DependencyMissingError else
  let lora_id := default "" lora_id in
  let* (source_image, dest_path) := stage_image a (default "" (ipadapter_image a)) in
  let dest_name := name dest_path in
  let* existing_ids := lift (int_keys (keys data)) in
  let loader_class :=
    if ipadapter_community a then "IPAdapterUnifiedLoaderCommunity"
    else "IPAdapterUnifiedLoader" in
  let loader_id := find_node_id data loader_class in
  let loader_inputs :=
    [("model", ref lora_id 0);
     ("preset", JStr (if String.eqb loader_class "IPAdapterUnifiedLoaderCommunity"
                      then ipadapter_community_preset a else ipadapter_preset a))] in
  let* (loader_id, existing_ids, data) :=
    lift (if negb (not_str loader_id)
          then match replace_inputs data (default "" loader_id) loader_inputs with
               | Err e => Err e
               | Ok data => Ok (default "" loader_id, existing_ids, data)
               end
          else let '(loader_id, existing_ids) := next_id existing_ids in
               Ok (loader_id, existing_ids,
                   od_set loader_id (new_node loader_class loader_inputs) data)) in
  let '(image_id, existing_ids) := next_id existing_ids in
  let data := od_set image_id (new_node "LoadImage" [("image", JStr dest_name)]) data in
  let advanced_id := find_node_id data "IPAdapterAdvanced" in
  let advanced_inputs :=
    [("model", ref loader_id 0);
     ("ipadapter", ref loader_id 1);
     ("image", ref image_id 0);
     ("weight", JNum (ipadapter_weight a));
     ("weight_type", JStr (ipadapter_weight_type a));
     ("combine_embeds", JStr (ipadapter_combine a));
     ("start_at", JNum (ipadapter_start a));
     ("end_at", JNum (ipadapter_end a));
     ("embeds_scaling", JStr (ipadapter_embeds a))] in
  let* (advanced_id, existing_ids, data) :=
    lift (if negb (not_str advanced_id)
          then match replace_inputs data (default "" advanced_id) advanced_inputs with
               | Err e => Err e
               | Ok data => Ok (default "" advanced_id, existing_ids, data)
               end
          else let '(advanced_id, existing_ids) := next_id existing_ids in
               Ok (advanced_id, existing_ids,
                   od_set advanced_id (new_node "IPAdapterAdvanced" advanced_inputs) data)) in
  let sampler_id := find_node_id data "KSampler" in
  if not_str sampler_id then raise (NodeNotFoundError "KSampler") else
  lift (update_inputs data (default "" sampler_id) [("model", ref advanced_id 0)]).

(** Lines 227-443: everything [main] does to the loaded document before it
    writes it. *)
Definition patch_graph (a : args) (positive_text negative_text : string)
    (data : graph) : M world graph :=
  let* data := lift (inject_text a positive_text negative_text data) in
  let* data := lift (override_lora a data) in
  let* data := lift (override_clip_layer a data) in
  let* data := (if add_controlnet a then insert_controlnet a data else ret data) in
  if add_ipadapter a then insert_ipadapter a data else ret data.

(** Lines 199-206: the blend modes, with the [--mature] shortcut. *)
Definition selected_modes (a : args) : list string :=
  let modes :=
    if mature a then
      let base_modes := match mode a with [] => ["general"] | modes => modes end in
      if decide ("mature" ∈ base_modes) then base_modes else base_modes ++ ["mature"]
    else mode a in
  match modes with
  | [] => ["general"]
  | _ => modes
  end.

(** A new line. *)
Definition newline : string := String (ascii_of_nat 10) EmptyString.

Section PatcherMain.
Context `{RandomSource}.

(** The state of a run: the file system and the generator. *)
Definition lift_fs {A} (m : M world A) : M (world * rng_state) A :=
  fun '(w, g) => let '(r, w') := m w in (r, (w', g)).
Definition lift_gen {A} (m : M rng_state A) : M (world * rng_state) A :=
  fun '(w, g) => let '(r, g') := m g in (r, (w, g')).

(** Lines 199-218: the positive and the negative text. *)
Definition prompt_texts (file : option pool_document) (a : args)
    : M rng_state (string * string) :=
  let modes := selected_modes a in
  let* pools := lift (_load_pools file modes) in
  let* prompt := generate_prompt file (Some pools) modes (seed a) [] [] [] []
                   (neg_groups a) (style_preset a) 1 in
  let lines := as_lines prompt true (delimiter a) in
  ret (join newline (take 4 lines), nth 4 lines "").

(** [main()]. [file] is the pool document on disk and [document] the parsed
    content of the workflow file.  What [main] prints is left out. *)
Definition main (file : option pool_document) (a : args) (document : graph)
    : M (world * rng_state) Z :=
  let* found := lift_fs (path_exists (workflow a)) in
  if negb found then raise WorkflowNotFound else
  let* (positive_text, negative_text) := lift_gen (prompt_texts file a) in
  if dry_run a then ret 0 else
  let* data := lift_fs (patch_graph a positive_text negative_text document) in
  let output_path := default (workflow a) (output a) in
  let* _ := lift_fs (write_text output_path data) in
  ret 0.

End PatcherMain.

(** ** The command line of the sampler ([generate_case_prompt.py], [main]) *)

(** How the tool ends when it prints no prompt: one of the three
    [SystemExit] of [_parse_overrides], or an error of the functions above
    ([SystemExit] of [_load_pools], a [KeyError]). *)
Inductive exit : Type :=
  | InvalidOverride (pair : string)        (* SystemExit("Invalid override '...'. Use key=value syntax.") *)
  | UnknownSubcategory (key : string)      (* SystemExit("Unknown subcategory '...'. Valid keys: ...") *)
  | OverrideNotInteger (pair : string)     (* SystemExit("Override '...' must be an integer.") *)
  | Raised (e : error).

Inductive outcome (A : Type) : Type :=
  | Done (a : A)
  | Exit (e : exit).
Arguments Done {A} a.
Arguments Exit {A} e.

(** [pair.split("=", 1)] when ["=" in pair], and nothing otherwise. *)
Fixpoint split_equals (pair : string) : option (string * string) :=
  match pair with
  | EmptyString => None
  | String c rest =>
      if Ascii.eqb c "="%char then Some (EmptyString, rest)
      else match split_equals rest with
           | Some (key, raw) => Some (String c key, raw)
           | None => None
           end
  end.

(** The characters [s.strip()] takes off: those [str.isspace] holds for. *)
Definition is_space (c : ascii) : bool :=
  let n := nat_of_ascii c in
  (Nat.eqb n 32 || (Nat.leb 9 n && Nat.leb n 13) || (Nat.leb 28 n && Nat.leb n 31))%bool.

(** [s.strip()] *)
Definition strip (s : string) : string := lstrip_with is_space (rstrip_with is_space s).

(** The body of the loop of [_parse_overrides]: one [key=value] pair. *)
Definition parse_pair (valid : list string) (pair : string) : outcome (string * Z) :=
  match split_equals pair with
  | None => Exit (InvalidOverride pair)
  | Some (key, raw) =>
      let key := strip key in
      if decide (key ∈ valid) then
        match int raw with
        | Ok n => Done (key, Z.max 0 n)
        | Err _ => Exit (OverrideNotInteger pair)
        end
      else Exit (UnknownSubcategory key)
  end.

Fixpoint parse_pairs (valid : list string) (values : list string) (overrides : odict Z)
    : outcome (odict Z) :=
  match values with
  | [] => Done overrides
  | key_value :: rest =>
      match parse_pair valid key_value with
      | Exit e => Exit e
      | Done (key, n) => parse_pairs valid rest (od_set key n overrides)
      end
  end.

(** [_parse_overrides(values, subcategories)]; an absent [values] is the
    empty list. *)
Definition _parse_overrides (values : list string) (subcategories : list string)
    : outcome (odict Z) :=
  match values with
  | [] => Done []
  | _ => parse_pairs subcategories values []
  end.

(** Lines 313-320 of the sampler and 199-206 of the patcher: the blend modes,
    with the [--mature] shortcut. *)
Definition modes_with_mature (modes : list string) (mature : bool) : list string :=
  let modes :=
    if mature then
      let base_modes := match modes with [] => ["general"] | _ => modes end in
      if decide ("mature" ∈ base_modes) then base_modes else base_modes ++ ["mature"]
    else modes in
  match modes with
  | [] => ["general"]
  | _ => modes
  end.

(** The parsed command line of the sampler. *)
Record cli_args : Type := {
  cli_seed : option Z;
  cli_composition : list string;           (* absent is the empty list *)
  cli_action : list string;
  cli_subject : list string;
  cli_environment : list string;
  cli_flat : bool;
  cli_delimiter : string;
  cli_neg_groups : list string;
  cli_mode : list string;
  cli_mature : bool;
  cli_style_preset : option string;
  cli_list : bool
}.

(** [sorted(keys)] *)
Definition sorted (l : list string) : list string :=
  merge_sort (fun s1 s2 => Is_true (String.leb s1 s2)) l.

(** The loop of [--list] over the four sections: the lines printed, and the
    [KeyError] that stops it when the pools lack a section. *)
Fixpoint list_sections (p : pools) (names : list string) : list string * option error :=
  match names with
  | [] => ([], None)
  | section :: rest =>
      match subscript section (sections p) with
      | Err e => ([], Some e)
      | Ok section_pool =>
          let '(lines, stopped) := list_sections p rest in
          ((section +:+ ": " +:+ join ", " (sorted (keys section_pool))) :: lines, stopped)
      end
  end.

(** The listing of [--list]. *)
Definition list_lines (p : pools) : list string * option error :=
  match list_sections p ["composition"; "action"; "subject"; "environment"] with
  | (lines, Some e) => (lines, Some e)
  | (lines, None) =>
      (lines ++ ["negative optional groups: " +:+
                   join ", " (sorted (keys (negative_optional p)))], None)
  end.

(** The four calls of [_parse_overrides], each on the keys of its section. *)
Definition parse_section_overrides (p : pools) (values : list string) (section : string)
    : outcome (odict Z) :=
  match subscript section (sections p) with
  | Err e => Exit (Raised e)
  | Ok section_pool => _parse_overrides values (keys section_pool)
  end.

Section SamplerMain.
Context `{RandomSource}.

(** [main(argv)] of the sampler: the lines it prints, how it ends ([None]
    for the return of 0), and the generator afterwards. *)
Definition generate_main (file : option pool_document) (a : cli_args)
    (g : rng_state) : list string * option exit * rng_state :=
  let modes := modes_with_mature (cli_mode a) (cli_mature a) in
  match _load_pools file modes with
  | Err e => ([], Some (Raised e), g)
  | Ok p =>
      if cli_list a then
        let '(lines, stopped) := list_lines p in
        (lines, Raised <$> stopped, g)
      else
      match parse_section_overrides p (cli_composition a) "composition" with
      | Exit e => ([], Some e, g)
      | Done comp_overrides =>
      match parse_section_overrides p (cli_action a) "action" with
      | Exit e => ([], Some e, g)
      | Done act_overrides =>
      match parse_section_overrides p (cli_subject a) "subject" with
      | Exit e => ([], Some e, g)
      | Done sub_overrides =>
      match parse_section_overrides p (cli_environment a) "environment" with
      | Exit e => ([], Some e, g)
      | Done env_overrides =>
          match generate_prompt file (Some p) modes (cli_seed a)
                  comp_overrides act_overrides sub_overrides env_overrides
                  (cli_neg_groups a) (cli_style_preset a) 1 g with
          | (Err e, g') => ([], Some (Raised e), g')
          | (Ok prompt, g') =>
              let lines := as_lines prompt (cli_flat a) (cli_delimiter a) in
              (if cli_flat a then lines else "# CASE prompt" :: lines, None, g')
          end
      end end end end
  end.

End SamplerMain.
(** * Specification vocabulary *)

(** A dictionary grows: every key stays, and its value grows. *)
Definition od_le {V} (R : relation V) (d d' : odict V) : Prop :=
  ∀ k v, od_get k d = Some v → ∃ v', od_get k d' = Some v' ∧ R v v'.

(** The state of one section while its subcategories are merged, and the
      whole state, ordered by growth: keys stay and lists are extended at
      their end. *)
Definition section_le
      (st st' : odict (list token) * odict (odict (list token))) : Prop :=
    od_le prefix st.1 st'.1 ∧ od_le (od_le prefix) st.2 st'.2.

Definition state_le (st st' : merge_state) : Prop :=
    od_le (od_le prefix) st.1 st'.1 ∧ od_le (od_le (od_le prefix)) st.2 st'.2.

(** A subcategory entry of a mode is absorbed when merging it again would
      change nothing. *)
Definition key_absorbed mode
      (st : odict (list token) * odict (odict (list token)))
      (entry : string * list token) : Prop :=
    ∃ dl sm ml,
      od_get entry.1 st.1 = Some dl ∧ od_get entry.1 st.2 = Some sm ∧
      od_get mode sm = Some ml ∧ entry.2 ⊆ dl ∧ entry.2 ⊆ ml.

Definition section_absorbed mode (st : merge_state)
      (entry : string * odict (list token)) : Prop :=
    ∃ ds ss,
      od_get entry.1 st.1 = Some ds ∧ od_get entry.1 st.2 = Some ss ∧
      Forall (key_absorbed mode (ds, ss)) entry.2.

(** No list of the merged pool repeats a token. *)
Definition section_NoDup (d : odict (list token)) : Prop :=
    ∀ k l, od_get k d = Some l → NoDup l.

Definition pool_NoDup (combined : odict (odict (list token))) : Prop :=
    ∀ s d, od_get s combined = Some d → section_NoDup d.

(** The lines a call of [generate_prompt] followed by [as_lines] prints. *)
Definition rendered_lines (r : result CasePrompt) (flat : bool) (delimiter : string)
    : result (list string) :=
  match r with
  | Ok prompt => Ok (as_lines prompt flat delimiter)
  | Err e => Err e
  end.

(** A text of decimal digits. *)
Fixpoint all_digits (s : string) : bool :=
  match s with
  | EmptyString => true
  | String c rest => (is_digit c && all_digits rest)%bool
  end.

(** An id is reserved when the allocator's set holds its number. *)
Definition reserved (existing_ids : gset Z) (node_id : string) : Prop :=
  ∃ n, int node_id = Ok n ∧ n ∈ existing_ids.

(** The value of an input of a node, if the node and the input are there. *)
Definition input_of (data : graph) (node_id key : string) : option json :=
  match node_fields data node_id with
  | Ok fields =>
      match inputs_of fields with
      | Ok inputs => od_get key inputs
      | Err _ => None
      end
  | Err _ => None
  end.

(** The value of a field of a node record. *)
Definition field_of (data : graph) (node_id key : string) : option json :=
  match od_get node_id data with
  | Some (JDict fields) => od_get key fields
  | _ => None
  end.

(** The documents a run wrote, in order. *)
Definition doc_writes (w : world) : list (path * graph) :=
  omap (fun e => match e with
                 | WriteText p document => Some (p, document)
                 | _ => None
                 end) (events w).

(** What staging a reference image can do to the file system: make the
    input directory, and copy the image into it under its own name. *)
Definition stage_events (a : args) (home : path) (image : string) : list fs_event :=
  let source_image := expand home (Path image) in
  [Mkdir (input_root a);
   Copy source_image (joinpath (input_root a) (name source_image))].

(** What a run can do to the file system before it writes the document:
    the staging of the ControlNet image, then that of the IPAdapter image. *)
Definition staging (a : args) (home : path) : list fs_event :=
  (if add_controlnet a then stage_events a home (default "" (control_image a)) else []) ++
  (if add_ipadapter a then stage_events a home (default "" (ipadapter_image a)) else []).

(** From [w] to [w'] the working and the home directory stay, and the log
    grows by some of the events [l], in their order. *)
Definition changed_by (l : list fs_event) (w w' : world) : Prop :=
  cwd w' = cwd w ∧ home w' = home w ∧
  ∃ added, events w' = events w ++ added ∧ added `sublist_of` l.

(** The errors of the checks that come before any staging. *)
Definition before_staging (e : error) : Prop :=
  match e with
  | WorkflowNotFound | PoolFileNotFound | PoolModeNotFound _
  | UnknownPresetError _ | UnknownGroupError _ | RoleMismatchError _ => True
  | NodeNotFoundError class_type =>
      class_type = "LoraLoader" ∨ class_type = "CLIPSetLastLayer"
  | MissingArgumentError feature => feature = "--add-controlnet"
  | _ => False
  end.

(** The node [node_id] has the class and its inputs hold every entry of
    [updates]: updating it with [updates] changes nothing. *)
Definition settled (data : graph) (node_id class_type : string)
    (updates : list (string * json)) : Prop :=
  ∃ fields inputs,
    od_get node_id data = Some (JDict fields) ∧
    od_get "class_type" fields = Some (JStr class_type) ∧
    od_get "inputs" fields = Some (JDict inputs) ∧
    ∀ k v, (k, v) ∈ updates → od_get k inputs = Some v.

(** The search for the class ends at [node_id], which is settled. *)
Definition placed (data : graph) (class_type node_id : string)
    (updates : list (string * json)) : Prop :=
  find_node_id data class_type = Some node_id ∧ node_id ≠ "" ∧
  settled data node_id class_type updates.

(** What a step that only stores nodes of the listed classes leaves as it
    was: the searches for the other classes and the settled nodes of other
    classes. *)
Definition frame (classes : list string) (data data' : graph) : Prop :=
  (∀ c, c ∉ classes → find_node_id data' c = find_node_id data c) ∧
  (∀ node_id c updates, c ∉ classes →
     settled data node_id c updates → settled data' node_id c updates).

(** The inputs the LoRA override sets. *)
Definition lora_updates (a : args) : list (string * json) :=
  match lora_strength_model a with Some n => [("strength_model", JNum n)] | None => [] end ++
  match lora_strength_clip a with Some n => [("strength_clip", JNum n)] | None => [] end.

(** The LoRA override has nothing left to do on the graph. *)
Definition lora_done (a : args) (data : graph) : Prop :=
  (lora_strength_model a = None ∧ lora_strength_clip a = None) ∨
  ∃ node_id, placed data "LoraLoader" node_id (lora_updates a).

(** The same for the CLIP stop layer. *)
Definition clip_layer_done (a : args) (data : graph) : Prop :=
  match clip_layer a with
  | None => True
  | Some layer =>
      ∃ node_id, placed data "CLIPSetLastLayer" node_id
                   [("stop_at_clip_layer", JNum (NInt layer))]
  end.

(** A later state of the file system: the same working and home directory
    and the same directories, and every file that was there. *)
Definition later (w w' : world) : Prop :=
  cwd w' = cwd w ∧ home w' = home w ∧ directories w' = directories w ∧
  existing w ⊆ existing w'.

(** The largest number among the keys of a graph; 0 when it has no key, or
    a key that is no number. *)
Definition top_id (data : graph) : Z :=
  match int_keys (keys data) with
  | Ok existing_ids => default 0 (max_id existing_ids)
  | Err _ => 0
  end.

(** [count] ids, from the number [n] on. *)
Fixpoint ids_from (n : Z) (count : nat) : list string :=
  match count with
  | O => []
  | S count => str n :: ids_from (n + 1) count
  end.

(** How many of the classes have no node in the graph. *)
Definition missing (data : graph) (classes : list string) : nat :=
  sum_list_with (fun c => if not_str (find_node_id data c) then 1%nat else 0%nat) classes.

(** The graph [data] is [data0] with [count] nodes more, stored after the
    nodes of [data0] under the numbers that follow the largest of [data0]. *)
Definition allocated (data0 : graph) (count : nat) (data : graph) : Prop :=
  keys data = keys data0 ++ ids_from (top_id data0 + 1) count ∧
  NoDup (keys data) ∧
  top_id data = top_id data0 + Z.of_nat count.

(** ** Vocabulary of the further properties *)

(** The counts the pairs give to [key], in the order of the command line. *)
Definition counts_for (valid : list string) (key : string) (values : list string) : list Z :=
  omap (fun key_value =>
          match parse_pair valid key_value with
          | Done (k, n) => if String.eqb k key then Some n else None
          | Exit _ => None
          end) values.

(** The modes [_load_pools] merges: the requested ones, or the default. *)
Definition requested (modes : list string) : list string :=
  match modes with [] => ["general"] | _ => modes end.

(** The token stands in the merged candidate list of the subcategory. *)
Definition pool_token (combined : odict (odict (list token)))
    (section key : string) (item : token) : Prop :=
  ∃ d l, od_get section combined = Some d ∧ od_get key d = Some l ∧ item ∈ l.

(** The mode lists the token for the subcategory. *)
Definition mode_token (sets : odict (odict (odict (list token))))
    (mode section key : string) (item : token) : Prop :=
  ∃ additions section_values values,
    od_get mode sets = Some additions ∧ (section, section_values) ∈ additions ∧
    (key, values) ∈ section_values ∧ item ∈ values.

(** Every token of the merged lists satisfies [P]. *)
Definition within (P : string → string → token → Prop)
    (combined : odict (odict (list token))) : Prop :=
  ∀ section key item, pool_token combined section key item → P section key item.

(** The negative tokens a style preset contributes. *)
Definition preset_negatives (p : pools) (style_preset : option string) : list token :=
  match style_preset with
  | None | Some "" => []
  | Some name =>
      match od_get name (style_presets p) with
      | Some preset_data => get_or "negative" [] preset_data
      | None => []
      end
  end.


(** The command line of the sampler that asks for what the patcher asks
    for: the same seed, delimiter, groups, modes and preset, no override,
    and the flat layout. *)
Definition flat_cli (a : args) : cli_args := {|
  cli_seed := seed a;
  cli_composition := [];
  cli_action := [];
  cli_subject := [];
  cli_environment := [];
  cli_flat := true;
  cli_delimiter := delimiter a;
  cli_neg_groups := neg_groups a;
  cli_mode := mode a;
  cli_mature := mature a;
  cli_style_preset := style_preset a;
  cli_list := false
|}.

(** The graph [data'] extends [data]: the nodes of [data] keep their places
    and new nodes come after them, and every field of a node of [data]
    other than [inputs] keeps its value. *)
Definition extends (data data' : graph) : Prop :=
  keys data `prefix_of` keys data' ∧
  ∀ node_id key, node_id ∈ keys data → key ≠ "inputs" →
                 field_of data' node_id key = field_of data node_id key.

(** The block the IPAdapter branch runs for its loader and for its adapter
    node: the node found has its inputs assigned, and otherwise a node is
    made under the next id. *)
Definition replace_or_create (found : option string) (class_type : string)
    (inputs : list (string * json)) (existing_ids : gset Z) (data : graph)
    : result (string * gset Z * graph) :=
  if negb (not_str found) then
    match replace_inputs data (default "" found) inputs with
    | Err e => Err e
    | Ok data => Ok (default "" found, existing_ids, data)
    end
  else
    let '(node_id, existing_ids) := next_id existing_ids in
    Ok (node_id, existing_ids, od_set node_id (new_node class_type inputs) data).

(** The class of the loader the IPAdapter branch looks for, its inputs, and
    the inputs of the adapter node. *)
Definition loader_class (a : args) : string :=
  if ipadapter_community a then "IPAdapterUnifiedLoaderCommunity"
  else "IPAdapterUnifiedLoader".

Definition loader_inputs (a : args) (lora_id : string) : list (string * json) :=
  [("model", ref lora_id 0);
   ("preset", JStr (if String.eqb (loader_class a) "IPAdapterUnifiedLoaderCommunity"
                    then ipadapter_community_preset a else ipadapter_preset a))].

Definition advanced_inputs (a : args) (loader_id image_id : string)
    : list (string * json) :=
  [("model", ref loader_id 0);
   ("ipadapter", ref loader_id 1);
   ("image", ref image_id 0);
   ("weight", JNum (ipadapter_weight a));
   ("weight_type", JStr (ipadapter_weight_type a));
   ("combine_embeds", JStr (ipadapter_combine a));
   ("start_at", JNum (ipadapter_start a));
   ("end_at", JNum (ipadapter_end a));
   ("embeds_scaling", JStr (ipadapter_embeds a))].

(** The inputs of the conditioning node of the ControlNet branch. *)
Definition apply_inputs (a : args) (control_id image_id : string) : list (string * json) :=
  [("positive", ref (pos_node a) 0);
   ("negative", ref (neg_node a) 0);
   ("control_net", ref control_id 0);
   ("image", ref image_id 0);
   ("strength", JNum (control_strength a));
   ("start_percent", JNum (control_start a));
   ("end_percent", JNum (control_end a))].
(** A small congruential generator, used to run the sampler on examples. *)
#[program] Definition lcg : RandomSource := {|
  rng_state := Z;
  rng_seed := fun s => s mod 2147483648;
  randbelow := fun n g =>
    let g' := (1103515245 * g + 12345) mod 2147483648 in
    (Z.to_nat (g' mod Z.of_nat n), g')
|}.
Next Obligation.
  intros n g Hn. cbn.
  pose proof (Z.mod_pos_bound ((1103515245 * g + 12345) mod 2147483648) (Z.of_nat n)).
  lia.
Qed.


(** * Example data *)

(** A pool document with the default mode and two more modes that both
    contribute the token [x] to the same subcategory. *)
Definition ex_doc : pool_document := {|
  doc_sets :=
    [("general", [("composition", [("quality", ["a"; "b"; "c"])]);
                  ("action", []); ("subject", []); ("environment", [])]);
     ("m1", [("composition", [("quality", ["x"; "b"])])]);
     ("m2", [("composition", [("quality", ["x"])])])];
  doc_sections := [];
  doc_negative_base := ["blurry"];
  doc_negative_optional := [("hands", ["bad hands"])];
  doc_style_presets :=
    [("romantic", [("composition", ["soft light"; "a"]);
                   ("negative", ["blurry"; "harsh"])])]
|}.

(** A workflow with two text encoders, a LoRA loader, a sampler and an
    IPAdapter node that carries an input the patcher does not set. *)
Definition ex_graph : graph :=
  [("3", JDict [("class_type", JStr "KSampler");
                ("inputs", JDict [("model", ref "4" 0); ("positive", ref "6" 0);
                                  ("negative", ref "7" 0); ("steps", JNum (NInt 20))])]);
   ("4", JDict [("class_type", JStr "LoraLoader");
                ("inputs", JDict [("strength_model", JNum (NFloat 8 (-1)))])]);
   ("6", JDict [("class_type", JStr "CLIPTextEncode");
                ("inputs", JDict [("text", JStr ""); ("clip", ref "4" 1)])]);
   ("7", JDict [("class_type", JStr "CLIPTextEncode");
                ("inputs", JDict [("text", JStr ""); ("clip", ref "4" 1)])]);
   ("9", JDict [("class_type", JStr "CLIPVisionLoader");
                ("inputs", JDict [("clip_name", JStr "vit-h.safetensors")])]);
   ("10", JDict [("class_type", JStr "IPAdapterAdvanced");
                 ("inputs", JDict [("model", ref "4" 0);
                                   ("clip_vision", ref "9" 0);
                                   ("weight", JNum (NFloat 5 (-1)))])])].

Definition ex_args : args := {|
  workflow := ["/"; "comfy"; "workflows"; "case.json"];
  output := None;
  seed := Some 42;
  pos_node := "6";
  neg_node := "7";
  flat := false;
  delimiter := ", ";
  neg_groups := [];
  mode := [];
  mature := false;
  style_preset := None;
  add_ipadapter := false;
  ipadapter_preset := "PLUS (high strength)";
  ipadapter_image := None;
  ipadapter_weight := NFloat 85 (-2);
  ipadapter_weight_type := "style and composition";
  ipadapter_combine := "average";
  ipadapter_start := NFloat 0 0;
  ipadapter_end := NFloat 7 (-1);
  ipadapter_embeds := "K+mean(V) w/ C penalty";
  ipadapter_community := false;
  ipadapter_community_preset := "Composition";
  lora_strength_model := None;
  lora_strength_clip := None;
  clip_layer := None;
  add_controlnet := false;
  controlnet := None;
  control_image := None;
  control_strength := NFloat 9 (-1);
  control_start := NFloat 0 0;
  control_end := NFloat 1 0;
  dry_run := false
|}.

(** The same command line with a field changed. *)
Definition with_controlnet (a : args) (model image : option string) : args :=
  {| workflow := workflow a; output := output a; seed := seed a;
     pos_node := pos_node a; neg_node := neg_node a; flat := flat a;
     delimiter := delimiter a; neg_groups := neg_groups a; mode := mode a;
     mature := mature a; style_preset := style_preset a;
     add_ipadapter := add_ipadapter a; ipadapter_preset := ipadapter_preset a;
     ipadapter_image := ipadapter_image a; ipadapter_weight := ipadapter_weight a;
     ipadapter_weight_type := ipadapter_weight_type a;
     ipadapter_combine := ipadapter_combine a; ipadapter_start := ipadapter_start a;
     ipadapter_end := ipadapter_end a; ipadapter_embeds := ipadapter_embeds a;
     ipadapter_community := ipadapter_community a;
     ipadapter_community_preset := ipadapter_community_preset a;
     lora_strength_model := lora_strength_model a;
     lora_strength_clip := lora_strength_clip a; clip_layer := clip_layer a;
     add_controlnet := true; controlnet := model; control_image := image;
     control_strength := control_strength a; control_start := control_start a;
     control_end := control_end a; dry_run := dry_run a |}.

Definition with_ipadapter (a : args) (image : option string) : args :=
  {| workflow := workflow a; output := output a; seed := seed a;
     pos_node := pos_node a; neg_node := neg_node a; flat := flat a;
     delimiter := delimiter a; neg_groups := neg_groups a; mode := mode a;
     mature := mature a; style_preset := style_preset a;
     add_ipadapter := true; ipadapter_preset := ipadapter_preset a;
     ipadapter_image := image; ipadapter_weight := ipadapter_weight a;
     ipadapter_weight_type := ipadapter_weight_type a;
     ipadapter_combine := ipadapter_combine a; ipadapter_start := ipadapter_start a;
     ipadapter_end := ipadapter_end a; ipadapter_embeds := ipadapter_embeds a;
     ipadapter_community := ipadapter_community a;
     ipadapter_community_preset := ipadapter_community_preset a;
     lora_strength_model := lora_strength_model a;
     lora_strength_clip := lora_strength_clip a; clip_layer := clip_layer a;
     add_controlnet := add_controlnet a; controlnet := controlnet a;
     control_image := control_image a;
     control_strength := control_strength a; control_start := control_start a;
     control_end := control_end a; dry_run := dry_run a |}.

Definition with_dry_run (a : args) : args :=
  {| workflow := workflow a; output := output a; seed := seed a;
     pos_node := pos_node a; neg_node := neg_node a; flat := flat a;
     delimiter := delimiter a; neg_groups := neg_groups a; mode := mode a;
     mature := mature a; style_preset := style_preset a;
     add_ipadapter := add_ipadapter a; ipadapter_preset := ipadapter_preset a;
     ipadapter_image := ipadapter_image a; ipadapter_weight := ipadapter_weight a;
     ipadapter_weight_type := ipadapter_weight_type a;
     ipadapter_combine := ipadapter_combine a; ipadapter_start := ipadapter_start a;
     ipadapter_end := ipadapter_end a; ipadapter_embeds := ipadapter_embeds a;
     ipadapter_community := ipadapter_community a;
     ipadapter_community_preset := ipadapter_community_preset a;
     lora_strength_model := lora_strength_model a;
     lora_strength_clip := lora_strength_clip a; clip_layer := clip_layer a;
     add_controlnet := add_controlnet a; controlnet := controlnet a;
     control_image := control_image a;
     control_strength := control_strength a; control_start := control_start a;
     control_end := control_end a; dry_run := true |}.

(** A file system holding the workflow and one reference image. *)
Definition ex_world : world :=
  {| cwd := ["/"; "comfy"];
     home := ["/"; "home"; "user"];
     existing := [["/"; "comfy"]; ["/"; "comfy"; "workflows"];
                  ["/"; "comfy"; "workflows"; "case.json"];
                  ["/"; "tmp"]; ["/"; "tmp"; "pose.png"]];
     directories := [["/"; "comfy"]; ["/"; "comfy"; "workflows"]; ["/"; "tmp"]];
     events := [] |}.

(** The pools of [ex_doc] for the default mode, and the prompts the sampler
    makes of them with the generator [lcg] seeded with 1, without and with
    the preset [romantic]. *)
Definition ex_pools : pools :=
  Eval vm_compute in
    match _load_pools (Some ex_doc) ["general"] with
    | Ok p => p
    | Err _ => {| sections := []; negative_base := []; negative_optional := [];
                  style_presets := []; _sources := [] |}
    end.

Definition ex_prompt : CasePrompt :=
  Eval vm_compute in
    match (@generate_prompt lcg (Some ex_doc) None ["general"] (Some 1) [] [] [] []
             ["hands"] None 1 0).1 with
    | Ok prompt => prompt
    | Err _ => {| composition := []; action := []; subject := []; environment := [];
                  negatives := [] |}
    end.

Definition ex_prompt_romantic : CasePrompt :=
  Eval vm_compute in
    match (@generate_prompt lcg (Some ex_doc) None ["general"] (Some 1) [] [] [] []
             ["hands"] (Some "romantic") 1 0).1 with
    | Ok prompt => prompt
    | Err _ => {| composition := []; action := []; subject := []; environment := [];
                  negatives := [] |}
    end.

(** The example workflow patched with a ControlNet, and the file system
    after the run. *)
Definition ex_controlnet_args : args :=
  with_controlnet ex_args (Some "cn.safetensors") (Some "/tmp/pose.png").

Definition ex_patched : graph :=
  Eval vm_compute in
    match (patch_graph ex_controlnet_args "P" "N" ex_graph ex_world).1 with
    | Ok data => data
    | Err _ => []
    end.

Definition ex_staged : world :=
  Eval vm_compute in (patch_graph ex_controlnet_args "P" "N" ex_graph ex_world).2.

(** The example workflow after the ControlNet branch alone, and after the
    IPAdapter branch alone. *)
Definition ex_wired : graph :=
  Eval vm_compute in
    match (insert_controlnet ex_controlnet_args ex_graph ex_world).1 with
    | Ok data => data
    | Err _ => []
    end.

Definition ex_ipadapter_args : args := with_ipadapter ex_args (Some "/tmp/pose.png").

Definition ex_adapted : graph :=
  Eval vm_compute in
    match (insert_ipadapter ex_ipadapter_args ex_graph ex_world).1 with
    | Ok data => data
    | Err _ => []
    end.

(** The example workflow without its sampler: the insertions fail at their
    last step. *)
Definition ex_graph_no_sampler : graph := tail ex_graph.

(** A workflow document that lies in the input directory, and a reference
    image of the same name elsewhere. *)
Definition ex_overwrite_args : args :=
  {| workflow := ["/"; "comfy"; "input"; "case.json"];
     output := None; seed := Some 42; pos_node := "6"; neg_node := "7";
     flat := false; delimiter := ", "; neg_groups := []; mode := [];
     mature := false; style_preset := None;
     add_ipadapter := false; ipadapter_preset := "PLUS (high strength)";
     ipadapter_image := None; ipadapter_weight := NFloat 85 (-2);
     ipadapter_weight_type := "style and composition";
     ipadapter_combine := "average"; ipadapter_start := NFloat 0 0;
     ipadapter_end := NFloat 7 (-1); ipadapter_embeds := "K+mean(V) w/ C penalty";
     ipadapter_community := false; ipadapter_community_preset := "Composition";
     lora_strength_model := None; lora_strength_clip := None; clip_layer := None;
     add_controlnet := true; controlnet := Some "cn.safetensors";
     control_image := Some "/tmp/case.json";
     control_strength := NFloat 9 (-1); control_start := NFloat 0 0;
     control_end := NFloat 1 0; dry_run := false |}.

Definition ex_overwrite_world : world :=
  {| cwd := ["/"; "comfy"];
     home := ["/"; "home"; "user"];
     existing := [["/"; "comfy"]; ["/"; "comfy"; "input"];
                  ["/"; "comfy"; "input"; "case.json"];
                  ["/"; "tmp"]; ["/"; "tmp"; "case.json"]];
     directories := [["/"; "comfy"]; ["/"; "comfy"; "input"]; ["/"; "tmp"]];
     events := [] |}.

(** The texts of the example run and the graph it writes. *)
Definition ex_texts : string * string :=
  Eval vm_compute in
    match (@prompt_texts lcg (Some ex_doc) ex_controlnet_args 0).1 with
    | Ok texts => texts
    | Err _ => ("", "")
    end.

Definition ex_written : graph :=
  Eval vm_compute in
    match (patch_graph ex_controlnet_args ex_texts.1 ex_texts.2 ex_graph ex_world).1 with
    | Ok data => data
    | Err _ => []
    end.

(** A workflow with the node ids 1 and 3, and a command line that asks for
    both insertions. *)
Definition ex_ids_graph : graph :=
  [("1", JDict [("class_type", JStr "KSampler"); ("inputs", JDict [])]);
   ("3", JDict [("class_type", JStr "LoadImage");
                ("inputs", JDict [("image", JStr "old.png")])])].

Definition ex_both_args : args := with_ipadapter ex_controlnet_args (Some "/tmp/pose.png").

(** A command line that sets both LoRA strengths, and the example workflow
    after that override. *)
Definition ex_lora_args : args :=
  {| workflow := workflow ex_args; output := output ex_args; seed := seed ex_args;
     pos_node := pos_node ex_args; neg_node := neg_node ex_args; flat := flat ex_args;
     delimiter := delimiter ex_args; neg_groups := neg_groups ex_args;
     mode := mode ex_args; mature := mature ex_args;
     style_preset := style_preset ex_args;
     add_ipadapter := false; ipadapter_preset := ipadapter_preset ex_args;
     ipadapter_image := None; ipadapter_weight := ipadapter_weight ex_args;
     ipadapter_weight_type := ipadapter_weight_type ex_args;
     ipadapter_combine := ipadapter_combine ex_args;
     ipadapter_start := ipadapter_start ex_args;
     ipadapter_end := ipadapter_end ex_args; ipadapter_embeds := ipadapter_embeds ex_args;
     ipadapter_community := false;
     ipadapter_community_preset := ipadapter_community_preset ex_args;
     lora_strength_model := Some (NFloat 6 (-1));
     lora_strength_clip := Some (NFloat 4 (-1)); clip_layer := None;
     add_controlnet := false; controlnet := None; control_image := None;
     control_strength := control_strength ex_args;
     control_start := control_start ex_args;
     control_end := control_end ex_args; dry_run := false |}.

Definition ex_lora_graph : graph :=
  Eval vm_compute in
    match override_lora ex_lora_args ex_graph with
    | Ok data => data
    | Err _ => []
    end.
(** * Properties *)

(** ** Ordered dictionaries *)

Section OrderedDictFacts.
Context {V : Type}.
Implicit Types (d : odict V) (k : string) (v : V).

Lemma od_get_set_eq k v d : od_get k (od_set k v d) = Some v.
  Proof.
    induction d as [|[k' v'] d IH]; simpl.
    - by rewrite String.eqb_refl.
    - destruct (String.eqb_spec k' k) as [->|Hne]; simpl.
      + by rewrite String.eqb_refl.
      + destruct (String.eqb_spec k' k); [done | apply IH].
  Qed.

Lemma od_get_set_ne k k' v d : k ≠ k' → od_get k' (od_set k v d) = od_get k' d.
  Proof.
    intros Hne. induction d as [|[k0 v0] d IH]; simpl.
    - destruct (String.eqb_spec k k'); [done | done].
    - destruct (String.eqb_spec k0 k) as [->|Hk]; simpl.
      + destruct (String.eqb_spec k k'); [done | done].
      + by rewrite IH.
  Qed.

Lemma od_get_set k k' v d :
    od_get k' (od_set k v d) = if String.eqb k k' then Some v else od_get k' d.
  Proof.
    destruct (String.eqb_spec k k') as [->|Hne].
    - apply od_get_set_eq.
    - by apply od_get_set_ne.
  Qed.

Lemma od_set_same k v d : od_get k d = Some v → od_set k v d = d.
  Proof.
    induction d as [|[k' v'] d IH]; simpl; [done |].
    destruct (String.eqb_spec k' k) as [->|Hne].
    - by intros [= ->].
    - intros Hget. by rewrite IH.
  Qed.

Lemma od_set_set k v v' d : od_set k v (od_set k v' d) = od_set k v d.
  Proof.
    induction d as [|[k0 v0] d IH]; simpl.
    - by rewrite String.eqb_refl.
    - destruct (String.eqb_spec k0 k) as [->|Hne]; simpl.
      + by rewrite String.eqb_refl.
      + destruct (String.eqb_spec k0 k); [done | by rewrite IH].
  Qed.

Lemma od_get_None k d : od_get k d = None ↔ k ∉ keys d.
  Proof.
    unfold keys. induction d as [|[k' v'] d IH]; csimpl.
    - split; [intros _; apply not_elem_of_nil | done].
    - rewrite not_elem_of_cons. destruct (String.eqb_spec k' k) as [->|Hne].
      + split; [done | by intros [? _]].
      + rewrite IH. split; [by intros ?; split; [congruence |] | by intros [_ ?]].
  Qed.

Lemma od_get_is_Some k d : is_Some (od_get k d) ↔ k ∈ keys d.
  Proof.
    destruct (od_get k d) eqn:Hget.
    - split; [intros _ | by eauto].
      destruct (decide (k ∈ keys d)) as [|Hn]; [done |].
      apply od_get_None in Hn. congruence.
    - split; [by intros [? ?] |]. intros Hin. by apply od_get_None in Hget.
  Qed.

Lemma od_get_Some_elem k v d : od_get k d = Some v → (k, v) ∈ d.
  Proof.
    induction d as [|[k' v'] d IH]; simpl; [done |].
    destruct (String.eqb_spec k' k) as [->|Hne].
    - intros [= ->]. apply elem_of_cons; by left.
    - intros Hget. apply elem_of_cons; right. by apply IH.
  Qed.

Lemma od_elem_get k v d : NoDup (keys d) → (k, v) ∈ d → od_get k d = Some v.
  Proof.
    unfold keys. induction d as [|[k' v'] d IH]; csimpl.
    - intros _ Hin. by apply elem_of_nil in Hin.
    - rewrite NoDup_cons. intros [Hk' Hnd] Hin.
      apply elem_of_cons in Hin as [[= -> ->]|Hin].
      + by rewrite String.eqb_refl.
      + destruct (String.eqb_spec k' k) as [->|Hne]; [|by apply IH].
        exfalso. apply Hk'. apply list_elem_of_fmap. by exists (k, v).
  Qed.

  (** Assignment keeps the keys in place and puts a new key last. *)
Lemma keys_od_set k v d :
    keys (od_set k v d) = if od_mem k d then keys d else keys d ++ [k].
  Proof.
    unfold od_mem, keys. induction d as [|[k' v'] d IH]; csimpl; [done |].
    destruct (String.eqb_spec k' k) as [->|Hne]; csimpl; [done |].
    rewrite IH. by destruct (od_get k d).
  Qed.

Lemma keys_od_set_present k v d : k ∈ keys d → keys (od_set k v d) = keys d.
  Proof.
    intros Hin. rewrite keys_od_set. unfold od_mem.
    apply od_get_is_Some in Hin as [? ->]. done.
  Qed.

Lemma keys_od_set_fresh k v d : k ∉ keys d → od_set k v d = d ++ [(k, v)].
  Proof.
    unfold keys. induction d as [|[k' v'] d IH]; csimpl; [done |].
    rewrite not_elem_of_cons. intros [Hne Hnin].
    destruct (String.eqb_spec k' k) as [->|_]; [done |]. by rewrite IH.
  Qed.

Lemma NoDup_keys_od_set k v d : NoDup (keys d) → NoDup (keys (od_set k v d)).
  Proof.
    intros Hnd. rewrite keys_od_set. unfold od_mem.
    destruct (od_get k d) eqn:Hget; [done |].
    apply od_get_None in Hget.
    apply NoDup_app. split_and!; [done | | apply NoDup_singleton].
    intros x Hx Hx'. apply list_elem_of_singleton in Hx' as ->. done.
  Qed.

End OrderedDictFacts.


#[local] Instance od_le_refl {V} (R : relation V) `{!Reflexive R} : Reflexive (od_le R).
Proof. intros d k v Hget. by exists v. Qed.

#[local] Instance od_le_trans {V} (R : relation V) `{!Transitive R} : Transitive (od_le R).
Proof.
  intros d1 d2 d3 H12 H23 k v Hget.
  destruct (H12 _ _ Hget) as (v2 & Hget2 & HR2).
  destruct (H23 _ _ Hget2) as (v3 & Hget3 & HR3).
  exists v3. split; [done | by etrans].
Qed.

Lemma od_le_set {V} (R : relation V) `{!Reflexive R} k v' (d : odict V) :
  (∀ v, od_get k d = Some v → R v v') → od_le R d (od_set k v' d).
Proof.
  intros Hk k0 v0 Hget. destruct (decide (k = k0)) as [->|Hne].
  - exists v'. rewrite od_get_set_eq. split; [done | by apply Hk].
  - exists v0. by rewrite od_get_set_ne.
Qed.

(** ** Appending what is not there yet *)

Lemma filter_ext_elem {A} (P Q : A → Prop) `{!∀ x, Decision (P x), !∀ x, Decision (Q x)}
    (l : list A) :
  (∀ x, x ∈ l → P x ↔ Q x) → filter P l = filter Q l.
Proof.
  induction l as [|a l IH]; intros Hext; [done |].
  rewrite !filter_cons.
  rewrite IH by (intros x Hx; apply Hext, elem_of_cons; by right).
  pose proof (Hext a (list_elem_of_here a l)) as Ha.
  destruct (decide (P a)), (decide (Q a)); naive_solver.
Qed.

Lemma extend_unique_prefix target additions :
  target `prefix_of` extend_unique target additions.
Proof.
  revert target. induction additions as [|item rest IH]; intros target; simpl; [done |].
  case_decide; [apply IH |].
  etrans; [|apply IH]. by apply prefix_app_r.
Qed.

Lemma extend_unique_NoDup target additions :
  NoDup target → NoDup (extend_unique target additions).
Proof.
  revert target. induction additions as [|item rest IH]; intros target Hnd; simpl; [done |].
  apply IH. case_decide; [done |].
  apply NoDup_app. split_and!; [done | | apply NoDup_singleton].
  intros x Hx Hx'. apply list_elem_of_singleton in Hx' as ->. done.
Qed.

Lemma extend_unique_elem x target additions :
  x ∈ extend_unique target additions ↔ x ∈ target ∨ x ∈ additions.
Proof.
  revert target. induction additions as [|item rest IH]; intros target; simpl.
  - split; [by left | intros [?|Hin]; [done | by apply elem_of_nil in Hin]].
  - rewrite IH, elem_of_cons. case_decide.
    + split; [naive_solver | intros [?|[->|?]]; auto].
    + rewrite elem_of_app, list_elem_of_singleton. naive_solver.
Qed.

Lemma extend_unique_absorbed target additions :
  additions ⊆ target → extend_unique target additions = target.
Proof.
  revert target. induction additions as [|item rest IH]; intros target Hsub; simpl; [done |].
  rewrite decide_True by (apply Hsub, elem_of_cons; by left).
  apply IH. intros x Hx. apply Hsub, elem_of_cons. by right.
Qed.

(** With no repeated addition, what is appended is the additions the target
    lacks, in their order. *)
Lemma extend_unique_filter target additions :
  NoDup additions →
  extend_unique target additions = target ++ filter (fun item => item ∉ target) additions.
Proof.
  revert target. induction additions as [|item rest IH]; intros target Hnd; simpl.
  - by rewrite app_nil_r.
  - apply NoDup_cons in Hnd as [Hitem Hnd]. rewrite IH by done.
    case_decide as Hin.
    + rewrite filter_cons_False by (intros Hn; by apply Hn). done.
    + rewrite filter_cons_True by done. rewrite <- app_assoc. simpl. do 2 f_equal.
      apply filter_ext_elem. intros x Hx.
      rewrite not_elem_of_app, list_elem_of_singleton.
      split; [naive_solver |]. intros Hn. split; [done |]. by intros ->.
Qed.

(** ** Merging blend modes *)

Section Merge.
Implicit Types (mode : string) (values dl ml : list token).

  
#[local] Instance section_le_refl : Reflexive section_le.
  Proof. intros st. split; reflexivity. Qed.
#[local] Instance section_le_trans : Transitive section_le.
  Proof. intros a b c [? ?] [? ?]. split; etrans; done. Qed.
#[local] Instance state_le_refl : Reflexive state_le.
  Proof. intros st. split; reflexivity. Qed.
#[local] Instance state_le_trans : Transitive state_le.
  Proof. intros a b c [? ?] [? ?]. split; etrans; done. Qed.

  
Lemma prefix_subseteq (l l' : list token) : l `prefix_of` l' → l ⊆ l'.
  Proof. intros [k ->] x Hx. apply elem_of_app. by left. Qed.

Lemma extend_unique_additions target additions :
    additions ⊆ extend_unique target additions.
  Proof. intros x Hx. apply extend_unique_elem. by right. Qed.

Lemma merge_key_le mode st entry : section_le st (merge_key mode st entry).
  Proof.
    destruct st as [ds ss], entry as [key values]. unfold merge_key, get_or.
    split; simpl; (apply od_le_set; [apply _ |]).
    - intros dl ->. apply extend_unique_prefix.
    - intros sm ->. simpl. apply od_le_set; [apply _ |].
      intros ml ->. apply extend_unique_prefix.
  Qed.

Lemma fold_merge_key_le mode additions st :
    section_le st (fold_left (merge_key mode) additions st).
  Proof.
    revert st. induction additions as [|entry rest IH]; intros st; simpl; [done |].
    etrans; [apply merge_key_le | apply IH].
  Qed.

Lemma key_absorbed_id mode st entry :
    key_absorbed mode st entry → merge_key mode st entry = st.
  Proof.
    destruct st as [ds ss], entry as [key values].
    intros (dl & sm & ml & Hdl & Hsm & Hml & Hsub1 & Hsub2); simpl in *.
    unfold merge_key, get_or. rewrite Hdl, Hsm. simpl. rewrite Hml. simpl.
    rewrite !extend_unique_absorbed by done.
    rewrite (od_set_same mode ml sm) by done.
    by rewrite !od_set_same.
  Qed.

Lemma key_absorbed_mono mode st st' entry :
    section_le st st' → key_absorbed mode st entry → key_absorbed mode st' entry.
  Proof.
    intros [Hle1 Hle2] (dl & sm & ml & Hdl & Hsm & Hml & Hsub1 & Hsub2).
    destruct (Hle1 _ _ Hdl) as (dl' & Hdl' & Hpre1).
    destruct (Hle2 _ _ Hsm) as (sm' & Hsm' & Hle3).
    destruct (Hle3 _ _ Hml) as (ml' & Hml' & Hpre2).
    exists dl', sm', ml'. split_and!; try done.
    - intros x Hx. by apply (prefix_subseteq _ _ Hpre1), Hsub1.
    - intros x Hx. by apply (prefix_subseteq _ _ Hpre2), Hsub2.
  Qed.

Lemma merge_key_absorbs mode st entry :
    key_absorbed mode (merge_key mode st entry) entry.
  Proof.
    destruct st as [ds ss], entry as [key values]. unfold merge_key.
    exists (extend_unique (get_or key [] ds) values),
      (od_set mode (extend_unique (get_or mode [] (get_or key [] ss)) values)
         (get_or key [] ss)),
      (extend_unique (get_or mode [] (get_or key [] ss)) values).
    simpl. rewrite !od_get_set_eq.
    split_and!; try done; apply extend_unique_additions.
  Qed.

Lemma fold_merge_key_absorbs mode additions st :
    Forall (key_absorbed mode (fold_left (merge_key mode) additions st)) additions.
  Proof.
    revert st. induction additions as [|entry rest IH]; intros st; simpl; [done |].
    constructor; [|apply IH].
    eapply key_absorbed_mono; [apply fold_merge_key_le | apply merge_key_absorbs].
  Qed.

Lemma fold_merge_key_id mode additions st :
    Forall (key_absorbed mode st) additions →
    fold_left (merge_key mode) additions st = st.
  Proof.
    induction 1 as [|entry rest Hentry _ IH]; simpl; [done |].
    by rewrite key_absorbed_id.
  Qed.

Lemma merge_section_le name additions mode st :
    state_le st (merge_section name additions mode st).
  Proof.
    destruct st as [combined sources]. unfold merge_section.
    pose proof (fold_merge_key_le mode additions
                  (get_or name [] combined, get_or name [] sources)) as [Hle1 Hle2].
    destruct (fold_left _ _ _) as [ds' ss']. simpl in *.
    unfold get_or in *.
    split; simpl; (apply od_le_set; [apply _ |]).
    - intros ds Hds. by rewrite Hds in Hle1.
    - intros ss Hss. by rewrite Hss in Hle2.
  Qed.

Lemma section_absorbed_id mode st entry :
    section_absorbed mode st entry →
    merge_section entry.1 entry.2 mode st = st.
  Proof.
    destruct st as [combined sources], entry as [name additions].
    intros (ds & ss & Hds & Hss & Habs); simpl in *.
    unfold merge_section, get_or. rewrite Hds, Hss. simpl.
    rewrite fold_merge_key_id by done.
    by rewrite !od_set_same.
  Qed.

Lemma section_absorbed_mono mode st st' entry :
    state_le st st' → section_absorbed mode st entry → section_absorbed mode st' entry.
  Proof.
    intros [Hle1 Hle2] (ds & ss & Hds & Hss & Habs).
    destruct (Hle1 _ _ Hds) as (ds' & Hds' & Hd).
    destruct (Hle2 _ _ Hss) as (ss' & Hss' & Hs).
    exists ds', ss'. split_and!; try done.
    eapply Forall_impl; [done |]. intros e He.
    by apply (key_absorbed_mono mode (ds, ss)).
  Qed.

Lemma merge_section_absorbs name additions mode st :
    section_absorbed mode (merge_section name additions mode st) (name, additions).
  Proof.
    destruct st as [combined sources]. unfold merge_section.
    pose proof (fold_merge_key_absorbs mode additions
                  (get_or name [] combined, get_or name [] sources)) as Habs.
    destruct (fold_left _ _ _) as [ds' ss'].
    exists ds', ss'. simpl. by rewrite !od_get_set_eq.
  Qed.

Lemma merge_mode_le mode additions st : state_le st (merge_mode mode additions st).
  Proof.
    unfold merge_mode. revert st.
    induction additions as [|[name values] rest IH]; intros st; simpl; [done |].
    etrans; [apply merge_section_le | apply IH].
  Qed.

Lemma merge_mode_absorbs mode additions st :
    Forall (section_absorbed mode (merge_mode mode additions st)) additions.
  Proof.
    unfold merge_mode. revert st.
    induction additions as [|[name values] rest IH]; intros st; simpl; [done |].
    constructor; [|apply IH].
    eapply section_absorbed_mono; [apply merge_mode_le | apply merge_section_absorbs].
  Qed.

Lemma merge_mode_id mode additions st :
    Forall (section_absorbed mode st) additions → merge_mode mode additions st = st.
  Proof.
    unfold merge_mode.
    induction 1 as [|[name values] rest Hentry _ IH]; simpl; [done |].
    pose proof (section_absorbed_id mode st (name, values) Hentry) as Hid.
    simpl in Hid. by rewrite Hid.
  Qed.

Lemma merge_modes_app sets modes modes' st :
    merge_modes sets (modes ++ modes') st =
    match merge_modes sets modes st with
    | Ok st' => merge_modes sets modes' st'
    | Err e => Err e
    end.
  Proof.
    revert st. induction modes as [|mode rest IH]; intros st; simpl; [done |].
    destruct (od_get mode sets); [apply IH | done].
  Qed.

Lemma merge_modes_le sets modes st st' :
    merge_modes sets modes st = Ok st' → state_le st st'.
  Proof.
    revert st. induction modes as [|mode rest IH]; intros st; simpl.
    - by intros [= ->].
    - destruct (od_get mode sets) as [additions|]; [|done].
      intros Hrest. etrans; [apply merge_mode_le | by apply IH].
  Qed.

  (** Once a mode has been merged, merging it again later is the identity. *)
Lemma merge_modes_absorbed sets mode additions modes1 modes2 st :
    od_get mode sets = Some additions →
    Forall (section_absorbed mode st) additions →
    merge_modes sets (modes1 ++ mode :: modes2) st = merge_modes sets (modes1 ++ modes2) st.
  Proof.
    intros Hmode. revert st.
    induction modes1 as [|mode1 rest IH]; intros st Habs; simpl.
    - by rewrite Hmode, merge_mode_id.
    - destruct (od_get mode1 sets) as [additions1|]; [|done].
      apply IH. eapply Forall_impl; [done |]. intros e He.
      eapply section_absorbed_mono; [apply merge_mode_le | done].
  Qed.

Lemma merge_modes_repeat sets mode modes1 modes2 st :
    mode ∈ modes1 →
    merge_modes sets (modes1 ++ mode :: modes2) st = merge_modes sets (modes1 ++ modes2) st.
  Proof.
    revert st. induction modes1 as [|mode1 rest IH]; intros st Hin.
    - by apply elem_of_nil in Hin.
    - simpl. destruct (od_get mode1 sets) as [additions1|] eqn:Hget; [|done].
      destruct (decide (mode = mode1)) as [->|Hne].
      + eapply merge_modes_absorbed; [done | apply merge_mode_absorbs].
      + apply IH. apply elem_of_cons in Hin as [?|?]; done.
  Qed.

  
Lemma merge_key_NoDup mode st entry :
    section_NoDup st.1 → section_NoDup (merge_key mode st entry).1.
  Proof.
    destruct st as [ds ss], entry as [key values]. simpl. intros Hnd k l.
    rewrite od_get_set. destruct (String.eqb_spec key k) as [->|Hne]; [|apply Hnd].
    intros [= <-]. apply extend_unique_NoDup. unfold get_or.
    destruct (od_get k ds) as [dl|] eqn:Hdl; simpl; [by eapply Hnd | apply NoDup_nil_2].
  Qed.

Lemma fold_merge_key_NoDup mode additions st :
    section_NoDup st.1 → section_NoDup (fold_left (merge_key mode) additions st).1.
  Proof.
    revert st. induction additions as [|entry rest IH]; intros st Hnd; simpl; [done |].
    by apply IH, merge_key_NoDup.
  Qed.

Lemma merge_section_NoDup name additions mode st :
    pool_NoDup st.1 → pool_NoDup (merge_section name additions mode st).1.
  Proof.
    destruct st as [combined sources]. simpl. intros Hnd. unfold merge_section.
    pose proof (fold_merge_key_NoDup mode additions
                  (get_or name [] combined, get_or name [] sources)) as Hfold.
    destruct (fold_left _ _ _) as [ds' ss']. simpl in *. intros s d.
    rewrite od_get_set. destruct (String.eqb_spec name s) as [->|Hne]; [|apply Hnd].
    intros [= <-]. apply Hfold. unfold get_or.
    destruct (od_get s combined) as [ds|] eqn:Hds; simpl; [by eapply Hnd | done].
  Qed.

Lemma merge_mode_NoDup mode additions st :
    pool_NoDup st.1 → pool_NoDup (merge_mode mode additions st).1.
  Proof.
    unfold merge_mode. revert st.
    induction additions as [|[name values] rest IH]; intros st Hnd; simpl; [done |].
    by apply IH, merge_section_NoDup.
  Qed.

Lemma merge_modes_NoDup sets modes st st' :
    merge_modes sets modes st = Ok st' → pool_NoDup st.1 → pool_NoDup st'.1.
  Proof.
    revert st. induction modes as [|mode rest IH]; intros st; simpl.
    - by intros [= ->].
    - destruct (od_get mode sets) as [additions|]; [|done].
      intros Hrest Hnd. eapply IH; [done |]. by apply merge_mode_NoDup.
  Qed.

End Merge.

(** C7. Pool merging is order-stable and duplicate-free, and listing a mode
    again changes nothing.  First part: whatever list a (section,
    subcategory) pair holds after the modes merged so far is kept as the
    beginning of the list it holds after any further modes, what is appended
    holds no token of it, and the list repeats no token.  Second part:
    [_load_pools] returns the same merged pool (candidate lists and
    provenance table alike) when a mode that was already listed is listed once
    more, anywhere later in the sequence. *)
Theorem merge_order_stable_idempotent :
  (∀ sets modes later st st',
     merge_modes sets modes ([], []) = Ok st →
     merge_modes sets (modes ++ later) ([], []) = Ok st' →
     ∀ section d key l,
       od_get section st.1 = Some d → od_get key d = Some l →
       ∃ d' new, od_get section st'.1 = Some d' ∧ od_get key d' = Some (l ++ new) ∧
                 NoDup (l ++ new))
  ∧ (∀ file mode modes1 modes2,
       mode ∈ modes1 →
       _load_pools file (modes1 ++ mode :: modes2) = _load_pools file (modes1 ++ modes2)).
Proof.
  split.
  - intros sets modes later st st' Hst Hst' section d key l Hd Hl.
    rewrite merge_modes_app, Hst in Hst'.
    destruct (merge_modes_le _ _ _ _ Hst') as [Hle _].
    destruct (Hle _ _ Hd) as (d' & Hd' & Hdd').
    destruct (Hdd' _ _ Hl) as (l' & Hl' & [new ->]).
    exists d', new. split_and!; [done | done |].
    assert (pool_NoDup st'.1) as Hnd.
    { eapply merge_modes_NoDup; [exact Hst' |].
      eapply merge_modes_NoDup; [exact Hst |]. intros s0 d0 Hs0. done. }
    by eapply Hnd.
  - intros file mode modes1 modes2 Hin. unfold _load_pools.
    destruct file as [data|]; [|done].
    destruct (doc_sets data) as [|s0 sets] eqn:Hsets; [done |].
    destruct modes1 as [|mode1 rest]; [by apply elem_of_nil in Hin |].
    change (match (mode1 :: rest) ++ mode :: modes2 with
            | [] => ["general"] | _ => (mode1 :: rest) ++ mode :: modes2 end)
      with ((mode1 :: rest) ++ mode :: modes2).
    change (match (mode1 :: rest) ++ modes2 with
            | [] => ["general"] | _ => (mode1 :: rest) ++ modes2 end)
      with ((mode1 :: rest) ++ modes2).
    by rewrite merge_modes_repeat.
Qed.

Lemma merge_order_stable_idempotent_witness :
  (∃ d' new,
      od_get "composition"
        (merge_mode "m2" [("composition", [("quality", ["x"])])]
           (merge_mode "m1" [("composition", [("quality", ["x"; "b"])])]
              (merge_mode "general" [("composition", [("quality", ["a"; "b"; "c"])])]
                 ([], [])))).1 = Some d' ∧
      od_get "quality" d' = Some (["a"; "b"; "c"] ++ new) ∧
      NoDup (["a"; "b"; "c"] ++ new))
  ∧ _load_pools (Some ex_doc) (["general"; "m1"] ++ "general" :: ["m2"]) =
    _load_pools (Some ex_doc) (["general"; "m1"] ++ ["m2"]).
Proof.
  split.
  - apply (proj1 merge_order_stable_idempotent
             [("general", [("composition", [("quality", ["a"; "b"; "c"])])]);
              ("m1", [("composition", [("quality", ["x"; "b"])])]);
              ("m2", [("composition", [("quality", ["x"])])])]
             ["general"] ["m1"; "m2"]
             (merge_mode "general" [("composition", [("quality", ["a"; "b"; "c"])])]
                ([], []))
             _ eq_refl eq_refl "composition" [("quality", ["a"; "b"; "c"])] "quality"
             ["a"; "b"; "c"]); reflexivity.
  - apply (proj2 merge_order_stable_idempotent). apply elem_of_cons. left. reflexivity.
Defined.

(** ** Selection without replacement *)

Lemma swap_out_Permutation {A} (pool : list A) (j : nat) (x y : A) :
  pool !! j = Some x → last pool = Some y →
  x :: take (length pool - 1) (<[j := y]> pool) ≡ₚ pool.
Proof.
  intros Hj Hlast. apply last_Some in Hlast as [init ->].
  rewrite length_app. simpl.
  replace (length init + 1 - 1)%nat with (length init) by lia.
  destruct (decide (j < length init)%nat) as [Hlt|Hge].
  - rewrite lookup_app_l in Hj by done.
    rewrite insert_app_l by done.
    rewrite <- (length_insert init j y), take_app_length.
    rewrite insert_take_drop by done.
    rewrite <- (take_drop_middle init j x Hj) at 3.
    rewrite <- Permutation_cons_append, <- !Permutation_middle.
    apply perm_swap.
  - apply lookup_lt_Some in Hj as Hlen. rewrite length_app in Hlen. simpl in Hlen.
    assert (j = length init) as -> by lia.
    rewrite list_lookup_middle in Hj by done. injection Hj as <-.
    rewrite list_insert_id by (by rewrite list_lookup_middle).
    rewrite take_app_length. apply Permutation_cons_append.
Qed.

Section SamplerFacts.
Context `{RandomSource}.

(** [sample] returns [k] items standing at [k] different positions of the
    population. *)
Lemma sample_spec {A} (pool : list A) (k : nat) (g : rng_state) :
  (k ≤ length pool)%nat →
  length (sample pool k g).1 = k ∧ ∃ rest, pool ≡ₚ (sample pool k g).1 ++ rest.
Proof.
  revert pool g. induction k as [|k IH]; intros pool g Hk; simpl.
  - split; [done | by exists pool].
  - pose proof (randbelow_lt (length pool) g ltac:(lia)) as Hj.
    destruct (randbelow (length pool) g) as [j g1]. simpl in Hj.
    destruct (lookup_lt_is_Some_2 pool j Hj) as [x Hx]. rewrite Hx.
    destruct (last pool) as [y|] eqn:Hlast.
    2:{ apply last_None in Hlast. subst pool. simpl in Hk. lia. }
    pose proof (swap_out_Permutation pool j x y Hx Hlast) as Hperm.
    destruct (IH (take (length pool - 1) (<[j := y]> pool)) g1) as [Hlen [rest Hrest]].
    { rewrite length_take, length_insert. lia. }
    destruct (sample _ k g1) as [picked g2]. simpl in *.
    split; [by rewrite Hlen |].
    exists rest. rewrite <- Hperm. by constructor.
Qed.

Lemma sample_length {A} (pool : list A) (k : nat) (g : rng_state) :
  (k ≤ length pool)%nat → length (sample pool k g).1 = k.
Proof. intros Hk. by apply sample_spec. Qed.

Lemma sample_subseteq {A} (pool : list A) (k : nat) (g : rng_state) :
  (k ≤ length pool)%nat → (sample pool k g).1 ⊆ pool.
Proof.
  intros Hk. destruct (sample_spec pool k g Hk) as [_ [rest Hperm]].
  intros x Hx. rewrite Hperm. apply elem_of_app. by left.
Qed.

Lemma sample_NoDup {A} (pool : list A) (k : nat) (g : rng_state) :
  (k ≤ length pool)%nat → NoDup pool → NoDup (sample pool k g).1.
Proof.
  intros Hk Hnd. destruct (sample_spec pool k g Hk) as [_ [rest Hperm]].
  rewrite Hperm in Hnd. by apply NoDup_app in Hnd as [? _].
Qed.

(** Asked for the whole population, [sample] returns it reordered. *)
Lemma sample_all {A} (pool : list A) (g : rng_state) :
  (sample pool (length pool) g).1 ≡ₚ pool.
Proof.
  destruct (sample_spec pool (length pool) g ltac:(lia)) as [Hlen [rest Hperm]].
  assert (rest = []) as ->.
  { apply nil_length_inv. apply Permutation_length in Hperm.
    rewrite length_app in Hperm. lia. }
  by rewrite app_nil_r in Hperm.
Qed.

End SamplerFacts.

Lemma length_filter_not_elem (chosen options : list token) :
  NoDup options → NoDup chosen → chosen ⊆ options →
  length (filter (fun item => item ∉ chosen) options) =
  (length options - length chosen)%nat.
Proof.
  intros Hopt Hch Hsub.
  pose proof (filter_app_complement (fun item => item ∈ chosen) options) as Hsplit.
  assert (filter (fun item => item ∈ chosen) options ≡ₚ chosen) as Hin.
  { apply NoDup_Permutation; [by apply NoDup_filter | done |].
    intros x. rewrite list_elem_of_filter. naive_solver. }
  apply Permutation_length in Hsplit. rewrite length_app in Hsplit.
  apply Permutation_length in Hin. lia.
Qed.

(** ** Drawing the tokens of one subcategory *)

Section PickItems.
Context `{RandomSource}.

(** Both calls of [sample] in [_pick_items] ask for no more items than the
    population holds. *)
Lemma sample_call_sites (count : Z) (population : list token) :
  0 < count →
  (Z.to_nat (Z.min count (Z.of_nat (length population))) ≤ length population)%nat
  ∧ (¬ Z.of_nat (length population) ≤ count →
     (Z.to_nat count ≤ length population)%nat).
Proof. lia. Qed.

(** When the preferred tokens are pairwise different, the draw is what the
    sampler promises: as many tokens as requested or as the pool holds,
    whichever is less, all from the pool and all different. *)
Lemma pick_items_distinct (options : list token) (count : Z) (preferred : list token)
    (g : rng_state) :
  NoDup options → NoDup preferred →
  NoDup (_pick_items options count preferred g).1 ∧
  (_pick_items options count preferred g).1 ⊆ options ∧
  Z.of_nat (length (_pick_items options count preferred g).1) =
    Z.max 0 (Z.min count (Z.of_nat (length options))).
Proof.
  intros Hopt Hpref. unfold _pick_items.
  destruct (Z.leb_spec count 0) as [Hc|Hc]; simpl.
  { split_and!; [apply NoDup_nil_2 | apply list_subseteq_nil | lia]. }
  set (ap := filter (fun item => item ∈ options) preferred).
  assert (NoDup ap) as Hap by (by apply NoDup_filter).
  assert (ap ⊆ options) as Hapsub.
  { intros x Hx. by apply list_elem_of_filter in Hx as [? _]. }
  assert (length ap ≤ length options)%nat as Haplen.
  { apply submseteq_length, NoDup_submseteq; done. }
  (* the state after the preference pass *)
  assert (∃ chosen count' g',
             match ap with
             | [] => ([], count, g)
             | _ => let '(picked, g') :=
                      sample ap (Z.to_nat (Z.min count (Z.of_nat (length ap)))) g in
                    (picked, count - Z.min count (Z.of_nat (length ap)), g')
             end = (chosen, count', g') ∧
             NoDup chosen ∧ chosen ⊆ options ∧
             Z.of_nat (length chosen) = Z.min count (Z.of_nat (length ap)) ∧
             count' = count - Z.of_nat (length chosen))
    as (chosen & count' & g' & -> & Hch & Hchsub & Hchlen & ->).
  { destruct ap as [|a ap'] eqn:Hapeq.
    - exists [], count, g. split_and!; try done; simpl; lia.
    - rewrite <- Hapeq in *. clear Hapeq.
      pose proof (sample_spec ap (Z.to_nat (Z.min count (Z.of_nat (length ap)))) g
                    ltac:(lia)) as [Hlen _].
      pose proof (sample_NoDup ap (Z.to_nat (Z.min count (Z.of_nat (length ap)))) g
                    ltac:(lia) Hap) as Hnd.
      pose proof (sample_subseteq ap (Z.to_nat (Z.min count (Z.of_nat (length ap)))) g
                    ltac:(lia)) as Hsub.
      destruct (sample ap _ g) as [picked g1]. simpl in *.
      exists picked, (count - Z.min count (Z.of_nat (length ap))), g1.
      split_and!; try done.
      + intros x Hx. by apply Hapsub, Hsub.
      + lia.
      + lia. }
  destruct (Z.leb_spec (count - Z.of_nat (length chosen)) 0) as [Hc'|Hc']; simpl.
  { split_and!; [done | done | lia]. }
  set (remaining := filter (fun item => item ∉ chosen) options).
  assert (NoDup remaining) as Hrem by (by apply NoDup_filter).
  assert (length remaining = length options - length chosen)%nat as Hremlen.
  { by apply length_filter_not_elem. }
  assert (length chosen ≤ length options)%nat as Hchle.
  { apply submseteq_length, NoDup_submseteq; done. }
  assert (∀ picked, picked ⊆ remaining → NoDup picked → NoDup (chosen ++ picked)) as Happ.
  { intros picked Hsub Hnd. apply NoDup_app. split_and!; [done | | done].
    intros x Hx Hx'. apply Hsub in Hx'. by apply list_elem_of_filter in Hx' as [? _]. }
  assert (∀ picked, picked ⊆ remaining → chosen ++ picked ⊆ options) as Happsub.
  { intros picked Hsub x Hx. apply elem_of_app in Hx as [Hx|Hx]; [by apply Hchsub |].
    apply Hsub in Hx. by apply list_elem_of_filter in Hx as [_ ?]. }
  destruct remaining as [|r remaining'] eqn:Hremeq.
  { simpl in *. split_and!; [done | done | lia]. }
  rewrite <- Hremeq in *. clear Hremeq.
  destruct (Z.leb_spec (Z.of_nat (length remaining)) (count - Z.of_nat (length chosen)))
    as [Hfill|Hfill]; simpl.
  - split_and!; [by apply Happ | by apply Happsub |]. rewrite length_app. lia.
  - pose proof (sample_spec remaining (Z.to_nat (count - Z.of_nat (length chosen))) g'
                  ltac:(lia)) as [Hlen _].
    pose proof (sample_NoDup remaining (Z.to_nat (count - Z.of_nat (length chosen))) g'
                  ltac:(lia) Hrem) as Hnd.
    pose proof (sample_subseteq remaining (Z.to_nat (count - Z.of_nat (length chosen))) g'
                  ltac:(lia)) as Hsub.
    destruct (sample remaining _ g') as [picked g2]. simpl in *.
    split_and!; [by apply Happ | by apply Happsub |]. rewrite length_app. lia.
Qed.

(** The same for the draw of a subcategory, with the count looked up in the
    overrides. *)
Lemma draw_subcategory_distinct (overrides : odict Z) (default : Z)
    (preferred : odict (list token)) (key : string) (options : list token)
    (g : rng_state) :
  NoDup options → NoDup (get_or key [] preferred) →
  NoDup (draw_subcategory overrides default preferred key options g).1 ∧
  (draw_subcategory overrides default preferred key options g).1 ⊆ options ∧
  Z.of_nat (length (draw_subcategory overrides default preferred key options g).1) =
    Z.max 0 (Z.min (get_or key default overrides) (Z.of_nat (length options))).
Proof.
  intros Hopt Hpref. unfold draw_subcategory.
  destruct (Z.leb_spec (get_or key default overrides) 0) as [Hc|Hc]; simpl.
  { split_and!; [apply NoDup_nil_2 | apply list_subseteq_nil | lia]. }
  apply pick_items_distinct; [done |].
  destruct preferred; [apply NoDup_nil_2 | done].
Qed.

End PickItems.

(** ** Generating a prompt *)

Section GenerateFacts.
Context `{RandomSource}.
(** The draw from four candidates when five tokens are requested and the
    preferred tokens are [x], [b] and [x] again. *)
Lemma pick_items_overlap (g : rng_state) :
  (_pick_items ["a"; "b"; "c"; "x"] 5 ["x"; "b"; "x"] g).1 ≡ₚ ["x"; "b"; "x"; "a"; "c"].
Proof.
  unfold _pick_items.
  change (filter (fun item => item ∈ ["a"; "b"; "c"; "x"]) ["x"; "b"; "x"])
    with ["x"; "b"; "x"].
  cbn [Z.leb Z.compare].
  change (Z.to_nat (Z.min 5 (Z.of_nat (length ["x"; "b"; "x"])))) with (length ["x"; "b"; "x"]).
  pose proof (sample_all ["x"; "b"; "x"] g) as Hperm.
  destruct (sample ["x"; "b"; "x"] _ g) as [picked g1]. simpl in Hperm.
  change (5 - Z.min 5 (Z.of_nat (length ["x"; "b"; "x"])) <=? 0) with false.
  cbv iota.
  assert (filter (fun item => item ∉ picked) ["a"; "b"; "c"; "x"] = ["a"; "c"]) as ->.
  { rewrite (filter_ext_elem _ (fun item => item ∉ ["x"; "b"; "x"])).
    - vm_compute. reflexivity.
    - intros x _. by rewrite Hperm. }
  simpl. by rewrite Hperm.
Qed.

(** C1. Failing input: the modes [m1] and [m2] of [ex_doc] both contribute
    the token [x] to the subcategory [quality], whose merged pool holds the
    four tokens [a], [b], [c], [x].  With five tokens requested the draw holds
    five tokens, [x] twice, for every seed and generator state, where the
    claim has min(5, 4) = 4 tokens and none repeated. *)
Theorem overlapping_preferred_repeats_token (seed : option Z) (g : rng_state) :
  ∃ pl,
    _load_pools (Some ex_doc) ["general"; "m1"; "m2"] = Ok pl ∧
    od_get "composition" (sections pl) ≫= od_get "quality" = Some ["a"; "b"; "c"; "x"] ∧
    ∃ p,
      (generate_prompt (Some ex_doc) None ["general"; "m1"; "m2"] seed
         [("quality", 5)] [] [] [] [] None 1 g).1 = Ok p ∧
      composition p ≡ₚ ["x"; "b"; "x"; "a"; "c"].
Proof.
  eexists. split; [vm_compute; reflexivity |]. split; [reflexivity |].
  unfold generate_prompt, bind.
  assert (∀ g0 : rng_state,
            lift (_load_pools (Some ex_doc) ["general"; "m1"; "m2"]) g0 =
            (Ok {| sections := [("composition", [("quality", ["a"; "b"; "c"; "x"])]);
                                ("action", []); ("subject", []); ("environment", [])];
                   negative_base := ["blurry"];
                   negative_optional := [("hands", ["bad hands"])];
                   style_presets := doc_style_presets ex_doc;
                   _sources := [("composition",
                                 [("quality", [("general", ["a"; "b"; "c"]);
                                               ("m1", ["x"; "b"]); ("m2", ["x"])])]);
                                ("action", []); ("subject", []); ("environment", [])] |},
             g0)) as Hload.
  { intros g0. unfold lift. by f_equal. }
  rewrite Hload. clear Hload.
  set (g0 := match seed with Some s => rng_seed s | None => g end).
  assert ((match seed with Some s => (Ok (), rng_seed s) | None => (Ok (), g) end) = (Ok tt, g0))
    as -> by (by destruct seed).
  unfold sample_named, bind, lift, ret, subscript.
  cbn [sections od_get String.eqb Ascii.eqb Bool.eqb _sources].
  assert (∀ name g1, _sample_section [] [] 1
                       (build_preferred
                          [("composition",
                            [("quality", [("general", ["a"; "b"; "c"]);
                                          ("m1", ["x"; "b"]); ("m2", ["x"])])]);
                           ("action", []); ("subject", []); ("environment", [])]
                          (filter (fun mode0 => mode0 ≠ "general") ["general"; "m1"; "m2"])
                          name) g1 = ([], g1)) as Hempty by done.
  assert (_sample_section [("quality", ["a"; "b"; "c"; "x"])] [("quality", 5)] 1
            (build_preferred
               [("composition",
                 [("quality", [("general", ["a"; "b"; "c"]);
                               ("m1", ["x"; "b"]); ("m2", ["x"])])]);
                ("action", []); ("subject", []); ("environment", [])]
               (filter (fun mode0 => mode0 ≠ "general") ["general"; "m1"; "m2"])
               "composition") g0 =
          ((_pick_items ["a"; "b"; "c"; "x"] 5 ["x"; "b"; "x"] g0).1 ++ [],
           (_pick_items ["a"; "b"; "c"; "x"] 5 ["x"; "b"; "x"] g0).2)) as ->.
  { change (build_preferred _ _ "composition") with [("quality", ["x"; "b"; "x"])].
    cbn [_sample_section]. unfold draw_subcategory. cbn [get_or od_get default String.eqb Ascii.eqb Bool.eqb Z.leb Z.compare].
    by destruct (_pick_items _ _ _ g0). }
  rewrite !Hempty. cbn [extend_groups negative_optional negative_base fst].
  eexists. split; [reflexivity |]. cbn [composition]. rewrite app_nil_r.
  apply pick_items_overlap.
Qed.


(** What a style preset adds to the prompt generated without it: each
    section gains the preset's tokens it lacks, and the negative list gains
    all of the preset's negative tokens. *)
Lemma style_preset_merge file pools_arg modes seed co ao so eo ng name dc
    (g g' : rng_state) pl preset p0 :
  match pools_arg with Some p => Ok p | None => _load_pools file modes end = Ok pl →
  od_get name (style_presets pl) = Some preset → name ≠ "" →
  generate_prompt file pools_arg modes seed co ao so eo ng None dc g = (Ok p0, g') →
  generate_prompt file pools_arg modes seed co ao so eo ng (Some name) dc g =
    (Ok {| composition := extend_unique (composition p0) (get_or "composition" [] preset);
           action := extend_unique (action p0) (get_or "action" [] preset);
           subject := extend_unique (subject p0) (get_or "subject" [] preset);
           environment := extend_unique (environment p0) (get_or "environment" [] preset);
           negatives := match preset with
                        | [] => negatives p0
                        | _ => negatives p0 ++ get_or "negative" [] preset
                        end |}, g').
Proof.
  intros Hload Hpreset Hname. unfold generate_prompt, bind, lift, ret.
  rewrite Hload.
  destruct (match seed with Some s => _ | None => _ end) as [[[]|e] g0]; [|done].
  destruct (sample_named pl "composition" _ _ _ g0) as [[c|e] g1]; [|done].
  destruct (sample_named pl "action" _ _ _ g1) as [[a|e] g2]; [|done].
  destruct (sample_named pl "subject" _ _ _ g2) as [[s|e] g3]; [|done].
  destruct (sample_named pl "environment" _ _ _ g3) as [[v|e] g4]; [|done].
  destruct name as [|ch name]; [done |]. rewrite Hpreset.
  destruct (extend_groups _ _ _) as [n|e]; [|done].
  intros [= <- <-]. simpl. by destruct preset.
Qed.

(** C8. Failing input: the preset [romantic] of [ex_doc] lists the negative
    token [blurry], which the base negative list already holds.  The preset
    merge appends it again: the generated negative list holds [blurry] twice,
    where the claim has the preset's negative tokens deduplicated against the
    negatives built so far. *)
Theorem preset_negatives_appended_as_they_are (seed : option Z) (g : rng_state) :
  ∃ p,
    (generate_prompt (Some ex_doc) None ["general"] seed [] [] [] [] []
       (Some "romantic") 1 g).1 = Ok p ∧
    negatives p = ["blurry"; "blurry"; "harsh"].
Proof.
  unfold generate_prompt, bind, lift, ret, sample_named.
  cbv -[_pick_items rng_seed app composition].
  destruct seed as [s|];
    match goal with
    | |- context [_pick_items ?o ?c ?p ?g0] =>
        destruct (_pick_items o c p g0) as [drawn g1]
    end;
    (eexists; split; reflexivity).
Qed.

(** C2. With a seed, the lines of the generated prompt do not depend on the
    state the generator is in when [generate_prompt] is called: two calls
    with the same seed, pools, overrides, negative groups and style preset
    render the same lines (or raise the same error), whatever was drawn
    before either call. *)
Theorem seeded_generation_reproducible file pools_arg modes (seed : Z)
    co ao so eo ng sp dc (flat : bool) (delimiter : string) (g1 g2 : rng_state) :
  rendered_lines
    (generate_prompt file pools_arg modes (Some seed) co ao so eo ng sp dc g1).1
    flat delimiter =
  rendered_lines
    (generate_prompt file pools_arg modes (Some seed) co ao so eo ng sp dc g2).1
    flat delimiter.
Proof.
  unfold generate_prompt, bind, lift, ret.
  destruct (match pools_arg with Some p => _ | None => _ end) as [pl|e]; [|done].
  done.
Qed.

End GenerateFacts.

(** * The workflow patcher *)

(** ** Node ids *)

Lemma string_of_uint_digits (d : Decimal.uint) :
  all_digits (NilEmpty.string_of_uint d) = true.
Proof. induction d; simpl; done. Qed.

Lemma string_of_uint_nonempty (d : Decimal.uint) :
  all_digits (NilZero.string_of_uint d) = true ∧ NilZero.string_of_uint d ≠ "".
Proof.
  destruct d; simpl; split; try done; apply (string_of_uint_digits d).
Qed.

Lemma digit_plain (c : ascii) :
  is_digit c = true →
  is_blank c = false ∧ Ascii.eqb c "_" = false ∧ c ≠ "+"%char ∧ c ≠ "-"%char.
Proof.
  intros Hdigit. split_and!.
  - unfold is_digit, is_blank in *.
    apply andb_true_iff in Hdigit as [H48%Nat.leb_le H57%Nat.leb_le].
    apply orb_false_iff. split; [apply Nat.eqb_neq; lia |].
    apply andb_false_iff. right. apply Nat.leb_gt. lia.
  - apply Ascii.eqb_neq. by intros ->.
  - by intros ->.
  - by intros ->.
Qed.

Lemma all_digits_rstrip (s : string) : all_digits s = true → rstrip s = s.
Proof.
  unfold rstrip. induction s as [|c rest IH]; simpl; [done |].
  intros [Hc Hrest]%andb_true_iff. rewrite (IH Hrest).
  destruct rest; [|done]. by rewrite (proj1 (digit_plain c Hc)).
Qed.

Lemma all_digits_lstrip (s : string) : all_digits s = true → lstrip s = s.
Proof.
  unfold lstrip. destruct s as [|c rest]; simpl; [done |].
  intros [Hc _]%andb_true_iff. by rewrite (proj1 (digit_plain c Hc)).
Qed.

Lemma all_digits_plain (s : string) (after_digit : bool) :
  all_digits s = true → (after_digit = false → s ≠ "") →
  plain_digits s after_digit = Some s.
Proof.
  revert after_digit. induction s as [|c rest IH]; intros after_digit; simpl.
  - intros _ Hne. destruct after_digit; [done | by destruct Hne].
  - intros [Hc Hrest]%andb_true_iff _. rewrite Hc. by rewrite IH.
Qed.

Lemma int_digits (d : Decimal.uint) :
  int (NilZero.string_of_uint d) = Ok (Z.of_uint d) ∧
  int (String "-" (NilZero.string_of_uint d)) = Ok (- Z.of_uint d).
Proof.
  destruct (string_of_uint_nonempty d) as [Hdigits Hne].
  assert (NilZero.uint_of_string (NilZero.string_of_uint d) ≫= (fun d' => Some (Z.of_uint d'))
          = Some (Z.of_uint d)) as Hvalue.
  { destruct d; [done | by rewrite NilZero.usu ..]. }
  destruct (NilZero.uint_of_string (NilZero.string_of_uint d)) as [d'|] eqn:Hparse; [|done].
  injection Hvalue as Hvalue.
  split.
  - unfold int. rewrite all_digits_rstrip, all_digits_lstrip by done.
    destruct (NilZero.string_of_uint d) as [|c rest] eqn:Hs; [done |].
    simpl in Hdigits. apply andb_true_iff in Hdigits as [Hc Hrest].
    destruct (digit_plain c Hc) as (_ & _ & Hplus & Hminus).
    assert (match String c rest with
            | String "+"%char rest0 => (false, rest0)
            | String "-"%char rest0 => (true, rest0)
            | _ => (false, String c rest)
            end = (false, String c rest)) as ->.
    { destruct c as [[] [] [] [] [] [] [] []]; done. }
    rewrite all_digits_plain; [| by simpl; rewrite Hc | done].
    change (Some (String c rest) ≫= NilZero.uint_of_string)
      with (NilZero.uint_of_string (String c rest)).
    rewrite Hparse. by rewrite Hvalue.
  - unfold int.
    assert (rstrip (String "-" (NilZero.string_of_uint d)) =
            String "-" (NilZero.string_of_uint d)) as ->.
    { unfold rstrip. simpl. fold rstrip. rewrite all_digits_rstrip by done.
      by destruct (NilZero.string_of_uint d). }
    unfold lstrip. cbn [lstrip_with].
    change (is_blank "-") with false. cbv iota.
    rewrite all_digits_plain by done.
    change (Some (NilZero.string_of_uint d) ≫= NilZero.uint_of_string)
      with (NilZero.uint_of_string (NilZero.string_of_uint d)).
    rewrite Hparse. by rewrite Hvalue.
Qed.

Lemma int_str (n : Z) : int (str n) = Ok n.
Proof.
  unfold str. rewrite <- (DecimalZ.of_to n) at 2.
  destruct (Z.to_int n) as [d|d]; simpl; apply int_digits.
Qed.

Lemma str_inj (n m : Z) : str n = str m → n = m.
Proof.
  intros Heq. pose proof (int_str n) as Hn. rewrite Heq, int_str in Hn. congruence.
Qed.

Lemma int_empty : int "" = Err (ValueError "").
Proof. reflexivity. Qed.

Lemma str_nonempty (n : Z) : str n ≠ "".
Proof. intros Heq. pose proof (int_str n) as Hn. by rewrite Heq in Hn. Qed.

Lemma max_list_spec (l : list Z) :
  match foldr (fun n best => Some (match best with Some m => Z.max n m | None => n end))
              None l with
  | Some m => m ∈ l ∧ ∀ n, n ∈ l → n ≤ m
  | None => l = []
  end.
Proof.
  induction l as [|x l IH]; simpl; [done |].
  destruct (foldr _ None l) as [m|].
  - destruct IH as [Hin Hmax]. split.
    + destruct (Z.max_spec x m) as [[_ ->]|[_ ->]]; [by right | by left].
    + intros n [->|Hn]%elem_of_cons; [lia |]. specialize (Hmax n Hn). lia.
  - subst l. split; [by left |]. intros n Hn. apply list_elem_of_singleton in Hn. lia.
Qed.

Lemma max_id_Some (existing_ids : gset Z) (m : Z) :
  max_id existing_ids = Some m → m ∈ existing_ids ∧ ∀ n, n ∈ existing_ids → n ≤ m.
Proof.
  unfold max_id. pose proof (max_list_spec (elements existing_ids)) as Hspec.
  intros Heq. rewrite Heq in Hspec. destruct Hspec as [Hin Hmax].
  split; [by apply elem_of_elements |].
  intros n Hn. by apply Hmax, elem_of_elements.
Qed.

Lemma max_id_None (existing_ids : gset Z) : max_id existing_ids = None → existing_ids = ∅.
Proof.
  unfold max_id. pose proof (max_list_spec (elements existing_ids)) as Hspec.
  intros Heq. rewrite Heq in Hspec. apply elements_empty_inv in Hspec.
  by apply leibniz_equiv.
Qed.

(** The number [next_id] picks is in nobody's hands yet. *)
Lemma next_id_new (existing_ids : gset Z) :
  ∃ new_id,
    (next_id existing_ids = (str new_id, {[new_id]} ∪ existing_ids)) ∧
    (new_id ∉ existing_ids) ∧
    match max_id existing_ids with
    | Some m => new_id = m + 1
    | None => new_id = 1
    end.
Proof.
  unfold next_id. destruct (max_id existing_ids) as [m|] eqn:Hmax.
  - exists (m + 1). split_and!; [done | | done].
    intros Hin. apply max_id_Some in Hmax as [_ Hle]. specialize (Hle _ Hin). lia.
  - exists 1. split_and!; [done | | done].
    apply max_id_None in Hmax. subst. set_solver.
Qed.

Lemma int_keys_reserved (ks : list string) (existing_ids : gset Z) :
  int_keys ks = Ok existing_ids → ∀ k, k ∈ ks → reserved existing_ids k.
Proof.
  revert existing_ids. induction ks as [|k0 ks IH]; intros ids; simpl.
  - intros _ k Hk. by apply elem_of_nil in Hk.
  - destruct (int k0) as [n|] eqn:Hk0; [|done].
    destruct (int_keys ks) as [ids0|]; [|done].
    intros [= <-] k [->|Hk]%elem_of_cons.
    + exists n. split; [done | set_solver].
    + destruct (IH ids0 eq_refl k Hk) as (m & Hm & Hin). exists m. split; [done | set_solver].
Qed.

Lemma next_id_unreserved (existing_ids : gset Z) :
  ¬ reserved existing_ids (next_id existing_ids).1.
Proof.
  destruct (next_id_new existing_ids) as (new_id & -> & Hnew & _). simpl.
  intros (n & Hint & Hin). rewrite int_str in Hint. congruence.
Qed.

Lemma next_id_reserves (existing_ids : gset Z) :
  reserved (next_id existing_ids).2 (next_id existing_ids).1 ∧
  ∀ k, reserved existing_ids k → reserved (next_id existing_ids).2 k.
Proof.
  destruct (next_id_new existing_ids) as (new_id & -> & Hnew & _). simpl. split.
  - exists new_id. split; [apply int_str | set_solver].
  - intros k (n & Hint & Hin). exists n. split; [done | set_solver].
Qed.

(** ** Nodes and their inputs *)

Section Updates.
Context {V : Type}.
Implicit Types (d inputs updates : list (string * V)).

Lemma od_update_other inputs updates k :
  k ∉ keys updates → od_get k (od_update inputs updates) = od_get k inputs.
Proof.
  revert inputs. induction updates as [|[k0 v0] updates IH]; intros inputs Hk; simpl; [done |].
  unfold keys in Hk. csimpl in Hk. apply not_elem_of_cons in Hk as [Hne Hk].
  rewrite IH by done. by apply od_get_set_ne.
Qed.

Lemma od_update_get inputs updates k v :
  NoDup (keys updates) → (k, v) ∈ updates → od_get k (od_update inputs updates) = Some v.
Proof.
  revert inputs. induction updates as [|[k0 v0] updates IH]; intros inputs Hnd Hin; simpl.
  - by apply elem_of_nil in Hin.
  - unfold keys in Hnd. csimpl in Hnd. apply NoDup_cons in Hnd as [Hk0 Hnd].
    apply elem_of_cons in Hin as [[= -> ->]|Hin].
    + rewrite od_update_other by done. apply od_get_set_eq.
    + by apply IH.
Qed.

Lemma od_update_same inputs updates :
  (∀ k v, (k, v) ∈ updates → od_get k inputs = Some v) → od_update inputs updates = inputs.
Proof.
  revert inputs. induction updates as [|[k0 v0] updates IH]; intros inputs Hall; simpl; [done |].
  rewrite od_set_same by (apply Hall, elem_of_cons; by left).
  apply IH. intros k v Hin. apply Hall, elem_of_cons. by right.
Qed.

Lemma keys_od_update_present inputs updates :
  keys updates ⊆ keys inputs → keys (od_update inputs updates) = keys inputs.
Proof.
  revert inputs. induction updates as [|[k0 v0] updates IH]; intros inputs Hsub; simpl; [done |].
  unfold keys in Hsub. csimpl in Hsub.
  assert (k0 ∈ keys inputs) as Hk0 by (apply Hsub, elem_of_cons; by left).
  rewrite IH; [by apply keys_od_set_present |].
  rewrite keys_od_set_present by done. intros k Hk. apply Hsub, elem_of_cons. by right.
Qed.

End Updates.

Lemma has_class_inputs fields inputs class_type :
  has_class (JDict (od_set "inputs" inputs fields)) class_type =
  has_class (JDict fields) class_type.
Proof. unfold has_class. by rewrite od_get_set_ne. Qed.

Lemma has_class_dict node class_type :
  has_class node class_type = true →
  ∃ fields, node = JDict fields ∧ od_get "class_type" fields = Some (JStr class_type).
Proof.
  destruct node as [| | | |items|fields]; simpl; try done.
  destruct (od_get "class_type" fields) as [[| | |s| |]|] eqn:Hclass; try done.
  intros Heq%String.eqb_eq. subst. by exists fields.
Qed.

Lemma has_class_unique node c c' :
  has_class node c = true → has_class node c' = true → c = c'.
Proof.
  intros (fields & -> & Hc)%has_class_dict (fields' & [= <-] & Hc')%has_class_dict.
  congruence.
Qed.

Lemma new_node_class class_type inputs c :
  has_class (new_node class_type inputs) c = String.eqb class_type c.
Proof. reflexivity. Qed.

(** [find_node_id] returns a key of the graph whose node has the class. *)
Lemma find_node_id_Some (data : graph) class_type node_id :
  NoDup (keys data) → find_node_id data class_type = Some node_id →
  ∃ node, od_get node_id data = Some node ∧ has_class node class_type = true.
Proof.
  induction data as [|[k n] data IH]; simpl; [done |].
  unfold keys. csimpl. intros [Hk Hnd]%NoDup_cons.
  destruct (has_class n class_type) eqn:Hclass.
  - intros [= ->]. exists n. by rewrite String.eqb_refl.
  - intros Hfind. destruct (IH Hnd Hfind) as (node & Hget & Hnode).
    exists node. split; [|done].
    destruct (String.eqb_spec k node_id) as [->|_]; [|done].
    exfalso. apply Hk. by apply od_get_is_Some.
Qed.

(** Replacing a node by one of the same class changes no search. *)
Lemma find_node_id_replace (data : graph) node_id node node' class_type :
  od_get node_id data = Some node →
  has_class node' class_type = has_class node class_type →
  find_node_id (od_set node_id node' data) class_type = find_node_id data class_type.
Proof.
  intros Hget Hclass. induction data as [|[k n] data IH]; simpl in *; [done |].
  destruct (String.eqb_spec k node_id) as [->|Hne]; simpl.
  - injection Hget as ->. by rewrite Hclass.
  - by rewrite IH.
Qed.

Lemma find_node_id_app (data data' : graph) class_type :
  find_node_id (data ++ data') class_type =
  match find_node_id data class_type with
  | Some node_id => Some node_id
  | None => find_node_id data' class_type
  end.
Proof.
  induction data as [|[k n] data IH]; simpl; [done |].
  by destruct (has_class n class_type).
Qed.

(** A node stored under a new key is found when no earlier node has its class. *)
Lemma find_node_id_fresh (data : graph) node_id node class_type :
  node_id ∉ keys data →
  find_node_id (od_set node_id node data) class_type =
  match find_node_id data class_type with
  | Some found => Some found
  | None => if has_class node class_type then Some node_id else None
  end.
Proof.
  intros Hfresh. rewrite keys_od_set_fresh by done. rewrite find_node_id_app. done.
Qed.

Lemma update_inputs_Ok (data : graph) node_id updates data' :
  update_inputs data node_id updates = Ok data' →
  ∃ fields inputs,
    od_get node_id data = Some (JDict fields) ∧ inputs_of fields = Ok inputs ∧
    data' = od_set node_id
              (JDict (od_set "inputs" (JDict (od_update inputs updates)) fields)) data.
Proof.
  unfold update_inputs, node_fields.
  destruct (od_get node_id data) as [[| | | | |fields]|] eqn:Hget; try done.
  destruct (inputs_of fields) as [inputs|] eqn:Hin; [|done].
  intros [= <-]. by exists fields, inputs.
Qed.

Lemma inputs_of_set fields inputs : inputs_of (od_set "inputs" (JDict inputs) fields) = Ok inputs.
Proof. unfold inputs_of. by rewrite od_get_set_eq. Qed.

(** The merging update keeps every input it does not name. *)
Lemma update_inputs_frame (data : graph) node_id updates data' :
  update_inputs data node_id updates = Ok data' →
  keys data' = keys data ∧
  (∀ c, find_node_id data' c = find_node_id data c) ∧
  (∀ other, other ≠ node_id → od_get other data' = od_get other data) ∧
  (∀ other key, key ≠ "inputs" → field_of data' other key = field_of data other key) ∧
  (∀ other key, (other = node_id → key ∉ keys updates) →
                input_of data' other key = input_of data other key).
Proof.
  intros (fields & inputs & Hget & Hin & ->)%update_inputs_Ok. split_and!.
  - apply keys_od_set_present. apply od_get_is_Some. by eexists.
  - intros c. eapply find_node_id_replace; [done |]. apply has_class_inputs.
  - intros other Hne. by apply od_get_set_ne.
  - intros other key Hkey. unfold field_of. rewrite od_get_set.
    destruct (String.eqb_spec node_id other) as [<-|_]; [|done].
    rewrite Hget. by apply od_get_set_ne.
  - intros other key Hkey. unfold input_of, node_fields. rewrite od_get_set.
    destruct (String.eqb_spec node_id other) as [<-|_]; [|done].
    rewrite Hget, inputs_of_set, Hin. by apply od_update_other, Hkey.
Qed.

(** The inputs of an IPAdapter node before the update are not looked at. *)
Lemma replace_inputs_drops (data : graph) node_id inputs data' key :
  replace_inputs data node_id inputs = Ok data' →
  input_of data' node_id key = od_get key inputs.
Proof.
  unfold replace_inputs, node_fields.
  destruct (od_get node_id data) as [[| | | | |fields]|]; try done.
  intros [= <-]. unfold input_of, node_fields.
  by rewrite od_get_set_eq, inputs_of_set.
Qed.

Lemma replace_inputs_Ok (data : graph) node_id inputs data' :
  replace_inputs data node_id inputs = Ok data' →
  ∃ fields,
    od_get node_id data = Some (JDict fields) ∧
    data' = od_set node_id (JDict (od_set "inputs" (JDict inputs) fields)) data.
Proof.
  unfold replace_inputs, node_fields.
  destruct (od_get node_id data) as [[| | | | |fields]|] eqn:Hget; try done.
  intros [= <-]. by exists fields.
Qed.

(** The IPAdapter branch, written with its two find-or-make blocks named. *)
Lemma insert_ipadapter_eq (a : args) (data : graph) :
  insert_ipadapter a data =
  (if not_str (ipadapter_image a)
   then raise (MissingArgumentError "--add-ipadapter") else
   if not_str (find_node_id data "LoraLoader") then raise DependencyMissingError else
   let lora_id := default "" (find_node_id data "LoraLoader") in
   let* (source_image, dest_path) := stage_image a (default "" (ipadapter_image a)) in
   let* existing_ids := lift (int_keys (keys data)) in
   let* (loader_id, existing_ids, data) :=
     lift (replace_or_create (find_node_id data (loader_class a)) (loader_class a)
             (loader_inputs a lora_id) existing_ids data) in
   let image_id := (next_id existing_ids).1 in
   let data := od_set image_id
                 (new_node "LoadImage" [("image", JStr (name dest_path))]) data in
   let* (advanced_id, existing_ids, data) :=
     lift (replace_or_create (find_node_id data "IPAdapterAdvanced") "IPAdapterAdvanced"
             (advanced_inputs a loader_id image_id) (next_id existing_ids).2 data) in
   if not_str (find_node_id data "KSampler") then raise (NodeNotFoundError "KSampler") else
   lift (update_inputs data (default "" (find_node_id data "KSampler"))
           [("model", ref advanced_id 0)])).
Proof. reflexivity. Qed.

(** ** What a run leaves alone *)

(** C4. Failing input: the workflow [ex_graph] has an [IPAdapterAdvanced]
    node, id 10, whose inputs hold [clip_vision], a key the patcher does not
    set.  A run with [--add-ipadapter] finds the node and assigns it the new
    input mapping: [clip_vision] is gone afterwards, where the claim has
    every input key not named in the update keep its value. *)
Theorem ipadapter_update_discards_inputs :
  ∃ data' w',
    patch_graph (with_ipadapter ex_args (Some "/tmp/pose.png")) "P" "N" ex_graph ex_world
      = (Ok data', w') ∧
    find_node_id ex_graph "IPAdapterAdvanced" = Some "10" ∧
    input_of ex_graph "10" "clip_vision" = Some (ref "9" 0) ∧
    input_of data' "10" "clip_vision" = None.
Proof.
  eexists _, _. split; [vm_compute; reflexivity |]. split_and!; reflexivity.
Qed.

Lemma inject_text_Ok (a : args) positive_text negative_text (data : graph)
    pos_fields neg_fields pos_inputs neg_inputs :
  od_get (pos_node a) data = Some (JDict pos_fields) →
  has_class (JDict pos_fields) "CLIPTextEncode" = true →
  inputs_of pos_fields = Ok pos_inputs →
  od_get (neg_node a) data = Some (JDict neg_fields) →
  has_class (JDict neg_fields) "CLIPTextEncode" = true →
  inputs_of neg_fields = Ok neg_inputs →
  inject_text a positive_text negative_text data =
    Ok (od_set (neg_node a)
          (JDict (od_set "inputs" (JDict (od_set "text" (JStr negative_text) neg_inputs))
                    neg_fields))
          (od_set (pos_node a)
             (JDict (od_set "inputs" (JDict (od_set "text" (JStr positive_text) pos_inputs))
                       pos_fields))
             data)).
Proof.
  intros Hpos Hpc Hpi Hneg Hnc Hni. unfold inject_text.
  by rewrite Hpos, Hpc, Hneg, Hnc, Hpi, Hni.
Qed.

(** C10. With no optional feature requested, patching a graph whose two
    encoder ids name [CLIPTextEncode] nodes succeeds without touching the
    file system, keeps the node ids and their order, leaves every other node
    record as it was, and changes nothing in the two encoder records but the
    [text] input: every other field and every other input is as before, and
    [text] holds the negative text in the negative node and the positive
    text in the positive node (when the two ids differ). *)
Theorem text_injection_frame (a : args) (positive_text negative_text : string)
    (data : graph) (w : world) pos_fields neg_fields pos_inputs neg_inputs :
  lora_strength_model a = None → lora_strength_clip a = None → clip_layer a = None →
  add_controlnet a = false → add_ipadapter a = false →
  od_get (pos_node a) data = Some (JDict pos_fields) →
  has_class (JDict pos_fields) "CLIPTextEncode" = true →
  inputs_of pos_fields = Ok pos_inputs →
  od_get (neg_node a) data = Some (JDict neg_fields) →
  has_class (JDict neg_fields) "CLIPTextEncode" = true →
  inputs_of neg_fields = Ok neg_inputs →
  ∃ data',
    patch_graph a positive_text negative_text data w = (Ok data', w) ∧
    keys data' = keys data ∧
    (∀ node_id, node_id ≠ pos_node a → node_id ≠ neg_node a →
                od_get node_id data' = od_get node_id data) ∧
    (∀ node_id key, key ≠ "inputs" → field_of data' node_id key = field_of data node_id key) ∧
    (∀ node_id key, key ≠ "text" → input_of data' node_id key = input_of data node_id key) ∧
    input_of data' (neg_node a) "text" = Some (JStr negative_text) ∧
    (pos_node a ≠ neg_node a →
     input_of data' (pos_node a) "text" = Some (JStr positive_text)).
Proof.
  intros Hlm Hlc Hcl Hcn Hip Hpos Hpc Hpi Hneg Hnc Hni.
  eexists. split.
  { unfold patch_graph, bind, lift, ret.
    rewrite (inject_text_Ok a positive_text negative_text data pos_fields neg_fields
               pos_inputs neg_inputs) by done.
    unfold override_lora, override_clip_layer. by rewrite Hlm, Hlc, Hcl, Hcn, Hip. }
  assert (pos_node a ∈ keys data) as Hpk by (apply od_get_is_Some; by eexists).
  assert (neg_node a ∈ keys data) as Hnk by (apply od_get_is_Some; by eexists).
  split_and!.
  - rewrite keys_od_set_present; rewrite keys_od_set_present; done.
  - intros node_id Hp Hn. by rewrite !od_get_set_ne.
  - intros node_id key Hkey. unfold field_of. rewrite !od_get_set.
    destruct (String.eqb_spec (neg_node a) node_id) as [<-|_].
    { rewrite Hneg. by apply od_get_set_ne. }
    destruct (String.eqb_spec (pos_node a) node_id) as [<-|_]; [|done].
    rewrite Hpos. by apply od_get_set_ne.
  - intros node_id key Hkey. unfold input_of, node_fields. rewrite !od_get_set.
    destruct (String.eqb_spec (neg_node a) node_id) as [<-|_].
    { rewrite Hneg, inputs_of_set, Hni. by apply od_get_set_ne. }
    destruct (String.eqb_spec (pos_node a) node_id) as [<-|_]; [|done].
    rewrite Hpos, inputs_of_set, Hpi. by apply od_get_set_ne.
  - unfold input_of, node_fields. by rewrite od_get_set_eq, inputs_of_set, od_get_set_eq.
  - intros Hne. unfold input_of, node_fields.
    rewrite od_get_set_ne by done.
    by rewrite od_get_set_eq, inputs_of_set, od_get_set_eq.
Qed.

Lemma text_injection_frame_witness :
  ∃ data',
    patch_graph ex_args "P" "N" ex_graph ex_world = (Ok data', ex_world) ∧
    keys data' = keys ex_graph ∧
    input_of data' "6" "clip" = input_of ex_graph "6" "clip" ∧
    input_of data' "7" "text" = Some (JStr "N") ∧
    input_of data' "6" "text" = Some (JStr "P").
Proof.
  destruct (text_injection_frame ex_args "P" "N" ex_graph ex_world
              [("class_type", JStr "CLIPTextEncode");
               ("inputs", JDict [("text", JStr ""); ("clip", ref "4" 1)])]
              [("class_type", JStr "CLIPTextEncode");
               ("inputs", JDict [("text", JStr ""); ("clip", ref "4" 1)])]
              [("text", JStr ""); ("clip", ref "4" 1)]
              [("text", JStr ""); ("clip", ref "4" 1)]
              eq_refl eq_refl eq_refl eq_refl eq_refl eq_refl eq_refl eq_refl
              eq_refl eq_refl eq_refl)
    as (data' & Hrun & Hkeys & _ & _ & Hinputs & Hneg & Hpos).
  exists data'. split_and!; [exact Hrun | exact Hkeys | | exact Hneg |].
  - apply Hinputs. discriminate.
  - apply Hpos. discriminate.
Defined.

(** ** The effects of a run *)

Lemma changed_by_refl (l : list fs_event) (w : world) : changed_by l w w.
Proof.
  split_and!; [done | done |]. exists []. split; [by rewrite app_nil_r | apply sublist_nil_l].
Qed.

Lemma changed_by_trans (l1 l2 : list fs_event) (w w1 w2 : world) :
  changed_by l1 w w1 → changed_by l2 w1 w2 → changed_by (l1 ++ l2) w w2.
Proof.
  intros (Hc1 & Hh1 & added1 & He1 & Hs1) (Hc2 & Hh2 & added2 & He2 & Hs2).
  split_and!; [congruence | congruence |].
  exists (added1 ++ added2). split; [by rewrite He2, He1, app_assoc | by apply sublist_app].
Qed.

Lemma changed_by_weaken (l l' : list fs_event) (w w' : world) :
  l `sublist_of` l' → changed_by l w w' → changed_by l' w w'.
Proof.
  intros Hsub (Hc & Hh & added & He & Hs). split_and!; [done | done |].
  exists added. split; [done | by etrans].
Qed.

(** A log that grows by staging events only holds the same documents. *)
Lemma staging_writes_no_document (a : args) (h : path) (w w' : world) :
  changed_by (staging a h) w w' → doc_writes w' = doc_writes w.
Proof.
  intros (_ & _ & added & Hevents & Hsub). unfold doc_writes. rewrite Hevents, omap_app.
  assert (omap (fun e => match e with
                         | WriteText p document => Some (p, document)
                         | _ => None
                         end) added = []) as ->; [|by rewrite app_nil_r].
  assert (Forall (fun e => ∀ p document, e ≠ WriteText p document) (staging a h)) as Hall.
  { unfold staging, stage_events.
    destruct (add_controlnet a), (add_ipadapter a); repeat constructor; done. }
  assert (Forall (fun e => ∀ p document, e ≠ WriteText p document) added) as Hadded.
  { rewrite Forall_forall in *. intros e He. apply Hall. by eapply elem_of_sublist. }
  clear Hsub Hall Hevents. induction Hadded as [|e rest He _ IH]; [done |].
  destruct e as [p|source dest|p document]; simpl; [exact IH | exact IH |].
  by destruct (He p document).
Qed.

Lemma walk_Err (w : world) (p q : path) (parts : list string) (e : error) :
  walk w p q parts = Err e → e = NotADirectoryError p ∨ e = NoSuchFileError p.
Proof.
  revert q. induction parts as [|part rest IH]; intros q; simpl; [done |].
  destruct (String.eqb part ".."); [|apply IH].
  destruct (is_dir w q); [apply IH |].
  destruct (is_there w q); intros [= <-]; [by left | by right].
Qed.

Lemma locate_Err (w : world) (p : path) (e : error) :
  locate w p = Err e → ¬ before_staging e.
Proof.
  unfold locate. destruct (anchor w p) as [start parts].
  intros [-> | ->]%walk_Err; simpl; tauto.
Qed.

Ltac fs_case :=
  intros [= <- <-];
  split; [first [apply changed_by_refl | by split_and!; [done | done | eexists [_]]]
         | first [done | split; [done | simpl; tauto]]].

Lemma mkdir_changes (p : path) (w w' : world) (r : result unit) :
  mkdir p w = (r, w') →
  changed_by [Mkdir p] w w' ∧ match r with Err e => w' = w ∧ ¬ before_staging e | Ok _ => True end.
Proof.
  unfold mkdir. destruct (locate w p) as [q|e] eqn:Hlocate.
  2:{ intros [= <- <-]. split; [apply changed_by_refl |]. split; [done | by eapply locate_Err]. }
  repeat match goal with
         | |- context [if ?c then _ else _] => destruct c
         end; fs_case.
Qed.

Lemma copy2_changes (source dest : path) (w w' : world) (r : result unit) :
  copy2 source dest w = (r, w') →
  changed_by [Copy source dest] w w' ∧
  match r with Err e => w' = w ∧ ¬ before_staging e | Ok _ => True end.
Proof.
  unfold copy2. destruct (locate w source) as [qs|e] eqn:Hsource.
  2:{ intros [= <- <-]. split; [apply changed_by_refl |]. split; [done | by eapply locate_Err]. }
  destruct (locate w dest) as [qd|e] eqn:Hdest.
  2:{ intros [= <- <-]. split; [apply changed_by_refl |]. split; [done | by eapply locate_Err]. }
  cbv zeta.
  repeat match goal with
         | |- context [if ?c then _ else _] => destruct c
         end; fs_case.
Qed.

Lemma write_text_changes (p : path) (data : graph) (w w' : world) (r : result unit) :
  write_text p data w = (r, w') →
  match r with
  | Err e => w' = w ∧ ¬ before_staging e
  | Ok _ => cwd w' = cwd w ∧ home w' = home w ∧ events w' = events w ++ [WriteText p data]
  end.
Proof.
  unfold write_text. destruct (locate w p) as [q|e] eqn:Hlocate.
  2:{ intros [= <- <-]. split; [done | by eapply locate_Err]. }
  repeat match goal with
         | |- context [if ?c then _ else _] => destruct c
         end; intros [= <- <-]; first [done | split; [done | simpl; tauto]].
Qed.

(** Staging an image makes the input directory and copies the image, at
    most, and fails with no error of an earlier check. *)
Lemma stage_image_changes (a : args) (image : string) (w w' : world)
    (r : result (path * path)) :
  stage_image a image w = (r, w') →
  changed_by (stage_events a (home w) image) w w' ∧
  match r with Err e => ¬ before_staging e | Ok _ => True end.
Proof.
  unfold stage_image, bind, expanduser, path_exists, resolved, raise, ret.
  destruct (mkdir (input_root a) w) as [[[]|e] w1] eqn:Hmkdir.
  2:{ intros [= <- <-]. apply mkdir_changes in Hmkdir as [_ [-> Hearly]].
      split; [apply changed_by_refl | done]. }
  apply mkdir_changes in Hmkdir as [Hmade _].
  assert (home w1 = home w) as Hhome by apply Hmade. rewrite Hhome.
  assert (changed_by (stage_events a (home w) image) w w1) as Hw1.
  { eapply changed_by_weaken; [|exact Hmade]. unfold stage_events.
    apply sublist_skip, sublist_nil_l. }
  destruct (negb (found w1 (expand (home w) (Path image)))).
  { intros [= <- <-]. split; [done | simpl; tauto]. }
  destruct (bool_decide _); [|by intros [= <- <-]].
  destruct (copy2 _ _ w1) as [[[]|e] w2] eqn:Hcopy.
  - intros [= <- <-]. apply copy2_changes in Hcopy as [Hcopied _].
    split; [|done]. exact (changed_by_trans _ _ _ _ _ Hmade Hcopied).
  - intros [= <- <-]. apply copy2_changes in Hcopy as [_ [-> Hearly]]. by split.
Qed.

Lemma dict_Err (x : json) (e : error) : dict x = Err e → ¬ before_staging e.
Proof.
  assert (∀ item, match pair_of item with Err e => ¬ before_staging e | Ok _ => True end)
    as Hpair.
  { intros item. destruct item as [| | |s|items|entries]; simpl; try tauto.
    - destruct s as [|c1 [|c2 [|c3 s]]]; simpl; tauto.
    - destruct items as [|i1 [|i2 [|i3 rest]]]; simpl; try tauto; destruct i1; simpl; tauto.
    - destruct entries as [|[k1 v1] [|[k2 v2] [|e3 rest]]]; simpl; tauto. }
  destruct x as [| | |s|items|entries]; simpl; try (intros [= <-]; simpl; tauto).
  - destruct s; intros [= <-]. simpl. tauto.
  - generalize (@nil (string * json)) as entries.
    induction items as [|item rest IH]; intros entries; simpl; [done |].
    specialize (Hpair item). destruct (pair_of item) as [[key value]|e0]; [apply IH |].
    by intros [= <-].
Qed.

Lemma update_inputs_Err (data : graph) node_id updates (e : error) :
  update_inputs data node_id updates = Err e → ¬ before_staging e.
Proof.
  unfold update_inputs, node_fields, inputs_of.
  destruct (od_get node_id data) as [[| | | | |fields]|]; try (intros [= <-]; simpl; tauto).
  destruct (od_get "inputs" fields) as [x|]; [|done].
  destruct (dict x) as [inputs|e0] eqn:Hdict; [done |]. intros [= <-]. by eapply dict_Err.
Qed.

Lemma replace_inputs_Err (data : graph) node_id inputs (e : error) :
  replace_inputs data node_id inputs = Err e → ¬ before_staging e.
Proof.
  unfold replace_inputs, node_fields.
  destruct (od_get node_id data) as [[| | | | |fields]|]; try done; intros [= <-]; simpl; tauto.
Qed.

Lemma int_keys_Err (ks : list string) (e : error) :
  int_keys ks = Err e → ¬ before_staging e.
Proof.
  induction ks as [|k rest IH]; simpl; [done |].
  destruct (int k) as [n|e0] eqn:Hint.
  - destruct (int_keys rest); [done |]. intros [= <-]. by apply IH.
  - intros [= <-]. unfold int in Hint.
    destruct (match lstrip (rstrip k) with String _ _ => _ | _ => _ end) as [negative body].
    destruct (_ ≫= _); [done |]. injection Hint as <-. simpl. tauto.
Qed.

Lemma upsert_Err (found0 : option string) c updates existing_ids (data : graph) (e : error) :
  upsert found0 c updates existing_ids data = Err e → ¬ before_staging e.
Proof.
  unfold upsert. destruct (not_str found0).
  - by destruct (next_id existing_ids).
  - destruct (update_inputs data _ updates) eqn:Hupdate; [done |].
    intros [= <-]. by eapply update_inputs_Err.
Qed.

(** The ControlNet branch stages its image and does nothing else to the
    file system; when it stops at the check of its arguments it has done
    nothing. *)
Lemma insert_controlnet_changes (a : args) (data : graph) (w w' : world) (r : result graph) :
  insert_controlnet a data w = (r, w') →
  changed_by (stage_events a (home w) (default "" (control_image a))) w w' ∧
  match r with Err e => before_staging e → w' = w | Ok _ => True end.
Proof.
  unfold insert_controlnet.
  destruct (not_str (controlnet a) || not_str (control_image a))%bool.
  { intros [= <- <-]. split; [apply changed_by_refl | done]. }
  unfold bind, lift, raise.
  destruct (int_keys (keys data)) as [ids|e] eqn:Hids.
  2:{ intros [= <- <-]. split; [apply changed_by_refl | done]. }
  destruct (upsert _ _ _ ids data) as [[[control_id ids1] dA]|e] eqn:Hup1.
  2:{ intros [= <- <-]. split; [apply changed_by_refl | done]. }
  destruct (stage_image a _ w) as [[[source_image dest_path]|e] wA] eqn:Hstage.
  2:{ intros [= <- <-]. apply stage_image_changes in Hstage as [Hchanged Hearly].
      split; [done | by intros ?]. }
  apply stage_image_changes in Hstage as [Hchanged _].
  destruct (upsert _ _ _ ids1 dA) as [[[image_id ids2] dB]|e] eqn:Hup2.
  2:{ intros [= <- <-]. split; [done |]. intros Hearly. by apply upsert_Err in Hup2. }
  destruct (upsert _ _ _ ids2 dB) as [[[apply_id ids3] dC]|e] eqn:Hup3.
  2:{ intros [= <- <-]. split; [done |]. intros Hearly. by apply upsert_Err in Hup3. }
  destruct (not_str (find_node_id dC "KSampler")).
  { intros [= <- <-]. split; [done |]. simpl. by intros [|]. }
  destruct (update_inputs dC _ _) as [dD|e] eqn:Hup4; intros [= <- <-]; (split; [done |]).
  - done.
  - intros Hearly. by apply update_inputs_Err in Hup4.
Qed.

(** The same for the IPAdapter branch, none of whose errors is an error of
    an earlier check. *)
Lemma insert_ipadapter_changes (a : args) (data : graph) (w w' : world) (r : result graph) :
  insert_ipadapter a data w = (r, w') →
  changed_by (stage_events a (home w) (default "" (ipadapter_image a))) w w' ∧
  match r with Err e => ¬ before_staging e | Ok _ => True end.
Proof.
  unfold insert_ipadapter.
  destruct (not_str (ipadapter_image a)).
  { intros [= <- <-]. split; [apply changed_by_refl |]. simpl. done. }
  destruct (not_str (find_node_id data "LoraLoader")).
  { intros [= <- <-]. split; [apply changed_by_refl |]. simpl. tauto. }
  unfold bind, lift, raise.
  destruct (stage_image a _ w) as [[[source_image dest_path]|e] wA] eqn:Hstage.
  2:{ intros [= <- <-]. by apply stage_image_changes in Hstage. }
  apply stage_image_changes in Hstage as [Hchanged _].
  destruct (int_keys (keys data)) as [ids|e] eqn:Hids.
  2:{ intros [= <- <-]. split; [done |]. by eapply int_keys_Err. }
  match goal with
  | |- context [if negb (not_str ?f) then ?x else ?y] =>
      destruct (if negb (not_str f) then x else y) as [[[loader_id ids1] dA]|e] eqn:Hstep1
  end.
  2:{ intros [= <- <-]. split; [done |].
      match type of Hstep1 with
      | (if ?c then _ else _) = _ => destruct c
      end; [|by destruct (next_id ids)].
      destruct (replace_inputs data _ _) eqn:Hrep; [done |].
      injection Hstep1 as <-. by eapply replace_inputs_Err. }
  destruct (next_id ids1) as [image_id ids2].
  match goal with
  | |- context [if negb (not_str ?f) then ?x else ?y] =>
      destruct (if negb (not_str f) then x else y) as [[[advanced_id ids3] dC]|e] eqn:Hstep3
  end.
  2:{ intros [= <- <-]. split; [done |].
      match type of Hstep3 with
      | (if ?c then _ else _) = _ => destruct c
      end; [|by destruct (next_id ids2)].
      match type of Hstep3 with
      | match replace_inputs ?d ?i ?u with _ => _ end = _ =>
          destruct (replace_inputs d i u) eqn:Hrep; [done |];
          injection Hstep3 as <-; by eapply replace_inputs_Err
      end. }
  destruct (not_str (find_node_id dC "KSampler")).
  { intros [= <- <-]. split; [done |]. simpl. by intros [|]. }
  destruct (update_inputs dC _ _) as [dD|e] eqn:Hup4; intros [= <- <-]; (split; [done |]).
  - done.
  - by eapply update_inputs_Err.
Qed.

(** Patching stages the images of the requested insertions, in their order,
    and does nothing else to the file system; when it stops at a check that
    comes before the first staging, it has done nothing. *)
Lemma patch_graph_changes (a : args) positive_text negative_text (data : graph)
    (w w' : world) (r : result graph) :
  patch_graph a positive_text negative_text data w = (r, w') →
  changed_by (staging a (home w)) w w' ∧
  match r with Err e => before_staging e → w' = w | Ok _ => True end.
Proof.
  unfold patch_graph, bind, lift, ret, staging.
  destruct (inject_text a positive_text negative_text data) as [dA|e].
  2:{ intros [= <- <-]. split; [apply changed_by_refl | done]. }
  destruct (override_lora a dA) as [dB|e].
  2:{ intros [= <- <-]. split; [apply changed_by_refl | done]. }
  destruct (override_clip_layer a dB) as [dC|e].
  2:{ intros [= <- <-]. split; [apply changed_by_refl | done]. }
  destruct (add_controlnet a).
  - destruct (insert_controlnet a dC w) as [[dD|e] wD] eqn:Hcn.
    2:{ intros [= <- <-]. apply insert_controlnet_changes in Hcn as [Hchanged Hearly].
        split; [|done]. eapply changed_by_weaken; [|exact Hchanged].
        by apply sublist_inserts_r. }
    apply insert_controlnet_changes in Hcn as [Hchanged _].
    assert (home wD = home w) as Hhome by apply Hchanged.
    destruct (add_ipadapter a).
    + intros Hip. apply insert_ipadapter_changes in Hip as [Hchanged' Hlate].
      rewrite Hhome in Hchanged'.
      split; [exact (changed_by_trans _ _ _ _ _ Hchanged Hchanged') |].
      destruct r; [done | by intros ?].
    + intros [= <- <-]. split; [|done]. by rewrite app_nil_r.
  - destruct (add_ipadapter a).
    + intros Hip. apply insert_ipadapter_changes in Hip as [Hchanged' Hlate].
      split; [done |]. destruct r; [done | by intros ?].
    + intros [= <- <-]. split; [apply changed_by_refl | done].
Qed.
Section RunFacts.
Context `{RandomSource}.

(** C5, as the code has it.  The document is written at most once, as the
    last change of the run, and only when every requested mutation has
    succeeded.  A run that fails writes no document; what it may leave
    behind is the staging of the requested insertions: the input directory
    made and the reference images copied into it, in that order and nothing
    else.  When it fails at a check that comes before the first staging (the
    workflow file, the pools, the encoder roles, the node of a LoRA or CLIP
    override, the ControlNet arguments) the file system is as it was.  A dry
    run changes nothing.  Second part: when the workflow file is there, the
    prompt is generated, the run is no dry run, the patch succeeds and the
    write succeeds, the run returns 0 with the patched graph written to the
    output path (the workflow path when none is given). *)
Theorem document_written_once_at_the_end :
  (∀ (file : option pool_document) (a : args) (document : graph) (w w' : world)
     (g g' : rng_state) (r : result Z),
     main file a document (w, g) = (r, (w', g')) →
     match r with
     | Err e =>
         changed_by (staging a (home w)) w w' ∧ doc_writes w' = doc_writes w ∧
         (before_staging e → w' = w)
     | Ok _ =>
         if dry_run a then w' = w
         else ∃ positive_text negative_text data' w1,
             patch_graph a positive_text negative_text document w = (Ok data', w1) ∧
             changed_by (staging a (home w)) w w1 ∧
             events w' = events w1 ++ [WriteText (default (workflow a) (output a)) data']
     end)
  ∧ (∀ (file : option pool_document) (a : args) (document : graph) (w w1 w2 : world)
       (g g1 : rng_state) (positive_text negative_text : string) (data' : graph),
       found w (workflow a) = true →
       prompt_texts file a g = (Ok (positive_text, negative_text), g1) →
       dry_run a = false →
       patch_graph a positive_text negative_text document w = (Ok data', w1) →
       write_text (default (workflow a) (output a)) data' w1 = (Ok tt, w2) →
       main file a document (w, g) = (Ok 0, (w2, g1))).
Proof.
  split.
  - intros file a document w w' g g' r.
    unfold main, bind, lift_fs, lift_gen, path_exists, ret, raise.
    destruct (found w (workflow a)); simpl.
    2:{ intros [= <- <- <-]. split_and!; [apply changed_by_refl | done | done]. }
    destruct (prompt_texts file a g) as [[[positive_text negative_text]|e] g1].
    2:{ intros [= <- <- <-]. split_and!; [apply changed_by_refl | done | done]. }
    destruct (dry_run a).
    { by intros [= <- <- <-]. }
    destruct (patch_graph a positive_text negative_text document w) as [[data'|e] w1]
      eqn:Hpatch.
    2:{ intros [= <- <- <-]. apply patch_graph_changes in Hpatch as [Hchanged Hearly].
        split_and!; [done | by eapply staging_writes_no_document | done]. }
    pose proof (patch_graph_changes _ _ _ _ _ _ _ Hpatch) as [Hchanged _].
    destruct (write_text _ data' w1) as [[[]|e] w2] eqn:Hwrite;
      apply write_text_changes in Hwrite; intros [= <- <- <-].
    + exists positive_text, negative_text, data', w1. split_and!; [done | done | apply Hwrite].
    + destruct Hwrite as [-> Hlate].
      split_and!; [done | by eapply staging_writes_no_document | done].
  - intros file a document w w1 w2 g g1 positive_text negative_text data'
           Hfound Htexts Hdry Hpatch Hwrite.
    unfold main, bind, lift_fs, lift_gen, path_exists, ret, raise.
    rewrite Hfound. simpl. rewrite Htexts, Hdry, Hpatch. by rewrite Hwrite.
Qed.

(** C9, as the code has it.  In a run that is not a dry run, whose workflow
    file exists, whose prompt was generated and whose encoder ids and
    requested LoRA and CLIP overrides were accepted, the ControlNet branch
    raises [MissingArgumentError] when the control-net model name or the
    reference image is absent or empty, with the file system as it was before
    the run; and when both are given, the node ids are integers, the
    control-net loader node has been stored and the reference image is not
    there once the input directory has been made, the run raises
    [FileNotFoundError] for that image, the input directory being the only
    thing it created; when the input directory cannot be made, the run fails
    with the error of the operating system and the file system is as it
    was. *)
Theorem controlnet_arguments_checked (file : option pool_document) (a : args)
    (document : graph) (w : world) (g g' : rng_state)
    (positive_text negative_text : string) (data0 data1 data2 : graph) :
  add_controlnet a = true → dry_run a = false →
  found w (workflow a) = true →
  prompt_texts file a g = (Ok (positive_text, negative_text), g') →
  inject_text a positive_text negative_text document = Ok data0 →
  override_lora a data0 = Ok data1 →
  override_clip_layer a data1 = Ok data2 →
  ((not_str (controlnet a) || not_str (control_image a))%bool = true →
   main file a document (w, g) = (Err (MissingArgumentError "--add-controlnet"), (w, g')))
  ∧ (∀ existing_ids stored,
       not_str (controlnet a) = false → not_str (control_image a) = false →
       int_keys (keys data2) = Ok existing_ids →
       upsert (find_node_id data2 "ControlNetLoader") "ControlNetLoader"
         [("control_net_name", JStr (default "" (controlnet a)))] existing_ids data2
         = Ok stored →
       let source_image := expand (home w) (Path (default "" (control_image a))) in
       (∀ w1, mkdir (input_root a) w = (Ok tt, w1) →
              found w1 source_image = false →
              main file a document (w, g) = (Err (FileNotFoundError source_image), (w1, g'))
              ∧ changed_by [Mkdir (input_root a)] w w1)
       ∧ (∀ e w1, mkdir (input_root a) w = (Err e, w1) →
                  main file a document (w, g) = (Err e, (w, g')))).
Proof.
  intros Hcn Hdry Hwf Htexts Hinject Hlora Hclip.
  unfold main, bind, lift_fs, lift_gen, path_exists, ret, raise.
  rewrite Hwf. simpl. rewrite Htexts, Hdry.
  unfold patch_graph, bind, lift. rewrite Hinject, Hlora, Hclip, Hcn.
  unfold insert_controlnet. split.
  - intros ->. done.
  - intros ids [[control_id ids'] data3] Hmodel Himage Hids Hstored.
    rewrite Hmodel, Himage. simpl.
    unfold bind, lift. rewrite Hids, Hstored.
    unfold stage_image, bind, expanduser, path_exists, raise. split.
    + intros w1 Hmkdir Hmissing. rewrite Hmkdir.
      pose proof (mkdir_changes _ _ _ _ Hmkdir) as [Hchanged _].
      destruct Hchanged as (Hcwd & Hhome & Hevents). rewrite Hhome.
      rewrite Hmissing. simpl. split; [done |].
      by split_and!.
    + intros e w1 Hmkdir. rewrite Hmkdir.
      by apply mkdir_changes in Hmkdir as [_ [-> _]].
Qed.

End RunFacts.

(** C5, as the claim states it, fails: a run that requests the ControlNet
    insertion on a workflow without a sampler fails at the last step of the
    insertion, after it has made the input directory and copied the reference
    image into it; and when the workflow document lies in the input directory
    and the reference image has its name, that copy goes to the path of the
    workflow document. *)
Lemma failing_run_has_staged :
  (let run := @main lcg (Some ex_doc) ex_controlnet_args ex_graph_no_sampler (ex_world, 0) in
   run.1 = Err (NodeNotFoundError "KSampler")
   ∧ events run.2.1 = [Mkdir ["/"; "comfy"; "input"];
                       Copy ["/"; "tmp"; "pose.png"] ["/"; "comfy"; "input"; "pose.png"]]
   ∧ found ex_world ["/"; "comfy"; "input"; "pose.png"] = false
   ∧ found run.2.1 ["/"; "comfy"; "input"; "pose.png"] = true)
  ∧ (let run := @main lcg (Some ex_doc) ex_overwrite_args ex_graph_no_sampler
                  (ex_overwrite_world, 0) in
     run.1 = Err (NodeNotFoundError "KSampler")
     ∧ events run.2.1 = [Copy ["/"; "tmp"; "case.json"] (workflow ex_overwrite_args)]).
Proof. split; split_and!; vm_compute; reflexivity. Qed.

Lemma document_written_once_at_the_end_witness :
  (let run := @main lcg (Some ex_doc) ex_controlnet_args ex_graph_no_sampler (ex_world, 0) in
   changed_by (staging ex_controlnet_args (home ex_world)) ex_world run.2.1
   ∧ doc_writes run.2.1 = doc_writes ex_world
   ∧ (before_staging (NodeNotFoundError "KSampler") → run.2.1 = ex_world))
  ∧ @main lcg (Some ex_doc) ex_controlnet_args ex_graph (ex_world, 0)
    = (Ok 0, ({| cwd := cwd ex_staged; home := home ex_staged;
                 existing := existing ex_staged ++ [workflow ex_controlnet_args];
                 directories := directories ex_staged;
                 events := events ex_staged ++
                           [WriteText (workflow ex_controlnet_args) ex_written] |},
              1250496027)).
Proof.
  split.
  - apply (proj1 (@document_written_once_at_the_end lcg) (Some ex_doc) ex_controlnet_args
             ex_graph_no_sampler ex_world _ 0 1250496027
             (Err (NodeNotFoundError "KSampler"))).
    vm_compute. reflexivity.
  - apply (proj2 (@document_written_once_at_the_end lcg) (Some ex_doc) ex_controlnet_args
             ex_graph ex_world ex_staged _ 0 1250496027
             ex_texts.1
             ex_texts.2
             ex_written); vm_compute; reflexivity.
Defined.

(** C9, as the claim states it, fails: a dry run that requests the ControlNet
    insertion without its two arguments prints the prompt and ends normally,
    and a run whose positive encoder id names no node stops at that check. *)
Lemma controlnet_check_not_reached :
  add_controlnet (with_dry_run (with_controlnet ex_args None None)) = true
  ∧ controlnet (with_dry_run (with_controlnet ex_args None None)) = None
  ∧ (@main lcg (Some ex_doc) (with_dry_run (with_controlnet ex_args None None))
       ex_graph (ex_world, 0)).1 = Ok 0
  ∧ (@main lcg (Some ex_doc) (with_controlnet ex_args None None)
       [("3", JDict [("class_type", JStr "KSampler")])] (ex_world, 0)).1
    = Err (RoleMismatchError "6").
Proof. split_and!; vm_compute; reflexivity. Qed.

Lemma controlnet_arguments_checked_witness :
  @main lcg (Some ex_doc) (with_controlnet ex_args None None) ex_graph (ex_world, 0)
    = (Err (MissingArgumentError "--add-controlnet"), (ex_world, 1250496027))
  ∧ @main lcg (Some ex_doc)
      (with_controlnet ex_args (Some "cn.safetensors") (Some "/tmp/missing.png"))
      ex_graph (ex_world, 0)
    = (Err (FileNotFoundError ["/"; "tmp"; "missing.png"]),
       ({| cwd := cwd ex_world; home := home ex_world;
           existing := existing ex_world ++ [["/"; "comfy"; "input"]];
           directories := directories ex_world ++ [["/"; "comfy"; "input"]];
           events := events ex_world ++ [Mkdir ["/"; "comfy"; "input"]] |}, 1250496027)).
Proof.
  split.
  - eapply (proj1 (@controlnet_arguments_checked lcg (Some ex_doc)
                     (with_controlnet ex_args None None) ex_graph ex_world 0 _ _ _ _ _ _
                     eq_refl eq_refl ltac:(vm_compute; reflexivity)
                     ltac:(vm_compute; reflexivity)
                     ltac:(vm_compute; reflexivity) eq_refl eq_refl)).
    reflexivity.
  - pose proof (proj2 (@controlnet_arguments_checked lcg (Some ex_doc)
                (with_controlnet ex_args (Some "cn.safetensors") (Some "/tmp/missing.png"))
                ex_graph ex_world 0 _ _ _ _ _ _
                eq_refl eq_refl ltac:(vm_compute; reflexivity)
                ltac:(vm_compute; reflexivity)
                ltac:(vm_compute; reflexivity) eq_refl eq_refl)) as Hsecond.
    edestruct Hsecond as [Hthere _]; [reflexivity | reflexivity | vm_compute; reflexivity
                                     | vm_compute; reflexivity |].
    apply Hthere; vm_compute; reflexivity.
Defined.

(** ** Running the patch again *)

Lemma settled_class (data : graph) node_id c updates :
  settled data node_id c updates →
  ∃ node, od_get node_id data = Some node ∧ has_class node c = true.
Proof.
  intros (fields & inputs & Hget & Hclass & _). exists (JDict fields). split; [done |].
  unfold has_class. rewrite Hclass. apply String.eqb_refl.
Qed.

(** Updating a settled node is the identity. *)
Lemma settled_update (data : graph) node_id c updates :
  settled data node_id c updates → update_inputs data node_id updates = Ok data.
Proof.
  intros (fields & inputs & Hget & Hclass & Hin & Hall).
  unfold update_inputs, node_fields, inputs_of. rewrite Hget, Hin.
  cbn [dict]. rewrite od_update_same by done.
  by rewrite (od_set_same "inputs" _ fields Hin), (od_set_same node_id _ data Hget).
Qed.

(** After an update the node is settled. *)
Lemma update_settles (data : graph) node_id c updates data' node :
  od_get node_id data = Some node → has_class node c = true →
  NoDup (keys updates) →
  update_inputs data node_id updates = Ok data' →
  settled data' node_id c updates.
Proof.
  intros Hnode (fields0 & -> & Hclass)%has_class_dict Hnd
         (fields & inputs & Hget & Hin & ->)%update_inputs_Ok.
  assert (fields0 = fields) as -> by congruence.
  exists (od_set "inputs" (JDict (od_update inputs updates)) fields), (od_update inputs updates).
  rewrite !od_get_set_eq. split_and!; [done | by rewrite od_get_set_ne | done |].
  intros k v Hkv. by apply od_update_get.
Qed.

Lemma new_node_settles (data : graph) node_id c updates :
  NoDup (keys updates) → settled (od_set node_id (new_node c updates) data) node_id c updates.
Proof.
  intros Hnd. exists [("class_type", JStr c); ("inputs", JDict updates)], updates.
  rewrite od_get_set_eq. split_and!; [done | done | done |].
  intros k v Hkv. by apply od_elem_get.
Qed.

Lemma update_frame (data : graph) node_id c updates data' node :
  NoDup (keys data) →
  od_get node_id data = Some node → has_class node c = true →
  update_inputs data node_id updates = Ok data' →
  frame [c] data data' ∧ NoDup (keys data') ∧ keys data' = keys data ∧
  ∀ c', find_node_id data' c' = find_node_id data c'.
Proof.
  intros Hnd Hnode Hclass Hupdate.
  destruct (update_inputs_frame _ _ _ _ Hupdate) as (Hkeys & Hfind & Hother & _).
  split_and!; [split | by rewrite Hkeys | done | done].
  - intros c' _. apply Hfind.
  - intros id0 c0 updates0 Hne (fields & inputs & Hget & Hrest).
    exists fields, inputs. split; [|done].
    rewrite Hother; [done |]. intros ->.
    assert (node = JDict fields) as -> by congruence.
    apply Hne, list_elem_of_singleton. symmetry. eapply has_class_unique; [exact Hclass |].
    unfold has_class. destruct Hrest as [-> _]. apply String.eqb_refl.
Qed.

Lemma create_frame (data : graph) node_id c updates :
  NoDup (keys data) → node_id ∉ keys data →
  frame [c] data (od_set node_id (new_node c updates) data) ∧
  NoDup (keys (od_set node_id (new_node c updates) data)) ∧
  (find_node_id data c = None →
   find_node_id (od_set node_id (new_node c updates) data) c = Some node_id).
Proof.
  intros Hnd Hfresh. split_and!; [split | by apply NoDup_keys_od_set |].
  - intros c' Hne. rewrite find_node_id_fresh by done.
    destruct (find_node_id data c'); [done |].
    rewrite new_node_class. destruct (String.eqb_spec c c') as [->|_]; [|done].
    exfalso. apply Hne. by left.
  - intros id0 c0 updates0 _ (fields & inputs & Hget & Hrest).
    exists fields, inputs. split; [|done].
    rewrite od_get_set_ne; [done |]. intros ->.
    apply Hfresh, od_get_is_Some. by eexists.
  - intros Hnone. rewrite find_node_id_fresh, Hnone by done.
    by rewrite new_node_class, String.eqb_refl.
Qed.

Lemma frame_placed (classes : list string) (c0 : string) (data data' : graph)
    node_id updates :
  frame classes data data' → c0 ∉ classes →
  placed data c0 node_id updates → placed data' c0 node_id updates.
Proof.
  intros [Hfind Hsettled] Hne (Hfound & Hid & Hset).
  split_and!; [by rewrite Hfind | done | by apply Hsettled].
Qed.

Lemma find_node_id_key (data : graph) c node_id :
  NoDup (keys data) → find_node_id data c = Some node_id → node_id ∈ keys data.
Proof.
  intros Hnd Hfind. destruct (find_node_id_Some _ _ _ Hnd Hfind) as (node & Hget & _).
  apply od_get_is_Some. by eexists.
Qed.

Lemma reserved_nonempty existing_ids k : reserved existing_ids k → k ≠ "".
Proof. intros (n & Hint & _) ->. by rewrite int_empty in Hint. Qed.

Lemma not_str_Some (s : string) : s ≠ "" → not_str (Some s) = false.
Proof. by destruct s. Qed.

Lemma not_str_false (found : option string) :
  not_str found = false → ∃ s, found = Some s ∧ s ≠ "".
Proof. destruct found as [[|c s]|]; try done. intros _. by eexists. Qed.

(** What an upsert of the ControlNet branch achieves. *)
Lemma upsert_spec (data : graph) existing_ids c updates node_id existing_ids' data' :
  NoDup (keys data) → (∀ k, k ∈ keys data → reserved existing_ids k) →
  NoDup (keys updates) →
  upsert (find_node_id data c) c updates existing_ids data
    = Ok (node_id, existing_ids', data') →
  NoDup (keys data') ∧ (∀ k, k ∈ keys data' → reserved existing_ids' k) ∧
  placed data' c node_id updates ∧ frame [c] data data'.
Proof.
  intros Hnd Hres Hupd. unfold upsert.
  destruct (not_str (find_node_id data c)) eqn:Hfound.
  - (* a new node *)
    assert (find_node_id data c = None) as Hnone.
    { destruct (find_node_id data c) as [k|] eqn:Hfind; [|done].
      apply find_node_id_key in Hfind; [|done].
      apply Hres, reserved_nonempty in Hfind. by rewrite not_str_Some in Hfound. }
    pose proof (next_id_unreserved existing_ids) as Hfresh.
    pose proof (next_id_reserves existing_ids) as [Hnew Hold].
    destruct (next_id existing_ids) as [new ids'] eqn:Hnext. simpl in *.
    intros [= <- <- <-].
    assert (new ∉ keys data) as Hnotin by (intros Hin; by apply Hfresh, Hres).
    destruct (create_frame data new c updates Hnd Hnotin) as (Hframe & Hnd' & Hfind').
    split_and!; [done | | | done].
    + intros k Hk. rewrite keys_od_set_fresh in Hk by done.
      unfold keys in Hk. rewrite fmap_app in Hk.
      apply elem_of_app in Hk as [Hk|Hk%list_elem_of_singleton]; [by apply Hold, Hres |].
      by subst k.
    + split_and!; [by apply Hfind' | by eapply reserved_nonempty | by apply new_node_settles].
  - (* the node found is updated *)
    apply not_str_false in Hfound as (k & Hfind & Hk). rewrite Hfind. simpl.
    destruct (update_inputs data k updates) as [data1|] eqn:Hupdate; [|done].
    intros [= <- <- <-].
    destruct (find_node_id_Some _ _ _ Hnd Hfind) as (node & Hget & Hclass).
    destruct (update_frame _ _ _ _ _ _ Hnd Hget Hclass Hupdate)
      as (Hframe & Hnd' & Hkeys & Hfinds).
    split_and!; [done | by rewrite Hkeys | | done].
    split_and!; [by rewrite Hfinds | done | by eapply update_settles].
Qed.

(** An upsert of a placed node changes nothing and allocates nothing. *)
Lemma upsert_placed (data : graph) existing_ids c updates node_id :
  placed data c node_id updates →
  upsert (find_node_id data c) c updates existing_ids data = Ok (node_id, existing_ids, data).
Proof.
  intros (Hfind & Hid & Hset). unfold upsert.
  rewrite Hfind, not_str_Some by done. simpl.
  by rewrite (settled_update _ _ _ _ Hset).
Qed.

(** The find-then-update blocks: LoRA strengths, CLIP layer, sampler. *)
Lemma found_update_spec (data : graph) c updates data' :
  NoDup (keys data) → NoDup (keys updates) →
  not_str (find_node_id data c) = false →
  update_inputs data (default "" (find_node_id data c)) updates = Ok data' →
  ∃ node_id,
    placed data' c node_id updates ∧ frame [c] data data' ∧
    NoDup (keys data') ∧ keys data' = keys data.
Proof.
  intros Hnd Hupd (k & Hfind & Hk)%not_str_false. rewrite Hfind. simpl. intros Hupdate.
  destruct (find_node_id_Some _ _ _ Hnd Hfind) as (node & Hget & Hclass).
  destruct (update_frame _ _ _ _ _ _ Hnd Hget Hclass Hupdate)
    as (Hframe & Hnd' & Hkeys & Hfinds).
  exists k. split_and!; [split_and! | done | done | done].
  - by rewrite Hfinds.
  - done.
  - by eapply update_settles.
Qed.

Lemma found_update_placed (data : graph) c updates node_id :
  placed data c node_id updates →
  not_str (find_node_id data c) = false ∧
  update_inputs data (default "" (find_node_id data c)) updates = Ok data.
Proof.
  intros (Hfind & Hid & Hset). rewrite Hfind. simpl.
  split; [by apply not_str_Some | by eapply settled_update].
Qed.

Lemma int_keys_total (ks : list string) :
  (∀ k, k ∈ ks → ∃ n, int k = Ok n) → ∃ existing_ids, int_keys ks = Ok existing_ids.
Proof.
  induction ks as [|k ks IH]; intros Hall; simpl; [by eexists |].
  destruct (Hall k) as [n ->]; [by left |].
  destruct IH as [ids ->]; [|by eexists].
  intros k' Hk'. apply Hall. by right.
Qed.

Lemma frame_refl classes (data : graph) : frame classes data data.
Proof. by split. Qed.

Lemma frame_trans classes1 classes2 (data1 data2 data3 : graph) :
  frame classes1 data1 data2 → frame classes2 data2 data3 →
  frame (classes1 ++ classes2) data1 data3.
Proof.
  intros [Hfind1 Hset1] [Hfind2 Hset2]. split.
  - intros c [Hc1 Hc2]%not_elem_of_app. by rewrite Hfind2, Hfind1.
  - intros node_id c updates [Hc1 Hc2]%not_elem_of_app Hset. by apply Hset2, Hset1.
Qed.

Lemma inject_text_settles (a : args) positive_text negative_text (data data' : graph) :
  NoDup (keys data) →
  inject_text a positive_text negative_text data = Ok data' →
  NoDup (keys data') ∧
  settled data' (neg_node a) "CLIPTextEncode" [("text", JStr negative_text)] ∧
  (pos_node a ≠ neg_node a →
   settled data' (pos_node a) "CLIPTextEncode" [("text", JStr positive_text)]).
Proof.
  intros Hnd. unfold inject_text.
  destruct (od_get (pos_node a) data) as [[| | | | |pos_fields]|] eqn:Hpos; try done.
  destruct (has_class (JDict pos_fields) "CLIPTextEncode") eqn:Hpc; [|done].
  destruct (od_get (neg_node a) data) as [[| | | | |neg_fields]|] eqn:Hneg; try done.
  destruct (has_class (JDict neg_fields) "CLIPTextEncode") eqn:Hnc; [|done].
  destruct (inputs_of pos_fields) as [pos_inputs|] eqn:Hpi; [|done].
  destruct (inputs_of neg_fields) as [neg_inputs|] eqn:Hni; [|done].
  simpl. intros [= <-].
  apply has_class_dict in Hpc as (? & [= <-] & Hpclass).
  apply has_class_dict in Hnc as (? & [= <-] & Hnclass).
  split_and!.
  - by do 2 apply NoDup_keys_od_set.
  - eexists _, _. rewrite od_get_set_eq. split_and!; [done | | apply od_get_set_eq |].
    + by rewrite od_get_set_ne.
    + intros k v [= -> ->]%list_elem_of_singleton. apply od_get_set_eq.
  - intros Hne. eexists _, _. rewrite od_get_set_ne, od_get_set_eq by done.
    split_and!; [done | | apply od_get_set_eq |].
    + by rewrite od_get_set_ne.
    + intros k v [= -> ->]%list_elem_of_singleton. apply od_get_set_eq.
Qed.

Lemma settled_text_node (data : graph) node_id text :
  settled data node_id "CLIPTextEncode" [("text", JStr text)] →
  ∃ fields inputs,
    od_get node_id data = Some (JDict fields) ∧
    has_class (JDict fields) "CLIPTextEncode" = true ∧
    inputs_of fields = Ok inputs ∧
    od_set "inputs" (JDict (od_set "text" (JStr text) inputs)) fields = fields.
Proof.
  intros (fields & inputs & Hget & Hclass & Hin & Hall). exists fields, inputs.
  split_and!; [done | | |].
  - unfold has_class. by rewrite Hclass.
  - unfold inputs_of. by rewrite Hin.
  - rewrite (od_set_same "text" _ inputs) by (apply Hall; by left).
    by apply od_set_same.
Qed.

Lemma inject_text_settled (a : args) positive_text negative_text (data : graph) :
  settled data (neg_node a) "CLIPTextEncode" [("text", JStr negative_text)] →
  (pos_node a ≠ neg_node a →
   settled data (pos_node a) "CLIPTextEncode" [("text", JStr positive_text)]) →
  inject_text a positive_text negative_text data = Ok data.
Proof.
  intros (nf & ni & Hneg & Hnc & Hni & Hnsame)%settled_text_node Hpos.
  destruct (decide (pos_node a = neg_node a)) as [Heq|Hne].
  - rewrite (inject_text_Ok a positive_text negative_text data nf nf ni ni)
      by (by rewrite ?Heq).
    rewrite Hnsame, Heq, od_set_set. by rewrite od_set_same.
  - destruct (settled_text_node _ _ _ (Hpos Hne)) as (pf & pi & Hp & Hpc & Hpi & Hpsame).
    rewrite (inject_text_Ok a positive_text negative_text data pf nf pi ni) by done.
    rewrite Hnsame, Hpsame. rewrite (od_set_same (pos_node a)) by done.
    by rewrite od_set_same.
Qed.

Lemma lora_updates_NoDup (a : args) : NoDup (keys (lora_updates a)).
Proof.
  unfold lora_updates.
  destruct (lora_strength_model a), (lora_strength_clip a); simpl;
    repeat (apply NoDup_cons; split; [set_solver |]); apply NoDup_nil_2.
Qed.

Lemma override_lora_spec (a : args) (data data' : graph) :
  NoDup (keys data) → override_lora a data = Ok data' →
  NoDup (keys data') ∧ frame ["LoraLoader"] data data' ∧ lora_done a data'.
Proof.
  intros Hnd. unfold override_lora.
  destruct (lora_strength_model a) as [m|] eqn:Hm, (lora_strength_clip a) as [c|] eqn:Hc.
  4:{ intros [= <-]. split_and!; [done | apply frame_refl | by left]. }
  all: destruct (not_str (find_node_id data "LoraLoader")) eqn:Hfound; [done |];
    intros Hupdate;
    destruct (found_update_spec data "LoraLoader" (lora_updates a) data' Hnd
                (lora_updates_NoDup a) Hfound)
      as (node_id & Hplaced & Hframe & Hnd' & _);
    [by unfold lora_updates; rewrite Hm, Hc |];
    (split_and!; [done | done | right; by exists node_id]).
Qed.

Lemma lora_done_again (a : args) (data : graph) :
  lora_done a data → override_lora a data = Ok data.
Proof.
  unfold override_lora. intros [[-> ->]|[node_id Hplaced]]; [done |].
  destruct (found_update_placed _ _ _ _ Hplaced) as [Hfound Hupdate].
  unfold lora_updates in Hupdate.
  destruct (lora_strength_model a), (lora_strength_clip a); try done;
    by rewrite Hfound.
Qed.

Lemma frame_lora_done classes (a : args) (data data' : graph) :
  frame classes data data' → "LoraLoader" ∉ classes → lora_done a data → lora_done a data'.
Proof.
  intros Hframe Hne [Hnone|[node_id Hplaced]]; [by left | right].
  exists node_id. by eapply frame_placed.
Qed.

Lemma override_clip_layer_spec (a : args) (data data' : graph) :
  NoDup (keys data) → override_clip_layer a data = Ok data' →
  NoDup (keys data') ∧ frame ["CLIPSetLastLayer"] data data' ∧ clip_layer_done a data'.
Proof.
  intros Hnd. unfold override_clip_layer, clip_layer_done.
  destruct (clip_layer a) as [layer|].
  2:{ intros [= <-]. split_and!; [done | apply frame_refl | done]. }
  destruct (not_str (find_node_id data "CLIPSetLastLayer")) eqn:Hfound; [done |].
  intros Hupdate.
  destruct (found_update_spec data "CLIPSetLastLayer"
              [("stop_at_clip_layer", JNum (NInt layer))] data' Hnd
              (NoDup_singleton _) Hfound Hupdate)
    as (node_id & Hplaced & Hframe & Hnd' & _).
  split_and!; [done | done | by exists node_id].
Qed.

Lemma clip_layer_done_again (a : args) (data : graph) :
  clip_layer_done a data → override_clip_layer a data = Ok data.
Proof.
  unfold override_clip_layer, clip_layer_done.
  destruct (clip_layer a) as [layer|]; [|done].
  intros [node_id Hplaced].
  destruct (found_update_placed _ _ _ _ Hplaced) as [Hfound Hupdate].
  by rewrite Hfound.
Qed.

Lemma frame_clip_layer_done classes (a : args) (data data' : graph) :
  frame classes data data' → "CLIPSetLastLayer" ∉ classes →
  clip_layer_done a data → clip_layer_done a data'.
Proof.
  unfold clip_layer_done. intros Hframe Hne.
  destruct (clip_layer a) as [layer|]; [|done].
  intros [node_id Hplaced]. exists node_id. by eapply frame_placed.
Qed.

(** ** The file system at a second run *)

Lemma later_refl (w : world) : later w w.
Proof. by split_and!. Qed.

Lemma later_trans (w1 w2 w3 : world) : later w1 w2 → later w2 w3 → later w1 w3.
Proof.
  intros (Hc1 & Hh1 & Hd1 & He1) (Hc2 & Hh2 & Hd2 & He2).
  split_and!; [congruence | congruence | congruence | by etrans].
Qed.

Lemma is_dir_later (w w' : world) :
  cwd w' = cwd w → directories w' = directories w → ∀ q, is_dir w' q = is_dir w q.
Proof. unfold is_dir. by intros -> ->. Qed.

Lemma is_there_later (w w' : world) (q : path) :
  later w w' → is_there w q = true → is_there w' q = true.
Proof.
  unfold is_there. intros (-> & _ & -> & Hsub) Hq%bool_decide_eq_true.
  apply bool_decide_eq_true. destruct Hq as [?|[?|[?|?]]]; auto.
Qed.

Lemma walk_later (w w' : world) (p q : path) (parts : list string) :
  (∀ x, is_dir w' x = is_dir w x) → walk w' p q parts = walk w p q parts ∨
                                     ∃ e, walk w p q parts = Err e.
Proof.
  intros Hdirs. revert q. induction parts as [|part rest IH]; intros q; simpl; [by left |].
  destruct (String.eqb part ".."); [|apply IH].
  rewrite Hdirs. destruct (is_dir w q); [apply IH |].
  right. destruct (is_there w q); by eexists.
Qed.

Lemma locate_later (w w' : world) (p r : path) :
  later w w' → locate w p = Ok r → locate w' p = Ok r.
Proof.
  intros (Hcwd & _ & Hdirs & _). unfold locate.
  assert (anchor w' p = anchor w p) as -> by (unfold anchor; by rewrite Hcwd).
  destruct (anchor w p) as [start parts].
  destruct (walk_later w w' p start parts (is_dir_later _ _ Hcwd Hdirs)) as [->|[e ->]];
    done.
Qed.

Lemma found_later (w w' : world) (p : path) :
  later w w' → found w p = true → found w' p = true.
Proof.
  intros Hlater. unfold found. destruct (locate w p) as [q|] eqn:Hlocate; [|done].
  rewrite (locate_later _ _ _ _ Hlater Hlocate). by apply is_there_later.
Qed.

Lemma resolve_later (w w' : world) (p : path) : later w w' → resolve w' p = resolve w p.
Proof. intros (Hcwd & _). unfold resolve, anchor. by rewrite Hcwd. Qed.

(** A directory that was made is found at a later call. *)
Lemma mkdir_later (p : path) (w w1 w' : world) :
  mkdir p w = (Ok tt, w1) → later w1 w' → mkdir p w' = (Ok tt, w').
Proof.
  unfold mkdir. destruct (locate w p) as [q|] eqn:Hlocate; [|done].
  intros Hmkdir Hlater.
  assert (later w1 w1 ∧ locate w1 p = Ok q ∧ is_dir w1 q = true) as (_ & Hlocate1 & Hdir1).
  { destruct (is_dir w q) eqn:Hdir.
    { injection Hmkdir as <-. by split_and!; [apply later_refl | |]. }
    destruct (is_there w q); [done |].
    destruct (is_dir w (parent q)); [|by destruct (is_there w (parent q))].
    injection Hmkdir as <-. split_and!; [apply later_refl | |].
    - unfold locate in *. cbn [cwd] in *.
      assert (anchor {| cwd := cwd w; home := home w; existing := existing w ++ [q];
                        directories := directories w ++ [q];
                        events := events w ++ [Mkdir p] |} p = anchor w p) as -> by done.
      destruct (anchor w p) as [start parts]. revert Hlocate. generalize start.
      induction parts as [|part rest IH]; intros q0; simpl; [done |].
      destruct (String.eqb part ".."); [|apply IH].
      destruct (is_dir w q0) eqn:Hq0; [|by destruct (is_there w q0)].
      intros Hwalk. rewrite (IH _ Hwalk).
      assert (is_dir {| cwd := cwd w; home := home w; existing := existing w ++ [q];
                        directories := directories w ++ [q];
                        events := events w ++ [Mkdir p] |} q0 = true) as ->; [|done].
      apply bool_decide_eq_true in Hq0. apply bool_decide_eq_true. cbn [cwd directories].
      rewrite elem_of_app. tauto.
    - apply bool_decide_eq_true. cbn [directories]. right. right.
      apply elem_of_app. right. by left. }
  rewrite (locate_later _ _ _ _ Hlater Hlocate1).
  destruct Hlater as (Hcwd & _ & Hdirs & _).
  by rewrite (is_dir_later _ _ Hcwd Hdirs), Hdir1.
Qed.

Lemma mkdir_home (p : path) (w w1 : world) (r : result unit) :
  mkdir p w = (r, w1) → home w1 = home w ∧ cwd w1 = cwd w.
Proof. intros (Hcwd & Hhome & _)%mkdir_changes%proj1. done. Qed.

Lemma copy2_later_world (source dest : path) (w w1 : world) :
  copy2 source dest w = (Ok tt, w1) → later w w1.
Proof.
  unfold copy2. destruct (locate w source), (locate w dest); try done.
  repeat match goal with
         | |- context [if ?c then _ else _] => destruct c
         end; try done.
  all: intros [= <-]; (split_and!; [done | done | done |]); cbn [existing];
    intros q Hq; apply elem_of_app; by left.
Qed.

(** A copy that succeeded succeeds at a later call. *)
Lemma copy2_later (source dest : path) (w w1 w' : world) :
  copy2 source dest w = (Ok tt, w1) → later w w' →
  ∃ w'', copy2 source dest w' = (Ok tt, w'') ∧ later w' w''.
Proof.
  unfold copy2. intros Hcopy Hlater.
  destruct (locate w source) as [qs|] eqn:Hsource; [|done].
  destruct (locate w dest) as [qd|] eqn:Hdest; [|done].
  rewrite (locate_later _ _ _ _ Hlater Hsource), (locate_later _ _ _ _ Hlater Hdest).
  destruct (is_there w qs) eqn:Hthere; [|done].
  rewrite (is_there_later _ _ _ Hlater Hthere).
  destruct Hlater as (Hcwd & _ & Hdirs & _).
  rewrite !(is_dir_later _ _ Hcwd Hdirs). cbn [negb] in *.
  revert Hcopy.
  repeat match goal with
         | |- context [if ?c then _ else _] => destruct c
         end; try done.
  all: intros _; eexists; (split; [reflexivity |]);
    (split_and!; [done | done | done |]); cbn [existing];
    intros q Hq; apply elem_of_app; by left.
Qed.

(** A reference image that was staged once is staged again to the same
    place, at any later state of the file system. *)
Lemma stage_image_later (a : args) image (w wA w' : world) staged :
  stage_image a image w = (Ok staged, wA) → later wA w' →
  ∃ w'', stage_image a image w' = (Ok staged, w'') ∧ later w' w''.
Proof.
  unfold stage_image, bind, expanduser, path_exists, resolved, raise, ret.
  destruct (mkdir (input_root a) w) as [[[]|] w1] eqn:Hmkdir; [|done].
  destruct (mkdir_home _ _ _ _ Hmkdir) as [Hhome1 Hcwd1].
  destruct (found w1 (expand (home w1) (Path image))) eqn:Hfound; [|done].
  cbn [negb].
  assert (∀ w', later w1 w' →
            mkdir (input_root a) w' = (Ok tt, w') ∧
            found w' (expand (home w') (Path image)) = true ∧
            home w' = home w1 ∧
            ∀ p, resolve w' p = resolve w1 p) as Hsame.
  { intros w2 Hlater. split_and!.
    - by eapply mkdir_later.
    - rewrite (proj1 (proj2 Hlater)). by eapply found_later.
    - apply Hlater.
    - intros p. by apply resolve_later. }
  destruct (bool_decide (resolve w1 (expand (home w1) (Path image)) ≠ _)) eqn:Hne.
  - destruct (copy2 _ _ w1) as [[[]|] w2] eqn:Hcopy; [|done].
    intros [= <- <-] Hlater.
    pose proof (copy2_later_world _ _ _ _ Hcopy) as Hlater12.
    destruct (Hsame w' (later_trans _ _ _ Hlater12 Hlater)) as (-> & -> & -> & Hres).
    cbn [negb]. rewrite !Hres, Hne.
    destruct (copy2_later _ _ _ _ w' Hcopy (later_trans _ _ _ Hlater12 Hlater))
      as (w'' & -> & Hlater''). by exists w''.
  - intros [= <- <-] Hlater.
    destruct (Hsame w' Hlater) as (-> & -> & -> & Hres).
    cbn [negb]. rewrite !Hres, Hne. exists w'. split; [done | apply later_refl].
Qed.

Lemma stage_image_world (a : args) image (w w' : world) staged :
  stage_image a image w = (Ok staged, w') →
  cwd w' = cwd w ∧ home w' = home w.
Proof. intros (Hcwd & Hhome & _)%stage_image_changes%proj1. done. Qed.

Lemma stage_image_again (a : args) image (w w' : world) staged :
  stage_image a image w = (Ok staged, w') →
  ∃ w'', stage_image a image w' = (Ok staged, w'').
Proof.
  intros Hstage. destruct (stage_image_later _ _ _ _ w' _ Hstage (later_refl _))
    as (w'' & Hagain & _). by exists w''.
Qed.

(** The ControlNet branch, run on its own result, returns it unchanged. *)
Lemma insert_controlnet_again (a : args) (data d1 : graph) (w w1 : world) :
  NoDup (keys data) →
  insert_controlnet a data w = (Ok d1, w1) →
  NoDup (keys d1) ∧
  frame ["ControlNetLoader"; "LoadImage"; "ControlNetApplyAdvanced"; "KSampler"] data d1 ∧
  is_Some (find_node_id d1 "ControlNetLoader") ∧
  is_Some (find_node_id d1 "LoadImage") ∧
  is_Some (find_node_id d1 "ControlNetApplyAdvanced") ∧
  ∃ w2, insert_controlnet a d1 w1 = (Ok d1, w2).
Proof.
  intros Hnd. unfold insert_controlnet.
  destruct (not_str (controlnet a) || not_str (control_image a))%bool eqn:Hargs; [done |].
  unfold bind, lift, raise.
  destruct (int_keys (keys data)) as [ids|] eqn:Hids; [|done].
  destruct (upsert (find_node_id data "ControlNetLoader") _ _ ids data)
    as [[[control_id ids1] dA]|] eqn:Hup1; [|done].
  destruct (stage_image a _ w) as [[[source_image dest_path]|] wA] eqn:Hstage; [|done].
  destruct (upsert (find_node_id data "LoadImage") _ _ ids1 dA)
    as [[[image_id ids2] dB]|] eqn:Hup2; [|done].
  destruct (upsert (find_node_id data "ControlNetApplyAdvanced") _ _ ids2 dB)
    as [[[apply_id ids3] dC]|] eqn:Hup3; [|done].
  destruct (not_str (find_node_id dC "KSampler")) eqn:Hsampler; [done |].
  destruct (update_inputs dC _ _) as [dD|] eqn:Hup4; [|done].
  intros [= <- <-].
  (* the first run *)
  pose proof (int_keys_reserved _ _ Hids) as Hres.
  assert (∀ key (value : json), NoDup (keys [(key, value)])) as Hsingle.
  { intros key value. apply NoDup_singleton. }
  destruct (upsert_spec _ _ _ _ _ _ _ Hnd Hres (Hsingle _ _) Hup1)
    as (HndA & HresA & Hp1 & Hf1).
  rewrite <- (proj1 Hf1 "LoadImage") in Hup2 by set_solver.
  destruct (upsert_spec _ _ _ _ _ _ _ HndA HresA (Hsingle _ _) Hup2)
    as (HndB & HresB & Hp2 & Hf2).
  rewrite <- (proj1 Hf1 "ControlNetApplyAdvanced") in Hup3 by set_solver.
  rewrite <- (proj1 Hf2 "ControlNetApplyAdvanced") in Hup3 by set_solver.
  assert (NoDup (keys [("positive", ref (pos_node a) 0); ("negative", ref (neg_node a) 0);
                       ("control_net", ref control_id 0); ("image", ref image_id 0);
                       ("strength", JNum (control_strength a));
                       ("start_percent", JNum (control_start a));
                       ("end_percent", JNum (control_end a))])) as Hkeys3.
  { unfold keys. simpl. apply (bool_decide_unpack _). vm_compute. exact I. }
  destruct (upsert_spec _ _ _ _ _ _ _ HndB HresB Hkeys3 Hup3)
    as (HndC & HresC & Hp3 & Hf3).
  assert (NoDup (keys [("positive", ref apply_id 0); ("negative", ref apply_id 1)]))
    as Hkeys4.
  { unfold keys. simpl. apply (bool_decide_unpack _). vm_compute. exact I. }
  destruct (found_update_spec _ _ _ _ HndC Hkeys4 Hsampler Hup4)
    as (sampler_id & Hp4 & Hf4 & HndD & HkeysD).
  (* what holds of the result *)
  assert (placed dD "ControlNetLoader" control_id
            [("control_net_name", JStr (default "" (controlnet a)))]) as Hq1.
  { apply (frame_placed _ _ _ _ _ _ Hf4); [set_solver |].
    apply (frame_placed _ _ _ _ _ _ Hf3); [set_solver |].
    apply (frame_placed _ _ _ _ _ _ Hf2); [set_solver | exact Hp1]. }
  assert (placed dD "LoadImage" image_id [("image", JStr (name source_image))]) as Hq2.
  { apply (frame_placed _ _ _ _ _ _ Hf4); [set_solver |].
    apply (frame_placed _ _ _ _ _ _ Hf3); [set_solver | exact Hp2]. }
  pose proof (λ Hne, frame_placed _ _ _ _ _ _ Hf4 Hne Hp3) as Hq3.
  specialize (Hq3 ltac:(set_solver)).
  split_and!.
  - done.
  - exact (frame_trans _ _ _ _ _ (frame_trans _ _ _ _ _ (frame_trans _ _ _ _ _ Hf1 Hf2) Hf3) Hf4).
  - destruct Hq1 as [-> _]. by eexists.
  - destruct Hq2 as [-> _]. by eexists.
  - destruct Hq3 as [-> _]. by eexists.
  - (* the second run *)
    destruct (int_keys_total (keys dD)) as [ids' Hids'].
    { intros k Hk. rewrite HkeysD in Hk. destruct (HresC k Hk) as (n & Hn & _). by exists n. }
    destruct (stage_image_again _ _ _ _ _ Hstage) as [w2 Hstage'].
    exists w2. rewrite Hids'.
    rewrite (upsert_placed _ ids' _ _ _ Hq1).
    rewrite Hstage'.
    rewrite (upsert_placed _ ids' _ _ _ Hq2).
    rewrite (upsert_placed _ ids' _ _ _ Hq3).
    destruct (found_update_placed _ _ _ _ Hp4) as [-> ->]. done.
Qed.

(** C3. A run with the ControlNet insertion (and without the IPAdapter
    insertion), applied to the graph it has just produced with the same
    parameters, returns that graph unchanged: the same node ids in the same
    order with the same records.  The second run finds the control-net
    loader, the image loader and the conditioning applier of the first and
    allocates no id. *)
Theorem controlnet_insertion_idempotent (a : args) (positive_text negative_text : string)
    (data d1 : graph) (w w1 : world) :
  add_controlnet a = true → add_ipadapter a = false →
  NoDup (keys data) →
  patch_graph a positive_text negative_text data w = (Ok d1, w1) →
  is_Some (find_node_id d1 "ControlNetLoader") ∧
  is_Some (find_node_id d1 "LoadImage") ∧
  is_Some (find_node_id d1 "ControlNetApplyAdvanced") ∧
  ∃ w2, patch_graph a positive_text negative_text d1 w1 = (Ok d1, w2).
Proof.
  intros Hcn Hip Hnd. unfold patch_graph, bind, lift, ret. rewrite Hcn, Hip.
  destruct (inject_text a positive_text negative_text data) as [dA|] eqn:Hinject; [|done].
  destruct (override_lora a dA) as [dB|] eqn:Hlora; [|done].
  destruct (override_clip_layer a dB) as [dC|] eqn:Hclip; [|done].
  destruct (insert_controlnet a dC w) as [[dD|] wD] eqn:Hinsert; [|done].
  intros [= <- <-].
  destruct (inject_text_settles _ _ _ _ _ Hnd Hinject) as (HndA & Hneg & Hpos).
  destruct (override_lora_spec _ _ _ HndA Hlora) as (HndB & HfB & HloraB).
  destruct (override_clip_layer_spec _ _ _ HndB Hclip) as (HndC & HfC & HclipC).
  destruct (insert_controlnet_again _ _ _ _ _ HndC Hinsert)
    as (HndD & HfD & Hc1 & Hc2 & Hc3 & w2 & Hagain).
  pose proof (frame_trans _ _ _ _ _ (frame_trans _ _ _ _ _ HfB HfC) HfD) as Hframe.
  split_and!; [done | done | done |]. exists w2.
  rewrite (inject_text_settled a positive_text negative_text dD).
  - rewrite (lora_done_again a dD).
    + rewrite (clip_layer_done_again a dD); [by rewrite Hagain |].
      by apply (frame_clip_layer_done _ _ _ _ HfD); [set_solver |].
    + apply (frame_lora_done _ _ _ _ (frame_trans _ _ _ _ _ HfC HfD)); [set_solver | done].
  - apply (proj2 Hframe); [set_solver | done].
  - intros Hne. apply (proj2 Hframe); [set_solver | by apply Hpos].
Qed.

Lemma controlnet_insertion_idempotent_witness :
  ∃ d1 w1 w2,
    patch_graph (with_controlnet ex_args (Some "cn.safetensors") (Some "/tmp/pose.png"))
      "P" "N" ex_graph ex_world = (Ok d1, w1) ∧
    patch_graph (with_controlnet ex_args (Some "cn.safetensors") (Some "/tmp/pose.png"))
      "P" "N" d1 w1 = (Ok d1, w2).
Proof.
  destruct (patch_graph
              (with_controlnet ex_args (Some "cn.safetensors") (Some "/tmp/pose.png"))
              "P" "N" ex_graph ex_world) as [[d1|e] w1] eqn:Hrun.
  - destruct (controlnet_insertion_idempotent
                (with_controlnet ex_args (Some "cn.safetensors") (Some "/tmp/pose.png"))
                "P" "N" ex_graph d1 ex_world w1 eq_refl eq_refl) as (_ & _ & _ & w2 & Hagain).
    + unfold keys. simpl. apply (bool_decide_unpack _). vm_compute. exact I.
    + exact Hrun.
    + exists d1, w1, w2. split; [reflexivity | exact Hagain].
  - exfalso. vm_compute in Hrun. discriminate Hrun.
Defined.

(** ** Node ids *)

Lemma ids_from_app (n : Z) (count more : nat) :
  ids_from n (count + more) = ids_from n count ++ ids_from (n + Z.of_nat count) more.
Proof.
  revert n. induction count as [|count IH]; intros n.
  - cbn [Nat.add ids_from app]. f_equal. lia.
  - cbn [Nat.add ids_from app]. rewrite IH. do 3 f_equal. lia.
Qed.

Lemma max_id_insert (existing_ids : gset Z) (n : Z) :
  (∀ m, m ∈ existing_ids → m < n) → max_id ({[n]} ∪ existing_ids) = Some n.
Proof.
  intros Hlt. destruct (max_id ({[n]} ∪ existing_ids)) as [m|] eqn:Hmax.
  - apply max_id_Some in Hmax as [Hin Hle]. f_equal.
    apply elem_of_union in Hin as [Hin%elem_of_singleton|Hin]; [done |].
    specialize (Hlt _ Hin). assert (n ≤ m) by (apply Hle; set_solver). lia.
  - apply max_id_None in Hmax. set_solver.
Qed.

(** The number [next_id] picks: one more than the largest of the set. *)
Lemma next_id_top (existing_ids : gset Z) :
  next_id existing_ids =
    (str (default 0 (max_id existing_ids) + 1),
     {[default 0 (max_id existing_ids) + 1]} ∪ existing_ids) ∧
  (∀ m, m ∈ existing_ids → m < default 0 (max_id existing_ids) + 1).
Proof.
  unfold next_id. destruct (max_id existing_ids) as [m|] eqn:Hmax; simpl.
  - split; [done |]. intros n Hn. apply max_id_Some in Hmax as [_ Hle].
    specialize (Hle _ Hn). lia.
  - split; [done |]. apply max_id_None in Hmax. subst. set_solver.
Qed.

Lemma int_keys_app (ks : list string) (k : string) (n : Z) (existing_ids : gset Z) :
  int_keys ks = Ok existing_ids → int k = Ok n →
  int_keys (ks ++ [k]) = Ok ({[n]} ∪ existing_ids).
Proof.
  intros Hks Hk. revert existing_ids Hks.
  induction ks as [|k0 ks IH]; intros ids; simpl.
  - intros [= <-]. by rewrite Hk.
  - destruct (int k0) as [n0|]; [|done].
    destruct (int_keys ks) as [ids0|]; [|done].
    intros [= <-]. rewrite (IH ids0 eq_refl). f_equal. set_solver.
Qed.

Lemma allocated_start (data : graph) : NoDup (keys data) → allocated data 0 data.
Proof. intros Hnd. split_and!; [by rewrite app_nil_r | done | simpl; lia]. Qed.

Lemma allocated_shape (data0 data data' : graph) (count : nat) :
  allocated data0 count data → keys data' = keys data → allocated data0 count data'.
Proof. unfold allocated, top_id. by intros Halloc ->. Qed.

Lemma top_id_int_keys (data : graph) (existing_ids : gset Z) :
  int_keys (keys data) = Ok existing_ids → default 0 (max_id existing_ids) = top_id data.
Proof. unfold top_id. by intros ->. Qed.

(** A node stored under the next id: the id is new, it is the number after
    the largest, and the allocator's set is again that of the graph. *)
Lemma allocated_create (data0 data : graph) (count : nat) (existing_ids : gset Z)
    (node : json) :
  allocated data0 count data → int_keys (keys data) = Ok existing_ids →
  ((next_id existing_ids).1 ∉ keys data) ∧
  (next_id existing_ids).1 = str (top_id data0 + Z.of_nat count + 1) ∧
  allocated data0 (count + 1) (od_set (next_id existing_ids).1 node data) ∧
  int_keys (keys (od_set (next_id existing_ids).1 node data)) = Ok (next_id existing_ids).2.
Proof.
  intros (Hkeys & Hnd & Htop) Hids.
  pose proof (next_id_unreserved existing_ids) as Hfresh.
  assert ((next_id existing_ids).1 ∉ keys data) as Hnotin.
  { intros Hin. by apply Hfresh, (int_keys_reserved _ _ Hids). }
  destruct (next_id_top existing_ids) as [Hnext Hlt].
  rewrite (top_id_int_keys _ _ Hids), Htop in Hnext, Hlt.
  rewrite Hnext in *. cbn [fst snd] in *.
  assert (keys (od_set (str (top_id data0 + Z.of_nat count + 1)) node data)
          = keys data ++ [str (top_id data0 + Z.of_nat count + 1)]) as Hkeys'.
  { rewrite keys_od_set_fresh by done. unfold keys. by rewrite fmap_app. }
  assert (int_keys (keys (od_set (str (top_id data0 + Z.of_nat count + 1)) node data))
          = Ok ({[top_id data0 + Z.of_nat count + 1]} ∪ existing_ids)) as Hids'.
  { rewrite Hkeys'. apply int_keys_app; [done | apply int_str]. }
  split_and!; [done | done | | done]. split_and!.
  - rewrite Hkeys', Hkeys, ids_from_app, <- app_assoc. cbn [ids_from].
    do 4 f_equal. lia.
  - by apply NoDup_keys_od_set.
  - unfold top_id at 1. rewrite Hids', (max_id_insert _ _ Hlt). simpl. lia.
Qed.

(** Storing the inputs of a node changes no key and no search. *)
Lemma store_shape (data : graph) node_id fields (inputs : json) :
  od_get node_id data = Some (JDict fields) →
  keys (od_set node_id (JDict (od_set "inputs" inputs fields)) data) = keys data ∧
  ∀ c, find_node_id (od_set node_id (JDict (od_set "inputs" inputs fields)) data) c
       = find_node_id data c.
Proof.
  intros Hget. split.
  - apply keys_od_set_present, od_get_is_Some. by eexists.
  - intros c. eapply find_node_id_replace; [done | apply has_class_inputs].
Qed.

Lemma create_find (data : graph) node_id c inputs c' :
  node_id ∉ keys data → c' ≠ c →
  find_node_id (od_set node_id (new_node c inputs) data) c' = find_node_id data c'.
Proof.
  intros Hfresh Hne. rewrite find_node_id_fresh by done.
  destruct (find_node_id data c'); [done |].
  rewrite new_node_class. by destruct (String.eqb_spec c c').
Qed.

Lemma upsert_allocated (found0 : option string) c inputs existing_ids (data : graph)
    node_id existing_ids' data' (data0 : graph) (count : nat) :
  allocated data0 count data → int_keys (keys data) = Ok existing_ids →
  upsert found0 c inputs existing_ids data = Ok (node_id, existing_ids', data') →
  allocated data0 (count + (if not_str found0 then 1 else 0)) data' ∧
  int_keys (keys data') = Ok existing_ids' ∧
  ∀ c', c' ≠ c → find_node_id data' c' = find_node_id data c'.
Proof.
  intros Halloc Hids. unfold upsert. destruct (not_str found0).
  - destruct (allocated_create _ _ _ _ (new_node c inputs) Halloc Hids)
      as (Hfresh & _ & Halloc' & Hids').
    destruct (next_id existing_ids) as [new ids']. cbn [fst snd] in *.
    intros [= <- <- <-]. split_and!; [done | done |].
    intros c' Hne. by apply create_find.
  - destruct (update_inputs data _ inputs) as [data1|] eqn:Hupdate; [|done].
    intros [= <- <- <-].
    destruct (update_inputs_frame _ _ _ _ Hupdate) as (Hkeys & Hfind & _).
    rewrite Nat.add_0_r. split_and!.
    + by eapply allocated_shape.
    + by rewrite Hkeys.
    + intros c' _. apply Hfind.
Qed.

Lemma replace_or_create_allocated (found0 : option string) c inputs existing_ids
    (data : graph) node_id existing_ids' data' (data0 : graph) (count : nat) :
  allocated data0 count data → int_keys (keys data) = Ok existing_ids →
  replace_or_create found0 c inputs existing_ids data = Ok (node_id, existing_ids', data') →
  allocated data0 (count + (if not_str found0 then 1 else 0)) data' ∧
  int_keys (keys data') = Ok existing_ids' ∧
  ∀ c', c' ≠ c → find_node_id data' c' = find_node_id data c'.
Proof.
  intros Halloc Hids. unfold replace_or_create. destruct (not_str found0); cbn [negb].
  - destruct (allocated_create _ _ _ _ (new_node c inputs) Halloc Hids)
      as (Hfresh & _ & Halloc' & Hids').
    destruct (next_id existing_ids) as [new ids']. cbn [fst snd] in *.
    intros [= <- <- <-]. split_and!; [done | done |].
    intros c' Hne. by apply create_find.
  - destruct (replace_inputs data _ inputs) as [data1|] eqn:Hreplace; [|done].
    intros [= <- <- <-].
    apply replace_inputs_Ok in Hreplace as (fields & Hget & ->).
    destruct (store_shape data _ fields (JDict inputs) Hget) as [Hkeys Hfind].
    rewrite Nat.add_0_r. split_and!.
    + by eapply allocated_shape.
    + by rewrite Hkeys.
    + intros c' _. apply Hfind.
Qed.

Lemma missing_same (data data' : graph) (classes : list string) :
  (∀ c, c ∈ classes → find_node_id data' c = find_node_id data c) →
  missing data' classes = missing data classes.
Proof.
  unfold missing. induction classes as [|c classes IH]; intros Hfind; simpl; [done |].
  rewrite Hfind by (by left). rewrite IH; [done |].
  intros c' Hc'. apply Hfind. by right.
Qed.

(** The ids of the ControlNet branch. *)
Lemma insert_controlnet_allocated (a : args) (data0 data d1 : graph) (count : nat)
    (w w1 : world) :
  allocated data0 count data →
  insert_controlnet a data w = (Ok d1, w1) →
  allocated data0
    (count + missing data ["ControlNetLoader"; "LoadImage"; "ControlNetApplyAdvanced"]) d1 ∧
  ∀ c, c ∉ ["ControlNetLoader"; "LoadImage"; "ControlNetApplyAdvanced"] →
       find_node_id d1 c = find_node_id data c.
Proof.
  intros Halloc. unfold insert_controlnet.
  destruct (not_str (controlnet a) || not_str (control_image a))%bool; [done |].
  unfold bind, lift, raise.
  destruct (int_keys (keys data)) as [ids|] eqn:Hids; [|done].
  destruct (upsert (find_node_id data "ControlNetLoader") _ _ ids data)
    as [[[control_id ids1] dA]|] eqn:Hup1; [|done].
  destruct (stage_image a _ w) as [[[source_image dest_path]|] wA]; [|done].
  destruct (upsert (find_node_id data "LoadImage") _ _ ids1 dA)
    as [[[image_id ids2] dB]|] eqn:Hup2; [|done].
  destruct (upsert (find_node_id data "ControlNetApplyAdvanced") _ _ ids2 dB)
    as [[[apply_id ids3] dC]|] eqn:Hup3; [|done].
  destruct (not_str (find_node_id dC "KSampler")); [done |].
  destruct (update_inputs dC _ _) as [dD|] eqn:Hup4; [|done].
  intros [= <- <-].
  destruct (upsert_allocated _ _ _ _ _ _ _ _ _ _ Halloc Hids Hup1) as (HallocA & HidsA & HfA).
  destruct (upsert_allocated _ _ _ _ _ _ _ _ _ _ HallocA HidsA Hup2) as (HallocB & HidsB & HfB).
  destruct (upsert_allocated _ _ _ _ _ _ _ _ _ _ HallocB HidsB Hup3) as (HallocC & HidsC & HfC).
  destruct (update_inputs_frame _ _ _ _ Hup4) as (Hkeys & Hfind & _).
  split.
  - apply (allocated_shape _ dC); [|done].
    unfold missing. cbn [sum_list_with]. by rewrite Nat.add_0_r, !Nat.add_assoc.
  - intros c Hc. rewrite Hfind, HfC, HfB, HfA; [done | | |]; intros ->; set_solver.
Qed.

Lemma loader_class_other (a : args) : "IPAdapterAdvanced" ≠ loader_class a.
Proof. unfold loader_class. by destruct (ipadapter_community a). Qed.

(** The ids of the IPAdapter branch. *)
Lemma insert_ipadapter_allocated (a : args) (data0 data d1 : graph) (count : nat)
    (w w1 : world) :
  allocated data0 count data →
  insert_ipadapter a data w = (Ok d1, w1) →
  allocated data0
    (count + (missing data [loader_class a] + 1 + missing data ["IPAdapterAdvanced"])) d1.
Proof.
  intros Halloc. rewrite insert_ipadapter_eq.
  destruct (not_str (ipadapter_image a)); [done |].
  destruct (not_str (find_node_id data "LoraLoader")); [done |].
  unfold bind, lift, raise.
  destruct (stage_image a _ w) as [[[source_image dest_path]|] wA]; [|done].
  destruct (int_keys (keys data)) as [ids|] eqn:Hids; [|done].
  destruct (replace_or_create (find_node_id data (loader_class a)) _ _ ids data)
    as [[[loader_id ids1] dA]|] eqn:Hup1; [|done].
  cbv zeta.
  destruct (replace_or_create_allocated _ _ _ _ _ _ _ _ _ _ Halloc Hids Hup1)
    as (HallocA & HidsA & HfA).
  destruct (allocated_create _ _ _ _
              (new_node "LoadImage" [("image", JStr (name dest_path))]) HallocA HidsA)
    as (Hfresh & _ & HallocB & HidsB).
  assert (find_node_id
            (od_set (next_id ids1).1
               (new_node "LoadImage" [("image", JStr (name dest_path))]) dA)
            "IPAdapterAdvanced" = find_node_id data "IPAdapterAdvanced") as ->.
  { rewrite create_find by done. apply HfA, loader_class_other. }
  destruct (replace_or_create (find_node_id data "IPAdapterAdvanced") _ _ _ _)
    as [[[advanced_id ids3] dC]|] eqn:Hup3; [|done].
  destruct (not_str (find_node_id dC "KSampler")); [done |].
  destruct (update_inputs dC _ _) as [dD|] eqn:Hup4; [|done].
  intros [= <- <-].
  destruct (replace_or_create_allocated _ _ _ _ _ _ _ _ _ _ HallocB HidsB Hup3)
    as (HallocC & _ & _).
  destruct (update_inputs_frame _ _ _ _ Hup4) as (Hkeys & _).
  apply (allocated_shape _ dC); [|done].
  unfold missing. cbn [sum_list_with]. by rewrite !Nat.add_0_r, !Nat.add_assoc.
Qed.

(** The text and the overrides change no key and no search. *)
Lemma inject_text_shape (a : args) positive_text negative_text (data data' : graph) :
  inject_text a positive_text negative_text data = Ok data' →
  keys data' = keys data ∧ ∀ c, find_node_id data' c = find_node_id data c.
Proof.
  unfold inject_text.
  destruct (od_get (pos_node a) data) as [[| | | | |pos_fields]|] eqn:Hpos; try done.
  destruct (has_class (JDict pos_fields) "CLIPTextEncode"); [|done].
  destruct (od_get (neg_node a) data) as [[| | | | |neg_fields]|] eqn:Hneg; try done.
  destruct (has_class (JDict neg_fields) "CLIPTextEncode"); [|done].
  destruct (inputs_of pos_fields) as [pos_inputs|]; [|done].
  destruct (inputs_of neg_fields) as [neg_inputs|]; [|done].
  cbn [negb]. intros [= <-].
  assert (keys (od_set (pos_node a)
                  (JDict (od_set "inputs"
                            (JDict (od_set "text" (JStr positive_text) pos_inputs))
                            pos_fields)) data) = keys data) as Hkeys
    by (by apply store_shape).
  split.
  - rewrite keys_od_set_present; [done |]. rewrite Hkeys.
    apply od_get_is_Some. by eexists.
  - intros c. rewrite <- (proj2 (store_shape data _ _
                                   (JDict (od_set "text" (JStr positive_text) pos_inputs))
                                   Hpos) c).
    destruct (decide (pos_node a = neg_node a)) as [Heq|Hne].
    + eapply find_node_id_replace; [rewrite Heq; apply od_get_set_eq |].
      rewrite !has_class_inputs. congruence.
    + eapply find_node_id_replace; [by rewrite od_get_set_ne |].
      apply has_class_inputs.
Qed.

Lemma found_update_shape (data data' : graph) (c : string) updates :
  (if not_str (find_node_id data c) then Err (NodeNotFoundError c)
   else update_inputs data (default "" (find_node_id data c)) updates) = Ok data' →
  keys data' = keys data ∧ ∀ c', find_node_id data' c' = find_node_id data c'.
Proof.
  destruct (not_str _); [done |].
  intros (Hkeys & Hfind & _)%update_inputs_frame. done.
Qed.

Lemma override_lora_shape (a : args) (data data' : graph) :
  override_lora a data = Ok data' →
  keys data' = keys data ∧ ∀ c, find_node_id data' c = find_node_id data c.
Proof.
  unfold override_lora.
  destruct (lora_strength_model a), (lora_strength_clip a);
    try apply found_update_shape.
  by intros [= <-].
Qed.

Lemma override_clip_layer_shape (a : args) (data data' : graph) :
  override_clip_layer a data = Ok data' →
  keys data' = keys data ∧ ∀ c, find_node_id data' c = find_node_id data c.
Proof.
  unfold override_clip_layer. destruct (clip_layer a); [apply found_update_shape |].
  by intros [= <-].
Qed.

(** C6. Node-id allocation.  [next_id] returns the decimal form of a number
    that is not in the allocator's set, is larger than every number in it and
    follows one of them (it is 1 for the empty set), and adds it to the set.
    In a patch session the ControlNet branch stores one new node for each of
    its three classes that has no node, the IPAdapter branch one for its
    loader and one for its adapter node when they have none and one image
    loader in any case; the keys of the resulting graph are the keys of the
    loaded graph, in their order, followed by the new ids, which are the
    numbers after the largest key of the loaded graph in increasing order,
    one for each node made; no key occurs twice.  So an allocated id is
    never the id of a node of the graph nor one allocated before it, in the
    ControlNet branch, in the IPAdapter branch and when both run in one
    pass.  A graph with the keys 1 and 3 yields 4, then 5. *)
Theorem next_id_never_reuses :
  (∀ existing_ids, ∃ new_id,
      next_id existing_ids = (str new_id, {[new_id]} ∪ existing_ids) ∧
      (new_id ∉ existing_ids) ∧ (∀ n, n ∈ existing_ids → n < new_id) ∧
      ((new_id - 1 ∈ existing_ids) ∨ (existing_ids = ∅ ∧ new_id = 1)))
  ∧ (∀ (a : args) (data d1 : graph) (w w1 : world),
       NoDup (keys data) → insert_controlnet a data w = (Ok d1, w1) →
       keys d1 = keys data ++
                 ids_from (top_id data + 1)
                   (missing data ["ControlNetLoader"; "LoadImage"; "ControlNetApplyAdvanced"])
       ∧ NoDup (keys d1))
  ∧ (∀ (a : args) (data d1 : graph) (w w1 : world),
       NoDup (keys data) → insert_ipadapter a data w = (Ok d1, w1) →
       keys d1 = keys data ++
                 ids_from (top_id data + 1)
                   (missing data [loader_class a] + 1 + missing data ["IPAdapterAdvanced"])
       ∧ NoDup (keys d1))
  ∧ (∀ (a : args) (positive_text negative_text : string) (data d1 : graph) (w w1 : world),
       NoDup (keys data) →
       patch_graph a positive_text negative_text data w = (Ok d1, w1) →
       keys d1 = keys data ++
                 ids_from (top_id data + 1)
                   ((if add_controlnet a
                     then missing data ["ControlNetLoader"; "LoadImage";
                                        "ControlNetApplyAdvanced"]
                     else 0) +
                    (if add_ipadapter a
                     then missing data [loader_class a] + 1 + missing data ["IPAdapterAdvanced"]
                     else 0))%nat
       ∧ NoDup (keys d1))
  ∧ (∀ existing_ids,
       int_keys ["1"; "3"] = Ok existing_ids →
       (next_id existing_ids).1 = "4" ∧
       (next_id (next_id existing_ids).2).1 = "5").
Proof.
  split_and!.
  - intros ids. destruct (next_id_new ids) as (new_id & Hnext & Hnew & Hmax).
    exists new_id. split_and!; [done | done | |].
    + destruct (max_id ids) as [m|] eqn:Hm.
      * intros n Hn. apply max_id_Some in Hm as [_ Hle]. specialize (Hle _ Hn). lia.
      * apply max_id_None in Hm. subst ids. set_solver.
    + destruct (max_id ids) as [m|] eqn:Hm.
      * left. apply max_id_Some in Hm as [Hin _]. by replace (new_id - 1) with m by lia.
      * right. by apply max_id_None in Hm.
  - intros a data d1 w w1 Hnd Hrun.
    destruct (insert_controlnet_allocated _ _ _ _ _ _ _ (allocated_start _ Hnd) Hrun)
      as [(Hkeys & Hnd' & _) _]. done.
  - intros a data d1 w w1 Hnd Hrun.
    destruct (insert_ipadapter_allocated _ _ _ _ _ _ _ (allocated_start _ Hnd) Hrun)
      as (Hkeys & Hnd' & _). done.
  - intros a positive_text negative_text data d1 w w1 Hnd.
    unfold patch_graph, bind, lift, ret.
    destruct (inject_text a positive_text negative_text data) as [dA|] eqn:Hinject; [|done].
    destruct (override_lora a dA) as [dB|] eqn:Hlora; [|done].
    destruct (override_clip_layer a dB) as [dC|] eqn:Hclip; [|done].
    destruct (inject_text_shape _ _ _ _ _ Hinject) as [HkA HfA].
    destruct (override_lora_shape _ _ _ Hlora) as [HkB HfB].
    destruct (override_clip_layer_shape _ _ _ Hclip) as [HkC HfC].
    assert (allocated data 0 dC) as HallocC.
    { apply (allocated_shape _ data); [by apply allocated_start | congruence]. }
    assert (∀ c, find_node_id dC c = find_node_id data c) as HfindC.
    { intros c. by rewrite HfC, HfB, HfA. }
    assert (∀ classes, missing dC classes = missing data classes) as HmissC.
    { intros classes. apply missing_same. intros c _. apply HfindC. }
    assert ((∃ dD wD,
               (if add_controlnet a then insert_controlnet a dC w else (Ok dC, w))
                 = (Ok dD, wD) ∧
               (if add_ipadapter a then insert_ipadapter a dD wD else (Ok dD, wD))
                 = (Ok d1, w1)) →
              keys d1 = keys data ++
                 ids_from (top_id data + 1)
                   ((if add_controlnet a
                     then missing data ["ControlNetLoader"; "LoadImage";
                                        "ControlNetApplyAdvanced"]
                     else 0) +
                    (if add_ipadapter a
                     then missing data [loader_class a] + 1 + missing data ["IPAdapterAdvanced"]
                     else 0))%nat
              ∧ NoDup (keys d1)) as Hboth.
    { intros (dD & wD & Hcontrol & Hadapter).
      assert (allocated data
                (if add_controlnet a
                 then missing data ["ControlNetLoader"; "LoadImage"; "ControlNetApplyAdvanced"]
                 else 0) dD ∧
              ∀ classes, "ControlNetLoader" ∉ classes → "LoadImage" ∉ classes →
                         "ControlNetApplyAdvanced" ∉ classes →
                         missing dD classes = missing data classes) as [HallocD HmissD].
      { destruct (add_controlnet a).
        - destruct (insert_controlnet_allocated _ _ _ _ _ _ _ HallocC Hcontrol)
            as [Halloc Hfind].
          rewrite HmissC in Halloc. split; [done |].
          intros classes H1 H2 H3. rewrite <- HmissC. apply missing_same.
          intros c Hc. apply Hfind. set_solver.
        - injection Hcontrol as <- <-. split; [done |]. intros classes _ _ _. apply HmissC. }
      destruct (add_ipadapter a).
      - pose proof (insert_ipadapter_allocated _ _ _ _ _ _ _ HallocD Hadapter) as Halloc.
        rewrite !HmissD in Halloc.
        + destruct Halloc as (Hkeys & Hnd' & _). done.
        + set_solver.
        + set_solver.
        + set_solver.
        + pose proof (loader_class_other a). unfold loader_class in *.
          destruct (ipadapter_community a); set_solver.
        + unfold loader_class. destruct (ipadapter_community a); set_solver.
        + unfold loader_class. destruct (ipadapter_community a); set_solver.
      - injection Hadapter as <- <-. rewrite Nat.add_0_r.
        destruct HallocD as (Hkeys & Hnd' & _). done. }
    intros Hrun. apply Hboth.
    destruct (add_controlnet a).
    + destruct (insert_controlnet a dC w) as [[dD|] wD] eqn:Hcontrol; [|done].
      exists dD, wD. split; [done |]. by destruct (add_ipadapter a).
    + exists dC, w. split; [done |]. by destruct (add_ipadapter a).
  - intros ids [= <-]. split; vm_compute; reflexivity.
Qed.

Lemma next_id_never_reuses_witness :
  (∃ d1 w1,
     insert_controlnet ex_controlnet_args ex_ids_graph ex_world = (Ok d1, w1) ∧
     keys d1 = ["1"; "3"; "4"; "5"] ∧ NoDup (keys d1))
  ∧ (∃ d1 w1,
       patch_graph ex_both_args "P" "N" ex_graph ex_world = (Ok d1, w1) ∧
       keys d1 = keys ex_graph ++ ["11"; "12"; "13"; "14"; "15"] ∧ NoDup (keys d1)).
Proof.
  pose proof next_id_never_reuses as (_ & Hcontrol & _ & Hboth & _).
  split.
  - destruct (insert_controlnet ex_controlnet_args ex_ids_graph ex_world)
      as [[d1|e] w1] eqn:Hrun.
    + destruct (Hcontrol ex_controlnet_args ex_ids_graph d1 ex_world w1) as [Hkeys Hnd].
      * apply (bool_decide_unpack _). vm_compute. exact I.
      * exact Hrun.
      * exists d1, w1. split; [reflexivity |]. split; [|exact Hnd].
        rewrite Hkeys. vm_compute. reflexivity.
    + exfalso. vm_compute in Hrun. discriminate Hrun.
  - destruct (patch_graph ex_both_args "P" "N" ex_graph ex_world)
      as [[d1|e] w1] eqn:Hrun.
    + destruct (Hboth ex_both_args "P" "N" ex_graph d1 ex_world w1) as [Hkeys Hnd].
      * apply (bool_decide_unpack _). vm_compute. exact I.
      * exact Hrun.
      * exists d1, w1. split; [reflexivity |]. split; [|exact Hnd].
        rewrite Hkeys. vm_compute. reflexivity.
    + exfalso. vm_compute in Hrun. discriminate Hrun.
Defined.

(** * Further properties of the sampler *)

(** ** Overrides on the command line *)

Lemma parse_overrides_pairs (values subcategories : list string) :
  _parse_overrides values subcategories = parse_pairs subcategories values [].
Proof. by destruct values. Qed.

Lemma parse_pair_Done (valid : list string) (key_value key : string) (n : Z) :
  parse_pair valid key_value = Done (key, n) → key ∈ valid ∧ 0 ≤ n.
Proof.
  unfold parse_pair. destruct (split_equals key_value) as [[k raw]|]; [|done].
  case_decide; [|done]. destruct (int raw) as [m|]; [|done].
  intros [= <- <-]. split; [done | lia].
Qed.

Lemma parse_pairs_valid (valid values : list string) (start overrides : odict Z) :
  parse_pairs valid values start = Done overrides →
  NoDup (keys start) →
  (∀ key n, od_get key start = Some n → key ∈ valid ∧ 0 ≤ n) →
  NoDup (keys overrides) ∧
  ∀ key n, od_get key overrides = Some n → key ∈ valid ∧ 0 ≤ n.
Proof.
  revert start. induction values as [|key_value rest IH]; intros start; simpl.
  - by intros [= <-].
  - destruct (parse_pair valid key_value) as [[k m]|] eqn:Hpair; [|done].
    intros Hrest Hnd Hstart. apply (IH _ Hrest); [by apply NoDup_keys_od_set |].
    intros key n. rewrite od_get_set.
    destruct (String.eqb_spec k key) as [<-|_]; [|by apply Hstart].
    intros [= <-]. by eapply parse_pair_Done.
Qed.

(** X1. The overrides [_parse_overrides] returns name subcategories of the
    section only, each once, and hold no negative count. *)
Theorem parse_overrides_valid (values subcategories : list string) (overrides : odict Z) :
  _parse_overrides values subcategories = Done overrides →
  NoDup (keys overrides) ∧
  ∀ key n, od_get key overrides = Some n → key ∈ subcategories ∧ 0 ≤ n.
Proof.
  rewrite parse_overrides_pairs. intros Hparse.
  apply (parse_pairs_valid _ _ [] _ Hparse); [apply NoDup_nil_2 | done].
Qed.

Lemma parse_overrides_valid_witness :
  NoDup (keys [("quality", 0); ("lighting", 3)]) ∧
  ∀ key n, od_get key [("quality", 0); ("lighting", 3)] = Some n →
           key ∈ ["quality"; "lighting"] ∧ 0 ≤ n.
Proof.
  apply (parse_overrides_valid ["quality=2"; " lighting = 3"; "quality=-1"]
           ["quality"; "lighting"]).
  vm_compute. reflexivity.
Defined.

Lemma parse_pairs_app (valid before after : list string) (start : odict Z) :
  parse_pairs valid (before ++ after) start =
  match parse_pairs valid before start with
  | Done overrides => parse_pairs valid after overrides
  | Exit e => Exit e
  end.
Proof.
  revert start. induction before as [|key_value rest IH]; intros start; simpl; [done |].
  destruct (parse_pair valid key_value) as [[k m]|]; [apply IH | done].
Qed.

(** X2. [_parse_overrides] stops at the first pair it cannot read and exits
    for that pair: it fails with [e] exactly when some pair fails with [e]
    and all the pairs before it are read. *)
Theorem parse_overrides_first_error (values subcategories : list string) (e : exit) :
  _parse_overrides values subcategories = Exit e ↔
  ∃ before bad after,
    values = before ++ bad :: after ∧
    Forall (fun key_value => ∃ entry, parse_pair subcategories key_value = Done entry) before ∧
    parse_pair subcategories bad = Exit e.
Proof.
  rewrite parse_overrides_pairs. generalize (@nil (string * Z)) as start.
  induction values as [|key_value rest IH]; intros start; simpl.
  - split; [done |]. intros (before & bad & after & Heq & _). by destruct before.
  - destruct (parse_pair subcategories key_value) as [[k m]|e0] eqn:Hpair.
    + rewrite IH. split.
      * intros (before & bad & after & -> & Hbefore & Hbad).
        exists (key_value :: before), bad, after. split_and!; [done | | done].
        constructor; [by eexists | done].
      * intros (before & bad & after & Heq & Hbefore & Hbad).
        destruct before as [|b before]; simpl in Heq; injection Heq as <- ->.
        { congruence. }
        apply Forall_cons in Hbefore as [_ Hbefore]. by exists before, bad, after.
    + split.
      * intros [= <-]. by exists [], key_value, rest.
      * intros (before & bad & after & Heq & Hbefore & Hbad).
        destruct before as [|b before]; simpl in Heq; injection Heq as <- ->.
        { congruence. }
        apply Forall_cons in Hbefore as [[entry Hentry] _]. congruence.
Qed.

Lemma parse_pairs_last (valid values : list string) (start overrides : odict Z) (key : string) :
  parse_pairs valid values start = Done overrides →
  od_get key overrides =
    match last (counts_for valid key values) with
    | Some n => Some n
    | None => od_get key start
    end.
Proof.
  revert start. induction values as [|key_value rest IH]; intros start; simpl.
  - by intros [= <-].
  - unfold counts_for. simpl.
    destruct (parse_pair valid key_value) as [[k m]|] eqn:Hpair; [|done].
    intros Hrest. rewrite (IH _ Hrest). fold (counts_for valid key rest).
    rewrite od_get_set.
    destruct (String.eqb k key).
    + simpl. rewrite last_cons. by destruct (last (counts_for valid key rest)).
    + done.
Qed.

(** X3. When a subcategory is named more than once, the last count given
    wins: the override of [key] is the count of the last pair that names
    it, and there is none when no pair names it. *)
Theorem parse_overrides_last_wins (values subcategories : list string)
    (overrides : odict Z) (key : string) :
  _parse_overrides values subcategories = Done overrides →
  od_get key overrides = last (counts_for subcategories key values).
Proof.
  rewrite parse_overrides_pairs. intros Hparse.
  rewrite (parse_pairs_last _ _ _ _ key Hparse).
  by destruct (last _).
Qed.

Lemma parse_overrides_last_wins_witness :
  od_get "quality" [("quality", 0); ("lighting", 3)] =
  last (counts_for ["quality"; "lighting"] "quality"
          ["quality=2"; " lighting = 3"; "quality=-1"]).
Proof.
  apply (parse_overrides_last_wins ["quality=2"; " lighting = 3"; "quality=-1"]
           ["quality"; "lighting"]).
  vm_compute. reflexivity.
Defined.

Lemma split_equals_app (key raw : string) :
  split_equals key = None → split_equals (key +:+ "=" +:+ raw) = Some (key, raw).
Proof.
  induction key as [|c key IH]; simpl; [done |].
  destruct (Ascii.eqb c "="); [done |].
  destruct (split_equals key) as [[]|]; [done |]. intros _. by rewrite IH.
Qed.

(** X4. An override written as the subcategory, an equals sign and a decimal
    integer is read back as that subcategory with that count, a negative
    count being raised to zero. *)
Theorem override_round_trip (subcategories : list string) (key : string) (n : Z) :
  key ∈ subcategories → strip key = key → split_equals key = None →
  _parse_overrides [key +:+ "=" +:+ str n] subcategories = Done [(key, Z.max 0 n)].
Proof.
  intros Hkey Hstrip Hplain. unfold _parse_overrides, parse_pairs, parse_pair.
  rewrite split_equals_app by done. rewrite Hstrip.
  rewrite decide_True by done. by rewrite int_str.
Qed.

Lemma override_round_trip_witness :
  _parse_overrides ["lighting" +:+ "=" +:+ str (-2)] ["quality"; "lighting"] =
  Done [("lighting", Z.max 0 (-2))].
Proof.
  apply override_round_trip; [| reflexivity | reflexivity].
  apply elem_of_cons. right. apply elem_of_cons. left. reflexivity.
Defined.

(** ** What a draw holds *)

Section SamplingFacts.
Context `{RandomSource}.

Lemma sample_submseteq {A} (pool : list A) (k : nat) (g : rng_state) :
  (k ≤ length pool)%nat → (sample pool k g).1 ⊆+ pool.
Proof.
  intros Hk. destruct (sample_spec pool k g Hk) as [_ [rest Hperm]].
  etrans; [|apply Permutation_submseteq; symmetry; exact Hperm].
  by apply submseteq_inserts_r.
Qed.

(** The two passes of [_pick_items]: what is taken from the preferred tokens
    that are candidates, then what is taken from the candidates not chosen
    yet. *)
Lemma pick_items_parts (options : list token) (count : Z) (preferred : list token)
    (g : rng_state) :
  ∃ chosen rest,
    (_pick_items options count preferred g).1 = chosen ++ rest ∧
    chosen ⊆+ filter (fun item => item ∈ options) preferred ∧
    Z.of_nat (length chosen) =
      Z.max 0 (Z.min count
                 (Z.of_nat (length (filter (fun item => item ∈ options) preferred)))) ∧
    rest ⊆+ filter (fun item => item ∉ chosen) options ∧
    Z.of_nat (length rest) =
      Z.max 0 (Z.min (count - Z.of_nat (length chosen))
                 (Z.of_nat (length (filter (fun item => item ∉ chosen) options)))).
Proof.
  unfold _pick_items.
  destruct (Z.leb_spec count 0) as [Hc|Hc]; simpl.
  { exists [], []. split_and!; [done | apply submseteq_nil_l | simpl; lia
                               | apply submseteq_nil_l | simpl; lia]. }
  set (ap := filter (fun item => item ∈ options) preferred).
  assert (∃ chosen g',
             match ap with
             | [] => ([], count, g)
             | _ => let '(picked, g') :=
                      sample ap (Z.to_nat (Z.min count (Z.of_nat (length ap)))) g in
                    (picked, count - Z.min count (Z.of_nat (length ap)), g')
             end = (chosen, count - Z.of_nat (length chosen), g') ∧
             chosen ⊆+ ap ∧
             Z.of_nat (length chosen) = Z.min count (Z.of_nat (length ap)))
    as (chosen & g' & -> & Hsub & Hlen).
  { destruct ap as [|a ap'] eqn:Hapeq.
    - exists [], g. split_and!; [by rewrite Z.sub_0_r | done | simpl; lia].
    - rewrite <- Hapeq in *. clear Hapeq.
      pose proof (sample_length ap (Z.to_nat (Z.min count (Z.of_nat (length ap)))) g
                    ltac:(lia)) as Hlen.
      pose proof (sample_submseteq ap (Z.to_nat (Z.min count (Z.of_nat (length ap)))) g
                    ltac:(lia)) as Hsub.
      destruct (sample ap _ g) as [picked g1]. simpl in *.
      exists picked, g1. split_and!; [f_equal; f_equal; lia | done | lia]. }
  destruct (Z.leb_spec (count - Z.of_nat (length chosen)) 0) as [Hc'|Hc']; simpl.
  { exists chosen, []. rewrite app_nil_r.
    split_and!; [done | done | lia | apply submseteq_nil_l | simpl; lia]. }
  destruct (filter (fun item => item ∉ chosen) options) as [|r remaining'] eqn:Hremeq.
  { exists chosen, []. rewrite app_nil_r, Hremeq.
    split_and!; [done | done | lia | done | simpl; lia]. }
  rewrite <- Hremeq. set (remaining := filter (fun item => item ∉ chosen) options).
  assert (remaining ≠ []) as Hne by (unfold remaining; by rewrite Hremeq).
  clear Hremeq.
  destruct (Z.leb_spec (Z.of_nat (length remaining)) (count - Z.of_nat (length chosen)))
    as [Hfill|Hfill]; simpl.
  - exists chosen, remaining. split_and!; [done | done | lia | done | fold remaining; lia].
  - pose proof (sample_length remaining (Z.to_nat (count - Z.of_nat (length chosen))) g'
                  ltac:(lia)) as Hlen'.
    pose proof (sample_submseteq remaining (Z.to_nat (count - Z.of_nat (length chosen))) g'
                  ltac:(lia)) as Hsub'.
    destruct (sample remaining _ g') as [picked g2]. simpl in *.
    exists chosen, picked. split_and!; [done | done | lia | done | fold remaining; lia].
Qed.

Lemma pick_items_subseteq (options : list token) (count : Z) (preferred : list token)
    (g : rng_state) :
  (_pick_items options count preferred g).1 ⊆ options.
Proof.
  destruct (pick_items_parts options count preferred g)
    as (chosen & rest & -> & Hchosen & _ & Hrest & _).
  intros item [Hin|Hin]%elem_of_app.
  - apply (elem_of_submseteq _ _ _ Hin) in Hchosen.
    by apply list_elem_of_filter in Hchosen as [? _].
  - apply (elem_of_submseteq _ _ _ Hin) in Hrest.
    by apply list_elem_of_filter in Hrest as [_ ?].
Qed.

(** X5. Every token [_sample_section] returns stands in the candidate list
    of a subcategory of the section whose count is positive: no token comes
    from the preferred lists alone, and none from a subcategory that was
    switched off. *)
Theorem sample_section_from_pool (section : odict (list token)) (overrides : odict Z)
    (default : Z) (preferred : odict (list token)) (g : rng_state) :
  Forall (fun item =>
            ∃ key options, (key, options) ∈ section ∧ item ∈ options ∧
                           0 < get_or key default overrides)
         (_sample_section section overrides default preferred g).1.
Proof.
  revert g. induction section as [|[key options] rest IH]; intros g; simpl; [done |].
  destruct (draw_subcategory overrides default preferred key options g) as [drawn g1] eqn:Hdraw.
  specialize (IH g1). destruct (_sample_section rest _ _ _ g1) as [selections g2].
  simpl in *. apply Forall_app. split.
  - apply Forall_forall. intros item Hin. exists key, options.
    unfold draw_subcategory in Hdraw.
    destruct (Z.leb_spec (get_or key default overrides) 0) as [Hc|Hc].
    { injection Hdraw as <- _. by apply elem_of_nil in Hin. }
    split_and!; [apply elem_of_cons; by left | | done].
    eapply pick_items_subseteq. by rewrite Hdraw.
  - eapply Forall_impl; [exact IH |]. intros item (k & o & Hin & Hitem & Hc).
    exists k, o. split_and!; [apply elem_of_cons; by right | done | done].
Qed.

(** X6. A subcategory whose count is zero or negative is passed over: the
    section yields the same tokens and leaves the generator in the same
    state as the section without that subcategory. *)
Theorem sample_section_skips (section : odict (list token)) (overrides : odict Z)
    (default : Z) (preferred : odict (list token)) (g : rng_state) :
  _sample_section section overrides default preferred g =
  _sample_section (filter (fun entry => 0 < get_or entry.1 default overrides) section)
    overrides default preferred g.
Proof.
  revert g. induction section as [|[key options] rest IH]; intros g; [done |].
  rewrite filter_cons. simpl. case_decide as Hc.
  - simpl. destruct (draw_subcategory _ _ _ key options g) as [drawn g1].
    by rewrite IH.
  - unfold draw_subcategory. rewrite (proj2 (Z.leb_le _ _)) by lia.
    rewrite <- IH. by destruct (_sample_section rest _ _ _ g).
Qed.

(** X7. Preferred tokens are drawn first.  When the count does not exceed
    the number of preferred tokens that are candidates, the draw is made of
    such tokens only, as many as the count; when it reaches that number, the
    draw holds all of them, and the rest are candidates that are not
    preferred. *)
Theorem pick_items_prefers (options : list token) (count : Z) (preferred : list token)
    (g : rng_state) :
  (count ≤ Z.of_nat (length (filter (fun item => item ∈ options) preferred)) →
   (_pick_items options count preferred g).1 ⊆+ filter (fun item => item ∈ options) preferred ∧
   Z.of_nat (length (_pick_items options count preferred g).1) = Z.max 0 count)
  ∧ (Z.of_nat (length (filter (fun item => item ∈ options) preferred)) ≤ count →
     ∃ rest,
       (_pick_items options count preferred g).1 ≡ₚ
         filter (fun item => item ∈ options) preferred ++ rest ∧
       rest ⊆+ filter (fun item => item ∉ preferred) options).
Proof.
  destruct (pick_items_parts options count preferred g)
    as (chosen & rest & -> & Hchosen & Hlen & Hrest & Hlen').
  set (ap := filter (fun item => item ∈ options) preferred) in *.
  split.
  - intros Hcount. assert (rest = []) as ->.
    { apply nil_length_inv. lia. }
    rewrite app_nil_r. split; [done | lia].
  - intros Hcount. assert (chosen ≡ₚ ap) as Hperm.
    { apply submseteq_length_Permutation; [done | lia]. }
    exists rest. split; [by rewrite Hperm |].
    rewrite (filter_ext_elem _ (fun item => item ∉ chosen)); [done |].
    intros item Hitem. rewrite Hperm. unfold ap.
    rewrite list_elem_of_filter. naive_solver.
Qed.

(** X8. When no candidate list and no preferred list repeats a token, a
    section yields for each subcategory as many tokens as its count, or all
    its candidates when the count exceeds them. *)
Theorem sample_section_counts (section : odict (list token)) (overrides : odict Z)
    (default : Z) (preferred : odict (list token)) (g : rng_state) :
  Forall (fun entry => NoDup entry.2) section →
  (∀ key, NoDup (get_or key [] preferred)) →
  length (_sample_section section overrides default preferred g).1 =
  sum_list_with
    (fun entry => Z.to_nat (Z.min (get_or entry.1 default overrides)
                              (Z.of_nat (length entry.2)))) section.
Proof.
  intros Hsection Hpreferred. revert g.
  induction Hsection as [|[key options] rest Hoptions _ IH]; intros g; simpl; [done |].
  pose proof (draw_subcategory_distinct overrides default preferred key options g
                Hoptions (Hpreferred key)) as (_ & _ & Hlen).
  destruct (draw_subcategory overrides default preferred key options g) as [drawn g1].
  specialize (IH g1). destruct (_sample_section rest _ _ _ g1) as [selections g2].
  simpl in *. rewrite length_app, IH. lia.
Qed.

End SamplingFacts.

Lemma sample_section_counts_witness :
  length (@_sample_section lcg [("quality", ["a"; "b"; "c"]); ("lighting", ["soft"])]
            [("quality", 5); ("lighting", 0)] 1 [("quality", ["b"])] 0).1 =
  sum_list_with
    (fun entry => Z.to_nat (Z.min (get_or entry.1 1 [("quality", 5); ("lighting", 0)])
                              (Z.of_nat (length entry.2))))
    [("quality", ["a"; "b"; "c"]); ("lighting", ["soft"])].
Proof.
  apply (@sample_section_counts lcg).
  - apply (bool_decide_unpack _). vm_compute. exact I.
  - intros key. unfold get_or. cbn [od_get].
    destruct (String.eqb "quality" key); [apply NoDup_singleton | apply NoDup_nil_2].
Defined.

(** * Further properties of the pool loader *)



(** ** The merged lists are the union of the modes' lists *)

Section Union.
Implicit Types (P : string → string → token → Prop).

Lemma get_or_elem (key : string) (d : odict (list token)) (item : token) :
  item ∈ get_or key [] d → ∃ l, od_get key d = Some l ∧ item ∈ l.
Proof.
  unfold get_or. destruct (od_get key d) as [l|]; simpl; [by exists l |].
  by intros ?%elem_of_nil.
Qed.

Lemma merge_key_within (Q : string → token → Prop) mode st entry :
  (∀ key l item, od_get key st.1 = Some l → item ∈ l → Q key item) →
  (∀ item, item ∈ entry.2 → Q entry.1 item) →
  ∀ key l item, od_get key (merge_key mode st entry).1 = Some l → item ∈ l → Q key item.
Proof.
  destruct st as [dest source], entry as [k values]. simpl.
  intros Hst Hentry key l item. rewrite od_get_set.
  destruct (String.eqb_spec k key) as [<-|_]; [|by apply Hst].
  intros [= <-] [Hin|Hin]%extend_unique_elem; [|by apply Hentry].
  apply get_or_elem in Hin as (l & Hl & Hin). by eapply Hst.
Qed.

Lemma fold_merge_key_within (Q : string → token → Prop) mode additions st :
  (∀ key l item, od_get key st.1 = Some l → item ∈ l → Q key item) →
  (∀ key values item, (key, values) ∈ additions → item ∈ values → Q key item) →
  ∀ key l item,
    od_get key (fold_left (merge_key mode) additions st).1 = Some l → item ∈ l → Q key item.
Proof.
  revert st. induction additions as [|[k values] rest IH]; intros st Hst Hadd; [done |].
  simpl. apply IH.
  - apply merge_key_within; [done |]. intros item Hin.
    eapply Hadd; [apply elem_of_cons; by left | done].
  - intros key vs item Hin. apply Hadd, elem_of_cons. by right.
Qed.

Lemma merge_section_within P name additions mode st :
  within P st.1 →
  (∀ key values item, (key, values) ∈ additions → item ∈ values → P name key item) →
  within P (merge_section name additions mode st).1.
Proof.
  destruct st as [combined sources]. unfold merge_section. simpl. intros Hst Hadd.
  pose proof (fold_merge_key_within (P name) mode additions
                (get_or name [] combined, get_or name [] sources)) as Hfold.
  destruct (fold_left _ additions _) as [dest source]. simpl in *.
  intros section key item (d & l & Hd & Hl & Hin). rewrite od_get_set in Hd.
  destruct (String.eqb_spec name section) as [<-|_].
  - injection Hd as <-. eapply Hfold; [| done | exact Hl | exact Hin].
    intros key' l' item' Hl' Hin'. apply Hst.
    unfold get_or in Hl'. destruct (od_get name combined) as [d|] eqn:Hd; [|done].
    by exists d, l'.
  - apply Hst. by exists d, l.
Qed.

Lemma merge_mode_within P mode additions st :
  within P st.1 →
  (∀ section section_values key values item,
     (section, section_values) ∈ additions → (key, values) ∈ section_values →
     item ∈ values → P section key item) →
  within P (merge_mode mode additions st).1.
Proof.
  unfold merge_mode. revert st.
  induction additions as [|[name section_values] rest IH]; intros st Hst Hadd; [done |].
  simpl. apply IH.
  - apply merge_section_within; [done |]. intros key values item.
    apply Hadd, elem_of_cons. by left.
  - intros section sv key values item Hin. eapply Hadd, elem_of_cons. by right.
Qed.

Lemma merge_modes_within sets modes st st' :
  merge_modes sets modes st = Ok st' →
  within (fun section key item =>
            pool_token st.1 section key item ∨
            ∃ mode, mode ∈ modes ∧ mode_token sets mode section key item) st'.1.
Proof.
  revert st. induction modes as [|mode rest IH]; intros st; simpl.
  - intros [= <-] section key item Hin. by left.
  - destruct (od_get mode sets) as [additions|] eqn:Hget; [|done].
    intros Hrest. apply IH in Hrest.
    assert (within (fun section key item =>
                      pool_token st.1 section key item ∨
                      mode_token sets mode section key item)
                   (merge_mode mode additions st).1) as Hmode.
    { apply merge_mode_within; [intros ????; by left |].
      intros section sv key values item Hsv Hvalues Hin. right.
      by exists additions, sv, values. }
    intros section key item Hin. destruct (Hrest _ _ _ Hin) as [Hold|(m & Hm & Htoken)].
    + destruct (Hmode _ _ _ Hold) as [?|?]; [by left |].
      right. exists mode. split; [apply elem_of_cons; by left | done].
    + right. exists m. split; [apply elem_of_cons; by right | done].
Qed.

Lemma section_absorbed_token mode st section section_values key values item :
  section_absorbed mode st (section, section_values) →
  (key, values) ∈ section_values → item ∈ values →
  pool_token st.1 section key item.
Proof.
  intros (ds & ss & Hds & _ & Hkeys) Hvalues Hin. simpl in *.
  rewrite Forall_forall in Hkeys.
  destruct (Hkeys _ Hvalues) as (dl & _ & _ & Hdl & _ & _ & Hsub & _). simpl in *.
  exists ds, dl. split_and!; [done | done | by apply Hsub].
Qed.

Lemma pool_token_mono st st' section key item :
  state_le st st' → pool_token st.1 section key item → pool_token st'.1 section key item.
Proof.
  intros [Hle _] (d & l & Hd & Hl & Hin).
  destruct (Hle _ _ Hd) as (d' & Hd' & Hdd'). destruct (Hdd' _ _ Hl) as (l' & Hl' & Hpre).
  exists d', l'. split_and!; [done | done | by eapply prefix_subseteq].
Qed.

Lemma merge_modes_holds sets modes st st' mode section key item :
  merge_modes sets modes st = Ok st' → mode ∈ modes →
  mode_token sets mode section key item → pool_token st'.1 section key item.
Proof.
  intros Hmerge Hmode (additions & sv & values & Hget & Hsv & Hvalues & Hin).
  apply list_elem_of_split in Hmode as (before & after & ->).
  rewrite merge_modes_app in Hmerge.
  destruct (merge_modes sets before st) as [st1|] eqn:Hbefore; [|done].
  simpl in Hmerge. rewrite Hget in Hmerge.
  apply merge_modes_le in Hmerge. apply (pool_token_mono _ _ _ _ _ Hmerge).
  pose proof (merge_mode_absorbs mode additions st1) as Habs.
  rewrite Forall_forall in Habs.
  by eapply section_absorbed_token; [apply Habs | |].
Qed.

End Union.

(** X10. A token stands in a merged candidate list exactly when one of the
    merged modes lists it for that section and subcategory: merging loses
    no token and invents none. *)
Theorem load_pools_union (data : pool_document) (modes : list string) (p : pools)
    (section key : string) (item : token) :
  doc_sets data ≠ [] → _load_pools (Some data) modes = Ok p →
  pool_token (sections p) section key item ↔
  ∃ mode, mode ∈ requested modes ∧ mode_token (doc_sets data) mode section key item.
Proof.
  unfold _load_pools. destruct (doc_sets data) as [|s0 sets] eqn:Hsets; [done |].
  intros _. fold (requested modes).
  destruct (merge_modes (s0 :: sets) (requested modes) ([], [])) as [[combined sources]|]
    eqn:Hmerge; [|done].
  intros [= <-]. simpl. split.
  - intros Hin. apply merge_modes_within in Hmerge.
    destruct (Hmerge _ _ _ Hin) as [(d & l & Hd & _)|?]; [done | done].
  - intros (mode & Hmode & Htoken).
    by apply (merge_modes_holds _ _ _ _ _ _ _ _ Hmerge Hmode).
Qed.

Lemma load_pools_union_witness :
  pool_token [("composition", [("quality", ["a"; "b"; "c"; "x"])]);
              ("action", []); ("subject", []); ("environment", [])]
    "composition" "quality" "x" ↔
  ∃ mode, mode ∈ requested ["general"; "m1"] ∧
          mode_token (doc_sets ex_doc) mode "composition" "quality" "x".
Proof.
  apply (load_pools_union ex_doc ["general"; "m1"]
           {| sections := [("composition", [("quality", ["a"; "b"; "c"; "x"])]);
                           ("action", []); ("subject", []); ("environment", [])];
              negative_base := ["blurry"];
              negative_optional := [("hands", ["bad hands"])];
              style_presets := doc_style_presets ex_doc;
              _sources := [("composition",
                            [("quality", [("general", ["a"; "b"; "c"]);
                                          ("m1", ["x"; "b"])])]);
                           ("action", []); ("subject", []); ("environment", [])] |}).
  - done.
  - vm_compute. reflexivity.
Defined.

(** * Further properties of the generated prompt *)

Lemma extend_groups_Ok (optional_pool : odict (list token)) (negative_groups : list string)
    (base l : list token) :
  extend_groups optional_pool negative_groups base = Ok l ↔
  ∃ lists,
    Forall2 (fun group extra => od_get group optional_pool = Some extra)
            negative_groups lists ∧
    l = base ++ concat lists.
Proof.
  revert base. induction negative_groups as [|group rest IH]; intros base; simpl.
  - split.
    + intros [= <-]. exists []. split; [constructor | by rewrite app_nil_r].
    + intros (lists & Hlists & ->). apply Forall2_nil_inv_l in Hlists as ->.
      by rewrite app_nil_r.
  - destruct (od_get group optional_pool) as [extra|] eqn:Hget.
    + rewrite IH. split.
      * intros (lists & Hlists & ->). exists (extra :: lists).
        split; [by constructor | by rewrite <- app_assoc].
      * intros (lists & Hlists & ->).
        apply Forall2_cons_inv_l in Hlists as (extra' & lists' & Hextra & Hlists & ->).
        exists lists'. split; [done |]. simpl. rewrite <- app_assoc. congruence.
    + split; [done |]. intros (lists & Hlists & _).
      apply Forall2_cons_inv_l in Hlists as (extra' & lists' & Hextra & _). congruence.
Qed.


Section PromptFacts.
Context `{RandomSource}.


(** X11. The negative prompt is put together without the generator: the
    base negatives, then the lists of the requested groups in the order
    they were asked for, then the negatives of the style preset as they
    stand.  Seed, overrides and generator state have no part in it. *)
Theorem negatives_composition file pools_arg modes seed co ao so eo
    (negative_groups : list string) (style_preset : option string) dc
    (g g' : rng_state) (pl : pools) (prompt : CasePrompt) :
  match pools_arg with Some p => Ok p | None => _load_pools file modes end = Ok pl →
  generate_prompt file pools_arg modes seed co ao so eo negative_groups style_preset dc g
    = (Ok prompt, g') →
  ∃ lists,
    Forall2 (fun group extra => od_get group (negative_optional pl) = Some extra)
            negative_groups lists ∧
    negatives prompt = negative_base pl ++ concat lists ++ preset_negatives pl style_preset.
Proof.
  intros Hload. unfold generate_prompt, bind, lift, ret. rewrite Hload.
  destruct (match seed with Some s => _ | None => _ end) as [[[]|e] g0]; [|done].
  destruct (sample_named pl "composition" _ _ _ g0) as [[c|e] g1]; [|done].
  destruct (sample_named pl "action" _ _ _ g1) as [[a|e] g2]; [|done].
  destruct (sample_named pl "subject" _ _ _ g2) as [[s|e] g3]; [|done].
  destruct (sample_named pl "environment" _ _ _ g3) as [[v|e] g4]; [|done].
  unfold preset_negatives.
  destruct style_preset as [[|ch name]|].
  - destruct (extend_groups _ _ _) as [n|e] eqn:Hgroups; [|done].
    apply extend_groups_Ok in Hgroups as (lists & Hlists & ->).
    intros [= <- <-]. exists lists. simpl. by rewrite !app_nil_r.
  - destruct (od_get (String ch name) (style_presets pl)) as [preset|]; [|done].
    destruct (extend_groups _ _ _) as [n|e] eqn:Hgroups; [|done].
    apply extend_groups_Ok in Hgroups as (lists & Hlists & ->).
    intros [= <- <-]. exists lists. simpl. split; [done |].
    destruct preset; [by rewrite !app_nil_r | by rewrite <- app_assoc].
  - destruct (extend_groups _ _ _) as [n|e] eqn:Hgroups; [|done].
    apply extend_groups_Ok in Hgroups as (lists & Hlists & ->).
    intros [= <- <-]. exists lists. simpl. by rewrite !app_nil_r.
Qed.

(** X12. A style preset changes nothing of what was sampled.  With the
    preset the generator ends in the same state, every section begins with
    the tokens it has without the preset, and what follows are tokens of the
    preset that the section did not hold. *)
Theorem style_preset_keeps_draw file pools_arg modes seed co ao so eo ng
    (name : string) dc (g g' : rng_state) (pl : pools) (preset : odict (list token))
    (p0 : CasePrompt) :
  match pools_arg with Some p => Ok p | None => _load_pools file modes end = Ok pl →
  od_get name (style_presets pl) = Some preset → name ≠ "" →
  generate_prompt file pools_arg modes seed co ao so eo ng None dc g = (Ok p0, g') →
  ∃ p,
    generate_prompt file pools_arg modes seed co ao so eo ng (Some name) dc g = (Ok p, g') ∧
    Forall (fun '(field, section) =>
              ∃ added, field p = field p0 ++ added ∧
                       Forall (fun item => item ∈ get_or section [] preset ∧
                                           item ∉ field p0) added)
           [(composition, "composition"); (action, "action");
            (subject, "subject"); (environment, "environment")] ∧
    negatives p0 `prefix_of` negatives p.
Proof.
  intros Hload Hpreset Hname Hrun.
  rewrite (style_preset_merge _ _ _ _ _ _ _ _ _ _ _ _ _ _ _ _ Hload Hpreset Hname Hrun).
  eexists. split; [reflexivity |]. simpl.
  assert (∀ target additions,
            ∃ added, extend_unique target additions = target ++ added ∧
                     Forall (fun item => item ∈ additions ∧ item ∉ target) added) as Hext.
  { intros target additions. revert target.
    induction additions as [|item rest IH]; intros target; simpl.
    - exists []. by rewrite app_nil_r.
    - case_decide as Hin.
      + destruct (IH target) as (added & -> & Hadded). exists added. split; [done |].
        eapply Forall_impl; [exact Hadded |]. intros x [? ?].
        split; [apply elem_of_cons; by right | done].
      + destruct (IH (target ++ [item])) as (added & -> & Hadded).
        exists (item :: added). split; [by rewrite <- app_assoc |].
        constructor; [split; [apply elem_of_cons; by left | done] |].
        eapply Forall_impl; [exact Hadded |]. intros x [? Hx].
        split; [apply elem_of_cons; by right |].
        intros Hx'. apply Hx, elem_of_app. by left. }
  split; [repeat constructor; apply Hext |].
  destruct preset; [done | by apply prefix_app_r].
Qed.


End PromptFacts.

Lemma negatives_composition_witness :
  ∃ lists,
    Forall2 (fun group extra => od_get group (negative_optional ex_pools) = Some extra)
            ["hands"] lists ∧
    negatives ex_prompt_romantic =
      negative_base ex_pools ++ concat lists ++ preset_negatives ex_pools (Some "romantic").
Proof.
  apply (@negatives_composition lcg (Some ex_doc) None ["general"] (Some 1) [] [] [] []
           ["hands"] (Some "romantic") 1 0 1103527590 ex_pools ex_prompt_romantic);
    vm_compute; reflexivity.
Defined.

Lemma style_preset_keeps_draw_witness :
  ∃ p,
    @generate_prompt lcg (Some ex_doc) None ["general"] (Some 1) [] [] [] [] ["hands"]
      (Some "romantic") 1 0 = (Ok p, 1103527590) ∧
    Forall (fun '(field, section) =>
              ∃ added, field p = field ex_prompt ++ added ∧
                       Forall (fun item =>
                                 item ∈ get_or section []
                                          [("composition", ["soft light"; "a"]);
                                           ("negative", ["blurry"; "harsh"])] ∧
                                 item ∉ field ex_prompt) added)
           [(composition, "composition"); (action, "action");
            (subject, "subject"); (environment, "environment")] ∧
    negatives ex_prompt `prefix_of` negatives p.
Proof.
  apply (@style_preset_keeps_draw lcg (Some ex_doc) None ["general"] (Some 1) [] [] [] []
           ["hands"] "romantic" 1 0 1103527590 ex_pools); [| | done |]; vm_compute; reflexivity.
Defined.

(** * Further properties of the two command lines *)

(** X14. The modes that are blended.  There is always one; modes given on
    the command line come first and in their order; [--mature] makes sure
    the mature mode is among them; the default mode is added only when none
    is given; and selecting again changes nothing. *)
Theorem blend_modes_spec (modes : list string) (mature : bool) :
  modes_with_mature modes mature ≠ [] ∧
  (modes ≠ [] → modes `prefix_of` modes_with_mature modes mature) ∧
  (mature = true → "mature" ∈ modes_with_mature modes mature) ∧
  (∀ mode, mode ∈ modes_with_mature modes mature →
           mode ∈ modes ∨ (modes = [] ∧ mode = "general") ∨
           (mature = true ∧ mode = "mature")) ∧
  modes_with_mature (modes_with_mature modes mature) mature = modes_with_mature modes mature.
Proof.
  unfold modes_with_mature. destruct mature.
  - destruct modes as [|mode0 rest].
    + split_and!; [done | done | intros _; set_solver | set_solver | done].
    + case_decide as Hin.
      * split_and!; [done | done | done | by left |].
        by rewrite decide_True.
      * assert ((mode0 :: rest) ++ ["mature"] ≠ []) as Hne by done.
        destruct ((mode0 :: rest) ++ ["mature"]) as [|m1 r1] eqn:Happ; [done |].
        rewrite <- Happ. split_and!; [done | intros _; by apply prefix_app_r
                                      | intros _; set_solver | set_solver |].
        rewrite decide_True by set_solver. by rewrite Happ.
  - destruct modes as [|mode0 rest].
    + split_and!; [done | done | done | set_solver | done].
    + split_and!; [done | done | done | by left | done].
Qed.

Lemma selected_modes_blend (a : args) :
  selected_modes a = modes_with_mature (mode a) (mature a).
Proof. unfold selected_modes, modes_with_mature. by destruct (mature a), (mode a). Qed.



Section CommandLines.
Context `{RandomSource}.


Lemma sample_named_missing (p : pools) (name : string) (overrides : odict Z)
    (default_count : Z) (preferred : odict (list token)) (g : rng_state) :
  od_get name (sections p) = None →
  sample_named p name overrides default_count preferred g = (Err (KeyError name), g).
Proof. intros Hget. unfold sample_named, bind, lift, subscript. by rewrite Hget. Qed.

Lemma sample_named_present (p : pools) (name : string) (overrides : odict Z)
    (default_count : Z) (preferred : odict (list token)) (g : rng_state)
    (section : odict (list token)) :
  od_get name (sections p) = Some section →
  ∃ drawn g', sample_named p name overrides default_count preferred g = (Ok drawn, g').
Proof.
  intros Hget. unfold sample_named, bind, lift, subscript. rewrite Hget.
  destruct (_sample_section section _ _ _ g) as [drawn g']. by exists drawn, g'.
Qed.

(** X16. The text the patcher puts into the workflow is what the sampler
    prints for the same options in the flat layout: the positive text is
    its first four lines and the negative text its fifth.  When the sampler
    stops with an error, the patcher stops with the same one. *)
Theorem patcher_text_is_flat_prompt (file : option pool_document) (a : args) (g : rng_state) :
  match prompt_texts file a g with
  | (Ok (positive_text, negative_text), g') =>
      ∃ lines,
        generate_main file (flat_cli a) g = (lines, None, g') ∧
        positive_text = join newline (take 4 lines) ∧
        negative_text = nth 4 lines ""
  | (Err e, _) => (generate_main file (flat_cli a) g).1 = ([], Some (Raised e))
  end.
Proof.
  unfold prompt_texts, generate_main, bind, lift, ret. rewrite selected_modes_blend.
  unfold parse_section_overrides, subscript, flat_cli.
  cbn [cli_composition cli_action cli_subject cli_environment cli_seed cli_flat
       cli_delimiter cli_neg_groups cli_style_preset cli_mode cli_mature cli_list
       _parse_overrides].
  destruct (_load_pools file _) as [p|e]; [|done].
  unfold generate_prompt, bind, lift, ret.
  destruct (match seed a with Some s => _ | None => _ end) as [[[]|e] g0] eqn:Hseed;
    [|by destruct (seed a)].
  destruct (od_get "composition" (sections p)) as [c|] eqn:Hc.
  2:{ by rewrite sample_named_missing. }
  destruct (sample_named_present p "composition" [] 1
              (build_preferred (_sources p)
                 (filter (fun mode => mode ≠ "general")
                    (modes_with_mature (mode a) (mature a))) "composition") g0 c Hc)
    as (dc & g1 & ->).
  destruct (od_get "action" (sections p)) as [ac|] eqn:Ha.
  2:{ by rewrite sample_named_missing. }
  destruct (sample_named_present p "action" [] 1
              (build_preferred (_sources p)
                 (filter (fun mode => mode ≠ "general")
                    (modes_with_mature (mode a) (mature a))) "action") g1 ac Ha)
    as (da & g2 & ->).
  destruct (od_get "subject" (sections p)) as [sc|] eqn:Hs.
  2:{ by rewrite sample_named_missing. }
  destruct (sample_named_present p "subject" [] 1
              (build_preferred (_sources p)
                 (filter (fun mode => mode ≠ "general")
                    (modes_with_mature (mode a) (mature a))) "subject") g2 sc Hs)
    as (ds & g3 & ->).
  destruct (od_get "environment" (sections p)) as [ec|] eqn:He.
  2:{ by rewrite sample_named_missing. }
  destruct (sample_named_present p "environment" [] 1
              (build_preferred (_sources p)
                 (filter (fun mode => mode ≠ "general")
                    (modes_with_mature (mode a) (mature a))) "environment") g3 ec He)
    as (de & g4 & ->).
  destruct (match style_preset a with Some _ => _ | None => _ end) as [[[[[pd c'] a'] s'] e']|e];
    [|done].
  destruct (extend_groups _ _ _) as [n|e]; [|done].
  eexists. split; [reflexivity |]. split; reflexivity.
Qed.

End CommandLines.

(** * Further properties of the patcher *)

(** ** Nodes stay, and only their inputs change *)

Lemma extends_refl (data : graph) : extends data data.
Proof. by split. Qed.

Lemma extends_trans (data1 data2 data3 : graph) :
  extends data1 data2 → extends data2 data3 → extends data1 data3.
Proof.
  intros [Hk12 Hf12] [Hk23 Hf23]. split; [by etrans |].
  intros node_id key Hin Hkey. rewrite Hf23, Hf12; [done | done | done | | done].
  destruct Hk12 as [more ->]. apply elem_of_app. by left.
Qed.

Lemma keys_od_set_prefix {V} (k : string) (v : V) (d : odict V) :
  keys d `prefix_of` keys (od_set k v d).
Proof. rewrite keys_od_set. destruct (od_mem k d); [done | by apply prefix_app_r]. Qed.

(** A record stored over a record with the same fields beside [inputs]. *)
Lemma store_extends (data : graph) (node_id : string) (fields fields' : list (string * json)) :
  od_get node_id data = Some (JDict fields) →
  (∀ key, key ≠ "inputs" → od_get key fields' = od_get key fields) →
  extends data (od_set node_id (JDict fields') data).
Proof.
  intros Hget Hfields. split; [apply keys_od_set_prefix |].
  intros other key _ Hkey. unfold field_of. rewrite od_get_set.
  destruct (String.eqb_spec node_id other) as [<-|_]; [|done].
  rewrite Hget. by apply Hfields.
Qed.

(** A record stored under a new id. *)
Lemma create_extends (data : graph) (node_id : string) (node : json) :
  node_id ∉ keys data → extends data (od_set node_id node data).
Proof.
  intros Hfresh. split; [apply keys_od_set_prefix |].
  intros other key Hin _. unfold field_of. rewrite od_get_set_ne; [done |].
  by intros ->.
Qed.

Lemma update_inputs_extends (data : graph) node_id updates data' :
  update_inputs data node_id updates = Ok data' → extends data data'.
Proof.
  intros (fields & inputs & Hget & _ & ->)%update_inputs_Ok.
  eapply store_extends; [done |]. intros key Hkey. by apply od_get_set_ne.
Qed.

Lemma replace_inputs_extends (data : graph) node_id inputs data' :
  replace_inputs data node_id inputs = Ok data' → extends data data'.
Proof.
  intros (fields & Hget & ->)%replace_inputs_Ok.
  eapply store_extends; [done |]. intros key Hkey. by apply od_get_set_ne.
Qed.

Lemma inject_text_extends (a : args) positive_text negative_text (data data' : graph) :
  inject_text a positive_text negative_text data = Ok data' → extends data data'.
Proof.
  unfold inject_text.
  destruct (od_get (pos_node a) data) as [[| | | | |pos_fields]|] eqn:Hpos; try done.
  destruct (has_class (JDict pos_fields) "CLIPTextEncode"); [|done].
  destruct (od_get (neg_node a) data) as [[| | | | |neg_fields]|] eqn:Hneg; try done.
  destruct (has_class (JDict neg_fields) "CLIPTextEncode"); [|done].
  destruct (inputs_of pos_fields) as [pos_inputs|]; [|done].
  destruct (inputs_of neg_fields) as [neg_inputs|]; [|done].
  simpl. intros [= <-].
  eapply extends_trans.
  - eapply (store_extends data (pos_node a)); [done |].
    intros key Hkey. by apply od_get_set_ne.
  - destruct (decide (pos_node a = neg_node a)) as [Heq|Hne].
    + eapply store_extends; [rewrite Heq; apply od_get_set_eq |].
      intros key Hkey. rewrite !od_get_set_ne by done. congruence.
    + eapply store_extends; [by rewrite od_get_set_ne |].
      intros key Hkey. by apply od_get_set_ne.
Qed.

Lemma override_lora_extends (a : args) (data data' : graph) :
  override_lora a data = Ok data' → extends data data'.
Proof.
  unfold override_lora.
  destruct (lora_strength_model a), (lora_strength_clip a);
    try (destruct (not_str _); [done | apply update_inputs_extends]).
  intros [= <-]. apply extends_refl.
Qed.

Lemma override_clip_layer_extends (a : args) (data data' : graph) :
  override_clip_layer a data = Ok data' → extends data data'.
Proof.
  unfold override_clip_layer. destruct (clip_layer a).
  - destruct (not_str _); [done | apply update_inputs_extends].
  - intros [= <-]. apply extends_refl.
Qed.

Lemma next_id_fresh (data : graph) (existing_ids : gset Z) :
  (∀ k, k ∈ keys data → reserved existing_ids k) →
  ((next_id existing_ids).1 ∉ keys data) ∧
  ∀ node k, k ∈ keys (od_set (next_id existing_ids).1 node data) →
            reserved (next_id existing_ids).2 k.
Proof.
  intros Hres.
  pose proof (next_id_unreserved existing_ids) as Hfresh.
  pose proof (next_id_reserves existing_ids) as [Hnew Hold].
  assert ((next_id existing_ids).1 ∉ keys data) as Hnotin
    by (intros Hin; by apply Hfresh, Hres).
  split; [done |]. intros node k Hk.
  rewrite keys_od_set_fresh in Hk by done. unfold keys in Hk. rewrite fmap_app in Hk.
  apply elem_of_app in Hk as [Hk|Hk%list_elem_of_singleton]; [by apply Hold, Hres |].
  by subst k.
Qed.

Lemma upsert_extends (found : option string) (data : graph) existing_ids c updates
    node_id existing_ids' data' :
  (∀ k, k ∈ keys data → reserved existing_ids k) →
  upsert found c updates existing_ids data = Ok (node_id, existing_ids', data') →
  extends data data' ∧ (∀ k, k ∈ keys data' → reserved existing_ids' k).
Proof.
  intros Hres. unfold upsert. destruct (not_str found).
  - destruct (next_id_fresh data existing_ids Hres) as [Hfresh Hres'].
    destruct (next_id existing_ids) as [new ids']. simpl in *.
    intros [= <- <- <-]. split; [by apply create_extends | apply Hres'].
  - destruct (update_inputs data _ updates) as [data1|] eqn:Hupdate; [|done].
    intros [= <- <- <-]. split; [by eapply update_inputs_extends |].
    intros k Hk. apply Hres.
    by rewrite (proj1 (update_inputs_frame _ _ _ _ Hupdate)) in Hk.
Qed.

Lemma insert_controlnet_extends (a : args) (data d1 : graph) (w w1 : world) :
  insert_controlnet a data w = (Ok d1, w1) → extends data d1.
Proof.
  unfold insert_controlnet.
  destruct (not_str (controlnet a) || not_str (control_image a))%bool; [done |].
  unfold bind, lift, raise.
  destruct (int_keys (keys data)) as [ids|] eqn:Hids; [|done].
  destruct (upsert (find_node_id data "ControlNetLoader") _ _ ids data)
    as [[[control_id ids1] dA]|] eqn:Hup1; [|done].
  destruct (stage_image a _ w) as [[[source_image dest_path]|] wA]; [|done].
  destruct (upsert (find_node_id data "LoadImage") _ _ ids1 dA)
    as [[[image_id ids2] dB]|] eqn:Hup2; [|done].
  destruct (upsert (find_node_id data "ControlNetApplyAdvanced") _ _ ids2 dB)
    as [[[apply_id ids3] dC]|] eqn:Hup3; [|done].
  destruct (not_str (find_node_id dC "KSampler")); [done |].
  destruct (update_inputs dC _ _) as [dD|] eqn:Hup4; [|done].
  intros [= <- <-].
  pose proof (int_keys_reserved _ _ Hids) as Hres.
  destruct (upsert_extends _ _ _ _ _ _ _ _ Hres Hup1) as [HeA HresA].
  destruct (upsert_extends _ _ _ _ _ _ _ _ HresA Hup2) as [HeB HresB].
  destruct (upsert_extends _ _ _ _ _ _ _ _ HresB Hup3) as [HeC HresC].
  apply update_inputs_extends in Hup4.
  eauto using extends_trans.
Qed.

Lemma replace_or_create_extends (found : option string) (data : graph) existing_ids c inputs
    node_id existing_ids' data' :
  (∀ k, k ∈ keys data → reserved existing_ids k) →
  replace_or_create found c inputs existing_ids data = Ok (node_id, existing_ids', data') →
  extends data data' ∧ (∀ k, k ∈ keys data' → reserved existing_ids' k).
Proof.
  intros Hres. unfold replace_or_create. destruct (negb (not_str found)).
  - destruct (replace_inputs data _ inputs) as [data1|] eqn:Hrep; [|done].
    intros [= <- <- <-]. split; [by eapply replace_inputs_extends |].
    intros k Hk. apply Hres.
    apply replace_inputs_Ok in Hrep as (fields & Hget & ->).
    rewrite keys_od_set_present in Hk; [done |]. apply od_get_is_Some. by eexists.
  - destruct (next_id_fresh data existing_ids Hres) as [Hfresh Hres'].
    destruct (next_id existing_ids) as [new ids']. simpl in *.
    intros [= <- <- <-]. split; [by apply create_extends | apply Hres'].
Qed.

Lemma insert_ipadapter_extends (a : args) (data d1 : graph) (w w1 : world) :
  insert_ipadapter a data w = (Ok d1, w1) → extends data d1.
Proof.
  rewrite insert_ipadapter_eq.
  destruct (not_str (ipadapter_image a)); [done |].
  destruct (not_str (find_node_id data "LoraLoader")); [done |].
  unfold bind, lift, raise.
  destruct (stage_image a _ w) as [[[source_image dest_path]|] wA]; [|done].
  destruct (int_keys (keys data)) as [ids|] eqn:Hids; [|done].
  pose proof (int_keys_reserved _ _ Hids) as Hres.
  destruct (replace_or_create (find_node_id data (loader_class a)) _ _ ids data)
    as [[[loader_id ids1] dA]|] eqn:Hstep1; [|done].
  destruct (replace_or_create_extends _ _ _ _ _ _ _ _ Hres Hstep1) as [HeA HresA].
  destruct (next_id_fresh dA ids1 HresA) as [HfreshB HresB].
  cbv zeta.
  set (dB := od_set (next_id ids1).1 _ dA) in *.
  assert (extends dA dB) as HeB by (by apply create_extends).
  specialize (HresB (new_node "LoadImage" [("image", JStr (name dest_path))])).
  fold dB in HresB.
  destruct (replace_or_create (find_node_id dB "IPAdapterAdvanced") _ _ _ dB)
    as [[[advanced_id ids3] dC]|] eqn:Hstep3; [|done].
  destruct (replace_or_create_extends _ _ _ _ _ _ _ _ HresB Hstep3) as [HeC HresC].
  destruct (not_str (find_node_id dC "KSampler")); [done |].
  destruct (update_inputs dC _ _) as [dD|] eqn:Hup4; [|done].
  intros [= <- <-]. apply update_inputs_extends in Hup4.
  eauto using extends_trans.
Qed.

Lemma patch_graph_extends (a : args) (positive_text negative_text : string)
    (data data' : graph) (w w' : world) :
  patch_graph a positive_text negative_text data w = (Ok data', w') → extends data data'.
Proof.
  unfold patch_graph, bind, lift, ret.
  destruct (inject_text a positive_text negative_text data) as [dA|] eqn:Hinject; [|done].
  destruct (override_lora a dA) as [dB|] eqn:Hlora; [|done].
  destruct (override_clip_layer a dB) as [dC|] eqn:Hclip; [|done].
  apply inject_text_extends in Hinject. apply override_lora_extends in Hlora.
  apply override_clip_layer_extends in Hclip.
  assert (extends data dC) as HeC by eauto using extends_trans.
  destruct (add_controlnet a).
  - destruct (insert_controlnet a dC w) as [[dD|] wD] eqn:Hcn; [|done].
    apply insert_controlnet_extends in Hcn.
    destruct (add_ipadapter a).
    + intros Hip%insert_ipadapter_extends. eauto using extends_trans.
    + intros [= <- <-]. eauto using extends_trans.
  - destruct (add_ipadapter a).
    + intros Hip%insert_ipadapter_extends. eauto using extends_trans.
    + by intros [= <- <-].
Qed.

(** X17. Whatever features are asked for, patching removes no node and
    moves none: the node ids of the loaded document come first in the
    patched document, in the same order, and the nodes added follow. *)
Theorem patch_keeps_nodes (a : args) (positive_text negative_text : string)
    (data data' : graph) (w w' : world) :
  patch_graph a positive_text negative_text data w = (Ok data', w') →
  keys data `prefix_of` keys data'.
Proof. by intros [? _]%patch_graph_extends. Qed.

(** X18. Whatever features are asked for, patching changes nothing of a
    node of the loaded document but its [inputs]: the class and every other
    field of the record are as they were. *)
Theorem patch_confined_to_inputs (a : args) (positive_text negative_text : string)
    (data data' : graph) (w w' : world) (node_id key : string) :
  patch_graph a positive_text negative_text data w = (Ok data', w') →
  node_id ∈ keys data → key ≠ "inputs" →
  field_of data' node_id key = field_of data node_id key.
Proof. intros [_ Hfields]%patch_graph_extends. apply Hfields. Qed.

Lemma patch_keeps_nodes_witness : keys ex_graph `prefix_of` keys ex_patched.
Proof.
  apply (patch_keeps_nodes ex_controlnet_args "P" "N" ex_graph ex_patched ex_world ex_staged).
  vm_compute. reflexivity.
Defined.

Lemma patch_confined_to_inputs_witness :
  field_of ex_patched "3" "class_type" = field_of ex_graph "3" "class_type".
Proof.
  apply (patch_confined_to_inputs ex_controlnet_args "P" "N" ex_graph ex_patched
           ex_world ex_staged).
  - vm_compute. reflexivity.
  - apply (bool_decide_unpack _). vm_compute. exact I.
  - done.
Defined.

(** ** How the added nodes are wired *)

Lemma settled_input (data : graph) node_id c updates key value :
  settled data node_id c updates → (key, value) ∈ updates →
  input_of data node_id key = Some value.
Proof.
  intros (fields & inputs & Hget & _ & Hin & Hall) Hkv.
  unfold input_of, node_fields, inputs_of. rewrite Hget, Hin. by apply Hall.
Qed.

Lemma stage_image_Ok (a : args) (image : string) (w w' : world) (source dest : path) :
  stage_image a image w = (Ok (source, dest), w') →
  source = expand (home w) (Path image) ∧
  dest = joinpath (input_root a) (name (expand (home w) (Path image))).
Proof.
  unfold stage_image, bind, expanduser, path_exists, resolved, raise, ret.
  destruct (mkdir (input_root a) w) as [[[]|] w1] eqn:Hmkdir; [|done].
  destruct (mkdir_home _ _ _ _ Hmkdir) as [-> _].
  destruct (negb _); [done |].
  destruct (bool_decide _).
  - destruct (copy2 _ _ w1) as [[[]|] w2]; [|done]. by intros [= <- <- _].
  - by intros [= <- <- _].
Qed.

(** Assigning the inputs of a node of class [c]. *)
Lemma replace_frame (data : graph) node_id c inputs data' node :
  NoDup (keys data) → NoDup (keys inputs) →
  od_get node_id data = Some node → has_class node c = true →
  replace_inputs data node_id inputs = Ok data' →
  frame [c] data data' ∧ NoDup (keys data') ∧ keys data' = keys data ∧
  (∀ c', find_node_id data' c' = find_node_id data c') ∧
  settled data' node_id c inputs.
Proof.
  intros Hnd Hin Hnode Hclass (fields & Hget & ->)%replace_inputs_Ok.
  assert (node = JDict fields) as -> by congruence.
  assert (∀ c', find_node_id
                  (od_set node_id (JDict (od_set "inputs" (JDict inputs) fields)) data) c'
                = find_node_id data c') as Hfind.
  { intros c'. eapply find_node_id_replace; [done |]. apply has_class_inputs. }
  assert (node_id ∈ keys data) as Hkey by (apply od_get_is_Some; by eexists).
  split_and!; [split | by apply NoDup_keys_od_set | by apply keys_od_set_present | done |].
  - intros c' _. apply Hfind.
  - intros id0 c0 updates0 Hne (fields0 & inputs0 & Hget0 & Hrest).
    exists fields0, inputs0. split; [|done].
    rewrite od_get_set_ne; [done |]. intros ->.
    assert (fields0 = fields) as -> by congruence.
    apply Hne, list_elem_of_singleton. symmetry. eapply has_class_unique; [exact Hclass |].
    unfold has_class. destruct Hrest as [-> _]. apply String.eqb_refl.
  - apply has_class_dict in Hclass as (? & [= <-] & Hclass).
    exists (od_set "inputs" (JDict inputs) fields), inputs.
    rewrite !od_get_set_eq. split_and!; [done | by rewrite od_get_set_ne | done |].
    intros k v Hkv. by apply od_elem_get.
Qed.

(** What a find-or-make block of the IPAdapter branch achieves. *)
Lemma replace_or_create_spec (data : graph) existing_ids c inputs node_id existing_ids' data' :
  NoDup (keys data) → (∀ k, k ∈ keys data → reserved existing_ids k) →
  NoDup (keys inputs) →
  replace_or_create (find_node_id data c) c inputs existing_ids data
    = Ok (node_id, existing_ids', data') →
  NoDup (keys data') ∧ (∀ k, k ∈ keys data' → reserved existing_ids' k) ∧
  placed data' c node_id inputs ∧ frame [c] data data'.
Proof.
  intros Hnd Hres Hin. unfold replace_or_create.
  destruct (not_str (find_node_id data c)) eqn:Hfound; cbn [negb].
  - assert (find_node_id data c = None) as Hnone.
    { destruct (find_node_id data c) as [k|] eqn:Hfind; [|done].
      apply find_node_id_key in Hfind; [|done].
      apply Hres, reserved_nonempty in Hfind. by rewrite not_str_Some in Hfound. }
    destruct (next_id_fresh data existing_ids Hres) as [Hfresh Hres'].
    pose proof (next_id_reserves existing_ids) as [Hnew _].
    destruct (next_id existing_ids) as [new ids']. simpl in *.
    intros [= <- <- <-].
    destruct (create_frame data new c inputs Hnd Hfresh) as (Hframe & Hnd' & Hfind').
    split_and!; [done | apply Hres' | | done].
    split_and!; [by apply Hfind' | by eapply reserved_nonempty | by apply new_node_settles].
  - apply not_str_false in Hfound as (k & Hfind & Hk). rewrite Hfind. simpl.
    destruct (replace_inputs data k inputs) as [data1|] eqn:Hrep; [|done].
    intros [= <- <- <-].
    destruct (find_node_id_Some _ _ _ Hnd Hfind) as (node & Hget & Hclass).
    destruct (replace_frame _ _ _ _ _ _ Hnd Hin Hget Hclass Hrep)
      as (Hframe & Hnd' & Hkeys & Hfinds & Hsettled).
    split_and!; [done | by rewrite Hkeys | | done].
    split_and!; [by rewrite Hfinds | done | done].
Qed.

Lemma NoDup_keys_apply_inputs (a : args) control_id image_id :
  NoDup (keys (apply_inputs a control_id image_id)).
Proof. unfold keys. simpl. apply (bool_decide_unpack _). vm_compute. exact I. Qed.

Lemma NoDup_keys_advanced_inputs (a : args) loader_id image_id :
  NoDup (keys (advanced_inputs a loader_id image_id)).
Proof. unfold keys. simpl. apply (bool_decide_unpack _). vm_compute. exact I. Qed.

Lemma NoDup_keys_loader_inputs (a : args) lora_id : NoDup (keys (loader_inputs a lora_id)).
Proof. unfold keys. simpl. apply (bool_decide_unpack _). vm_compute. exact I. Qed.

Lemma NoDup_keys_single (key : string) (value : json) : NoDup (keys [(key, value)]).
Proof. apply NoDup_singleton. Qed.

(** X19. After the ControlNet branch the graph is wired as intended: the
    sampler takes its positive and negative conditioning from outputs 0 and
    1 of the conditioning node, which takes its own from the two text
    encoders, its control net from the loader that names the requested
    model, and its image from the image loader that names the staged file.
    Each of the four is the first node of its class. *)
Theorem controlnet_wiring (a : args) (data d1 : graph) (w w1 : world) :
  NoDup (keys data) →
  insert_controlnet a data w = (Ok d1, w1) →
  ∃ control_id image_id apply_id sampler_id,
    placed d1 "ControlNetLoader" control_id
      [("control_net_name", JStr (default "" (controlnet a)))] ∧
    placed d1 "LoadImage" image_id
      [("image", JStr (name (expand (home w) (Path (default "" (control_image a))))))] ∧
    placed d1 "ControlNetApplyAdvanced" apply_id (apply_inputs a control_id image_id) ∧
    placed d1 "KSampler" sampler_id
      [("positive", ref apply_id 0); ("negative", ref apply_id 1)].
Proof.
  intros Hnd. unfold insert_controlnet.
  destruct (not_str (controlnet a) || not_str (control_image a))%bool eqn:Hargs; [done |].
  unfold bind, lift, raise.
  destruct (int_keys (keys data)) as [ids|] eqn:Hids; [|done].
  destruct (upsert (find_node_id data "ControlNetLoader") _ _ ids data)
    as [[[control_id ids1] dA]|] eqn:Hup1; [|done].
  destruct (stage_image a _ w) as [[[source_image dest_path]|] wA] eqn:Hstage; [|done].
  apply stage_image_Ok in Hstage as [-> ->].
  destruct (upsert (find_node_id data "LoadImage") _ _ ids1 dA)
    as [[[image_id ids2] dB]|] eqn:Hup2; [|done].
  destruct (upsert (find_node_id data "ControlNetApplyAdvanced") _ _ ids2 dB)
    as [[[apply_id ids3] dC]|] eqn:Hup3; [|done].
  destruct (not_str (find_node_id dC "KSampler")) eqn:Hsampler; [done |].
  destruct (update_inputs dC _ _) as [dD|] eqn:Hup4; [|done].
  intros [= <- <-].
  pose proof (int_keys_reserved _ _ Hids) as Hres.
  destruct (upsert_spec _ _ _ _ _ _ _ Hnd Hres (NoDup_keys_single _ _) Hup1)
    as (HndA & HresA & Hp1 & Hf1).
  rewrite <- (proj1 Hf1 "LoadImage") in Hup2 by set_solver.
  destruct (upsert_spec _ _ _ _ _ _ _ HndA HresA (NoDup_keys_single _ _) Hup2)
    as (HndB & HresB & Hp2 & Hf2).
  rewrite <- (proj1 Hf1 "ControlNetApplyAdvanced") in Hup3 by set_solver.
  rewrite <- (proj1 Hf2 "ControlNetApplyAdvanced") in Hup3 by set_solver.
  destruct (upsert_spec _ _ _ _ _ _ _ HndB HresB
              (NoDup_keys_apply_inputs a control_id image_id) Hup3)
    as (HndC & HresC & Hp3 & Hf3).
  assert (NoDup (keys [("positive", ref apply_id 0); ("negative", ref apply_id 1)]))
    as Hkeys4.
  { unfold keys. simpl. apply (bool_decide_unpack _). vm_compute. exact I. }
  destruct (found_update_spec _ _ _ _ HndC Hkeys4 Hsampler Hup4)
    as (sampler_id & Hp4 & Hf4 & HndD & HkeysD).
  exists control_id, image_id, apply_id, sampler_id. split_and!.
  - apply (frame_placed _ _ _ _ _ _ Hf4); [set_solver |].
    apply (frame_placed _ _ _ _ _ _ Hf3); [set_solver |].
    apply (frame_placed _ _ _ _ _ _ Hf2); [set_solver | exact Hp1].
  - apply (frame_placed _ _ _ _ _ _ Hf4); [set_solver |].
    apply (frame_placed _ _ _ _ _ _ Hf3); [set_solver | exact Hp2].
  - apply (frame_placed _ _ _ _ _ _ Hf4); [set_solver | exact Hp3].
  - exact Hp4.
Qed.

(** What the IPAdapter branch achieves. *)
Lemma insert_ipadapter_spec (a : args) (data d1 : graph) (w w1 : world) :
  NoDup (keys data) →
  insert_ipadapter a data w = (Ok d1, w1) →
  NoDup (keys d1) ∧
  frame [loader_class a; "LoadImage"; "IPAdapterAdvanced"; "KSampler"] data d1 ∧
  ∃ lora_id loader_id image_id advanced_id sampler_id,
    find_node_id data "LoraLoader" = Some lora_id ∧
    placed d1 (loader_class a) loader_id (loader_inputs a lora_id) ∧
    (image_id ∉ keys data) ∧
    settled d1 image_id "LoadImage"
      [("image", JStr (name (joinpath (input_root a)
                               (name (expand (home w) (Path (default "" (ipadapter_image a))))))))] ∧
    placed d1 "IPAdapterAdvanced" advanced_id (advanced_inputs a loader_id image_id) ∧
    placed d1 "KSampler" sampler_id [("model", ref advanced_id 0)].
Proof.
  intros Hnd. rewrite insert_ipadapter_eq.
  destruct (not_str (ipadapter_image a)); [done |].
  destruct (not_str (find_node_id data "LoraLoader")) eqn:Hlora; [done |].
  apply not_str_false in Hlora as (lora_id & Hlora & _). rewrite Hlora.
  unfold bind, lift, raise.
  destruct (stage_image a _ w) as [[[source_image dest_path]|] wA] eqn:Hstage; [|done].
  apply stage_image_Ok in Hstage as [-> ->].
  destruct (int_keys (keys data)) as [ids|] eqn:Hids; [|done].
  pose proof (int_keys_reserved _ _ Hids) as Hres.
  destruct (replace_or_create (find_node_id data (loader_class a)) _ _ ids data)
    as [[[loader_id ids1] dA]|] eqn:Hstep1; [|done].
  destruct (replace_or_create_spec _ _ _ _ _ _ _ Hnd Hres
              (NoDup_keys_loader_inputs a _) Hstep1) as (HndA & HresA & Hp1 & Hf1).
  destruct (replace_or_create_extends _ _ _ _ _ _ _ _ Hres Hstep1) as [[HkA _] _].
  destruct (next_id_fresh dA ids1 HresA) as [HfreshB HresB].
  cbv zeta.
  set (image_id := (next_id ids1).1) in *.
  set (image_inputs := [("image", JStr _)]).
  specialize (HresB (new_node "LoadImage" image_inputs)).
  destruct (create_frame dA image_id "LoadImage" image_inputs HndA HfreshB)
    as (Hf2 & HndB & _).
  pose proof (new_node_settles dA image_id "LoadImage" image_inputs
                (NoDup_keys_single _ _)) as Hs2.
  set (dB := od_set image_id _ dA) in *.
  destruct (replace_or_create (find_node_id dB "IPAdapterAdvanced") _ _ _ dB)
    as [[[advanced_id ids3] dC]|] eqn:Hstep3; [|done].
  destruct (replace_or_create_spec _ _ _ _ _ _ _ HndB HresB
              (NoDup_keys_advanced_inputs a loader_id image_id) Hstep3)
    as (HndC & HresC & Hp3 & Hf3).
  destruct (not_str (find_node_id dC "KSampler")) eqn:Hsampler; [done |].
  destruct (update_inputs dC _ _) as [dD|] eqn:Hup4; [|done].
  intros [= <- <-].
  destruct (found_update_spec _ _ _ _ HndC (NoDup_keys_single _ _) Hsampler Hup4)
    as (sampler_id & Hp4 & Hf4 & HndD & HkeysD).
  assert (loader_class a ≠ "LoadImage" ∧ loader_class a ≠ "IPAdapterAdvanced" ∧
          loader_class a ≠ "KSampler") as (Hc1 & Hc2 & Hc3).
  { unfold loader_class. by destruct (ipadapter_community a). }
  split_and!; [done | |].
  - exact (frame_trans _ _ _ _ _ (frame_trans _ _ _ _ _ (frame_trans _ _ _ _ _ Hf1 Hf2) Hf3) Hf4).
  - exists lora_id, loader_id, image_id, advanced_id, sampler_id. split_and!.
    + done.
    + apply (frame_placed _ _ _ _ _ _ Hf4); [set_solver |].
      apply (frame_placed _ _ _ _ _ _ Hf3); [set_solver |].
      apply (frame_placed _ _ _ _ _ _ Hf2); [set_solver | exact Hp1].
    + intros Hin. apply HfreshB. destruct HkA as [more ->]. apply elem_of_app. by left.
    + apply (proj2 Hf4); [set_solver |]. apply (proj2 Hf3); [set_solver | exact Hs2].
    + apply (frame_placed _ _ _ _ _ _ Hf4); [set_solver | exact Hp3].
    + exact Hp4.
Qed.

(** X20. After the IPAdapter branch the sampler takes its model from the
    adapter node, which takes model and adapter from the loader and its
    image from an image node; the loader takes its model from the LoRA
    loader.  The image node is a new one on every run: its id is no id of
    the graph the branch started from, also when that graph already holds
    an image node for the same file. *)
Theorem ipadapter_wiring (a : args) (data d1 : graph) (w w1 : world) :
  NoDup (keys data) →
  insert_ipadapter a data w = (Ok d1, w1) →
  ∃ lora_id loader_id image_id advanced_id sampler_id,
    find_node_id data "LoraLoader" = Some lora_id ∧
    placed d1 (loader_class a) loader_id (loader_inputs a lora_id) ∧
    (image_id ∉ keys data) ∧
    settled d1 image_id "LoadImage"
      [("image", JStr (name (joinpath (input_root a)
                               (name (expand (home w) (Path (default "" (ipadapter_image a))))))))] ∧
    placed d1 "IPAdapterAdvanced" advanced_id (advanced_inputs a loader_id image_id) ∧
    placed d1 "KSampler" sampler_id [("model", ref advanced_id 0)].
Proof. intros Hnd Hrun. by destruct (insert_ipadapter_spec _ _ _ _ _ Hnd Hrun) as (_ & _ & ?). Qed.

(** X21. Whatever features are asked for, the patched document carries the
    generated texts: the negative text in the negative encoder and, when
    the two encoders differ, the positive text in the positive one.  No
    later step of the patch writes into an encoder. *)
Theorem texts_survive_features (a : args) (positive_text negative_text : string)
    (data data' : graph) (w w' : world) :
  NoDup (keys data) →
  patch_graph a positive_text negative_text data w = (Ok data', w') →
  input_of data' (neg_node a) "text" = Some (JStr negative_text) ∧
  (pos_node a ≠ neg_node a →
   input_of data' (pos_node a) "text" = Some (JStr positive_text)).
Proof.
  intros Hnd. unfold patch_graph, bind, lift, ret.
  destruct (inject_text a positive_text negative_text data) as [dA|] eqn:Hinject; [|done].
  destruct (override_lora a dA) as [dB|] eqn:Hlora; [|done].
  destruct (override_clip_layer a dB) as [dC|] eqn:Hclip; [|done].
  destruct (inject_text_settles _ _ _ _ _ Hnd Hinject) as (HndA & Hneg & Hpos).
  destruct (override_lora_spec _ _ _ HndA Hlora) as (HndB & HfB & _).
  destruct (override_clip_layer_spec _ _ _ HndB Hclip) as (HndC & HfC & _).
  assert (∀ classes dD, "CLIPTextEncode" ∉ classes → frame classes dC dD →
            input_of dD (neg_node a) "text" = Some (JStr negative_text) ∧
            (pos_node a ≠ neg_node a →
             input_of dD (pos_node a) "text" = Some (JStr positive_text))) as Hkeep.
  { intros classes dD Hclasses HfD.
    pose proof (frame_trans _ _ _ _ _ (frame_trans _ _ _ _ _ HfB HfC) HfD) as [_ Hframe].
    assert ("CLIPTextEncode" ∉ (["LoraLoader"] ++ ["CLIPSetLastLayer"]) ++ classes) as Hne
      by set_solver.
    split.
    - eapply settled_input; [by apply Hframe |]. by apply list_elem_of_singleton.
    - intros Hdiff. eapply settled_input; [apply Hframe; [done | by apply Hpos] |].
      by apply list_elem_of_singleton. }
  assert (∀ other, other ∈ [loader_class a; "LoadImage"; "IPAdapterAdvanced"; "KSampler"] →
                   other ≠ "CLIPTextEncode") as Hother.
  { unfold loader_class. destruct (ipadapter_community a); set_solver. }
  destruct (add_controlnet a).
  - destruct (insert_controlnet a dC w) as [[dD|] wD] eqn:Hcn; [|done].
    destruct (insert_controlnet_again _ _ _ _ _ HndC Hcn) as (HndD & HfD & _).
    destruct (add_ipadapter a).
    + intros Hip. destruct (insert_ipadapter_spec _ _ _ _ _ HndD Hip) as (_ & HfE & _).
      eapply Hkeep; [|exact (frame_trans _ _ _ _ _ HfD HfE)].
      intros [Hin|Hin]%elem_of_app; [set_solver | by eapply Hother].
    + intros [= <- <-]. eapply Hkeep; [|exact HfD]. set_solver.
  - destruct (add_ipadapter a).
    + intros Hip. destruct (insert_ipadapter_spec _ _ _ _ _ HndC Hip) as (_ & HfE & _).
      eapply Hkeep; [|exact HfE]. intros Hin. by eapply Hother.
    + intros [= <- <-]. eapply (Hkeep []); [set_solver | apply frame_refl].
Qed.

Lemma ex_graph_NoDup : NoDup (keys ex_graph).
Proof. unfold keys. simpl. apply (bool_decide_unpack _). vm_compute. exact I. Qed.

Lemma controlnet_wiring_witness :
  ∃ control_id image_id apply_id sampler_id,
    placed ex_wired "ControlNetLoader" control_id
      [("control_net_name", JStr (default "" (controlnet ex_controlnet_args)))] ∧
    placed ex_wired "LoadImage" image_id
      [("image", JStr (name (expand (home ex_world) (Path (default "" (control_image ex_controlnet_args))))))] ∧
    placed ex_wired "ControlNetApplyAdvanced" apply_id
      (apply_inputs ex_controlnet_args control_id image_id) ∧
    placed ex_wired "KSampler" sampler_id
      [("positive", ref apply_id 0); ("negative", ref apply_id 1)].
Proof.
  apply (controlnet_wiring ex_controlnet_args ex_graph ex_wired ex_world ex_staged).
  - exact ex_graph_NoDup.
  - vm_compute. reflexivity.
Defined.

Lemma ipadapter_wiring_witness :
  ∃ lora_id loader_id image_id advanced_id sampler_id,
    find_node_id ex_graph "LoraLoader" = Some lora_id ∧
    placed ex_adapted (loader_class ex_ipadapter_args) loader_id
      (loader_inputs ex_ipadapter_args lora_id) ∧
    (image_id ∉ keys ex_graph) ∧
    settled ex_adapted image_id "LoadImage"
      [("image", JStr (name (joinpath (input_root ex_ipadapter_args)
                               (name (expand (home ex_world) (Path (default "" (ipadapter_image ex_ipadapter_args))))))))] ∧
    placed ex_adapted "IPAdapterAdvanced" advanced_id
      (advanced_inputs ex_ipadapter_args loader_id image_id) ∧
    placed ex_adapted "KSampler" sampler_id [("model", ref advanced_id 0)].
Proof.
  apply (ipadapter_wiring ex_ipadapter_args ex_graph ex_adapted ex_world ex_staged).
  - exact ex_graph_NoDup.
  - vm_compute. reflexivity.
Defined.

Lemma texts_survive_features_witness :
  input_of ex_patched (neg_node ex_controlnet_args) "text" = Some (JStr "N") ∧
  (pos_node ex_controlnet_args ≠ neg_node ex_controlnet_args →
   input_of ex_patched (pos_node ex_controlnet_args) "text" = Some (JStr "P")).
Proof.
  apply (texts_survive_features ex_controlnet_args "P" "N" ex_graph ex_patched
           ex_world ex_staged).
  - exact ex_graph_NoDup.
  - vm_compute. reflexivity.
Defined.

(** ** What an override changes *)

(** X22. The LoRA override writes the strengths that were given into the
    first LoRA loader of the graph and changes no other input of any
    node. *)
Theorem lora_override_confined (a : args) (data data' : graph) :
  override_lora a data = Ok data' →
  (∀ key value, (key, value) ∈ lora_updates a →
     ∃ lora_id, find_node_id data "LoraLoader" = Some lora_id ∧
                input_of data' lora_id key = Some value) ∧
  (∀ node_id key,
     (find_node_id data "LoraLoader" = Some node_id → key ∉ keys (lora_updates a)) →
     input_of data' node_id key = input_of data node_id key).
Proof.
  intros Hrun.
  assert (lora_updates a = [] ∧ data' = data ∨
          ∃ lora_id, find_node_id data "LoraLoader" = Some lora_id ∧
                     update_inputs data lora_id (lora_updates a) = Ok data') as Hcases.
  { unfold override_lora, lora_updates in *.
    destruct (lora_strength_model a), (lora_strength_clip a);
      try (destruct (not_str (find_node_id data "LoraLoader")) eqn:Hfound; [done |];
           apply not_str_false in Hfound as (lora_id & Hfind & _);
           rewrite Hfind in Hrun; right; by exists lora_id).
    left. split; [done | congruence]. }
  destruct Hcases as [[Hnone ->]|(lora_id & Hfind & Hupdate)].
  { split; [|done]. intros key value Hin. rewrite Hnone in Hin. by apply elem_of_nil in Hin. }
  split.
  - intros key value Hin. exists lora_id. split; [done |].
    apply update_inputs_Ok in Hupdate as (fields & inputs & Hget & Hinputs & ->).
    unfold input_of, node_fields. rewrite od_get_set_eq, inputs_of_set.
    by apply od_update_get; [apply lora_updates_NoDup |].
  - intros node_id key Hkey.
    apply (proj2 (proj2 (proj2 (proj2 (update_inputs_frame _ _ _ _ Hupdate))))).
    intros ->. by apply Hkey.
Qed.

Lemma lora_override_confined_witness :
  (∀ key value, (key, value) ∈ lora_updates ex_lora_args →
     ∃ lora_id, find_node_id ex_graph "LoraLoader" = Some lora_id ∧
                input_of ex_lora_graph lora_id key = Some value) ∧
  (∀ node_id key,
     (find_node_id ex_graph "LoraLoader" = Some node_id →
      key ∉ keys (lora_updates ex_lora_args)) →
     input_of ex_lora_graph node_id key = input_of ex_graph node_id key).
Proof.
  apply (lora_override_confined ex_lora_args ex_graph ex_lora_graph).
  vm_compute. reflexivity.
Defined.

(** ** Staging again *)

(** X23. A reference image that was staged is staged again, to the same
    place, in any later state of the file system: one with the same working
    and home directory and the same directories, in which no file has gone. *)
Theorem staging_repeatable (a : args) (image : string) (w w1 w' : world)
    (source dest : path) :
  stage_image a image w = (Ok (source, dest), w1) → later w1 w' →
  ∃ w'', stage_image a image w' = (Ok (source, dest), w'') ∧ later w' w''.
Proof. apply stage_image_later. Qed.

Lemma staging_repeatable_witness :
  ∃ w'', stage_image ex_controlnet_args "/tmp/pose.png" ex_staged
         = (Ok (["/"; "tmp"; "pose.png"], ["/"; "comfy"; "input"; "pose.png"]), w'')
         ∧ later ex_staged w''.
Proof.
  apply (staging_repeatable ex_controlnet_args "/tmp/pose.png" ex_world ex_staged ex_staged).
  - vm_compute. reflexivity.
  - apply later_refl.
Defined.

(** ** Numbers and their decimal form *)

(** X24. [int] reads back what [str] writes, and [str] gives different
    texts for different numbers. *)
Theorem int_reads_str (n m : Z) : int (str n) = Ok n ∧ (str n = str m → n = m).
Proof. split; [apply int_str | apply str_inj]. Qed.
